(** * invoicer: the request handlers of [main.go]

    A shallow embedding of the HTTP handlers of the invoicer service
    ([getIndex], [getInvoice], [postInvoice], [putInvoice], [deleteInvoice])
    and of its CSRF token functions ([createCSRFToken], [checkCSRFToken]),
    together with the pieces of the Go standard library and of gorm they
    call.

    Conventions.
    - A Go [string] or [[]byte] is a list of bytes, [list ascii]; a byte's
      numeric value is a [Z] in [0, 256).
    - Go's [int] and [uint] are 64-bit; they are [Z] here and the one place
      where the range matters ([strconv.Atoi]) writes it out.
    - A handler is a function of its environment (clock, random source,
      which store calls fail), of the store and of the request; it returns
      what was written to the [http.ResponseWriter] (or that it
      panicked) and the new store.
    - Writes to the process log ([log.Println], [appLog.log]) are not part
      of the model. *)

From Stdlib Require Import ZArith List Ascii String Bool Lia PrimFloat.
Import ListNotations.
Local Open Scope Z_scope.

(* ================================================================= *)
(** ** Go strings and byte slices *)

Abbreviation gostring := (list ascii).

Coercion list_ascii_of_string : string >-> list.

Definition byte_val (c : ascii) : Z := Z.of_N (N_of_ascii c).

(** Go's conversion [byte(x)]: the low eight bits. *)
Definition byte_of (x : Z) : ascii := ascii_of_N (Z.to_N (x mod 256)).

Definition len (s : gostring) : Z := Z.of_nat (List.length s).

Fixpoint str_eqb (a b : gostring) : bool :=
  match a, b with
  | [], [] => true
  | x :: a', y :: b' => Ascii.eqb x y && str_eqb a' b'
  | _, _ => false
  end.

(** The slice expression [s[lo:hi]]; [None] is the run-time panic
    "slice bounds out of range". *)
Definition slice (s : gostring) (lo hi : Z) : option gostring :=
  if (0 <=? lo) && (lo <=? hi) && (hi <=? len s)
  then Some (firstn (Z.to_nat (hi - lo)) (skipn (Z.to_nat lo) s))
  else None.

(** [s[lo:]] *)
Definition slice_from (s : gostring) (lo : Z) : option gostring :=
  slice s lo (len s).

Fixpoint has_prefix (p s : gostring) : bool :=
  match p, s with
  | [], _ => true
  | x :: p', y :: s' => Ascii.eqb x y && has_prefix p' s'
  | _ :: _, [] => false
  end.

(** [strings.Index(s, sep)]: the index of the first instance of [sep] in
    [s], or [-1]. *)
Fixpoint strings_Index (s sep : gostring) : Z :=
  if has_prefix sep s then 0
  else match s with
       | [] => -1
       | _ :: s' => let i := strings_Index s' sep in
                    if i <? 0 then -1 else i + 1
       end.

(** [strings.Split(s, sep)] for the one-byte separators the program uses:
    [s] cut at every occurrence of [sep]; a string without [sep] gives the
    one-element slice [[s]]. *)
Fixpoint split_byte (sep : ascii) (s : gostring) : list gostring :=
  match s with
  | [] => [[]]
  | c :: s' =>
      if Ascii.eqb c sep then [] :: split_byte sep s'
      else match split_byte sep s' with
           | p :: ps => (c :: p) :: ps
           | [] => [[c]]
           end
  end.

Definition strings_Split (s sep : gostring) : list gostring :=
  match sep with
  | [c] => split_byte c s
  | _ => [s]
  end.

(** Decimal digits of a non-negative number, as [fmt.Sprintf("%d", n)]
    prints them. *)
Fixpoint digits_of (fuel : nat) (n : Z) (acc : gostring) : gostring :=
  match fuel with
  | O => acc
  | S fuel' =>
      let acc' := byte_of (48 + n mod 10) :: acc in
      if n <? 10 then acc' else digits_of fuel' (n / 10) acc'
  end.

Definition itoa (n : Z) : gostring :=
  if n <? 0 then "-"%char :: digits_of (S (Z.to_nat (Z.log2 (- n)))) (- n) []
  else digits_of (S (Z.to_nat (Z.log2 n))) n [].

Definition is_digit (c : ascii) : bool :=
  (48 <=? byte_val c) && (byte_val c <=? 57).

Fixpoint digits_value (s : gostring) (acc : Z) : Z :=
  match s with
  | [] => acc
  | c :: s' => digits_value s' (10 * acc + (byte_val c - 48))
  end.

Definition maxInt64 : Z := 2 ^ 63 - 1.

Definition maxUint64 : Z := 2 ^ 64 - 1.

(** The loop of [strconv.ParseUint(s, 10, 64)] from the value [n] read so
    far: [None] is a syntax error (a byte that is not a digit), otherwise
    the value and whether it is in range; out of range the value is the
    largest [uint64], and what follows is not looked at. *)
Fixpoint parse_uint (s : gostring) (n : Z) : option (Z * bool) :=
  match s with
  | [] => Some (n, true)
  | c :: s' =>
      if is_digit c then
        if maxUint64 / 10 + 1 <=? n then Some (maxUint64, false)
        else
          let n1 := 10 * n + (byte_val c - 48) in
          if maxUint64 <? n1 then Some (maxUint64, false)
          else parse_uint s' n1
      else None
  end.

(** [strconv.Atoi]: the value and whether an error is returned.  The text
    is an optional sign followed by one or more digits; anything else gives
    [0] and an error.  A value out of the range of [int] gives the nearest
    end of the range and an error. *)
Definition strconv_Atoi (s : gostring) : Z * bool :=
  let neg := has_prefix "-"%string s in
  let digits := if neg || has_prefix "+"%string s then tl s else s in
  match digits with
  | [] => (0, true)
  | _ =>
      match parse_uint digits 0 with
      | None => (0, true)
      | Some (un, _) =>
          if negb neg && (2 ^ 63 <=? un) then (maxInt64, true)
          else if neg && (2 ^ 63 <? un) then (- 2 ^ 63, true)
          else (if neg then - un else un, false)
      end
  end.

(* ================================================================= *)
(** ** encoding/base64, [StdEncoding] *)

Definition encodeStd : gostring :=
  "ABCDEFGHIJKLMNOPQRSTUVWXYZabcdefghijklmnopqrstuvwxyz0123456789+/"%string.

Definition padChar : ascii := "="%char.

Definition enc_char (v : Z) : ascii :=
  nth (Z.to_nat (Z.land v 63)) encodeStd "A"%char.

(** [EncodeToString]: three bytes give four characters; a last group of
    one or two bytes is padded with [=]. *)
Fixpoint base64_EncodeToString (src : gostring) : gostring :=
  match src with
  | [] => []
  | [a] =>
      let val := Z.shiftl (byte_val a) 16 in
      [enc_char (Z.shiftr val 18); enc_char (Z.shiftr val 12); padChar; padChar]
  | [a; b] =>
      let val := Z.lor (Z.shiftl (byte_val a) 16) (Z.shiftl (byte_val b) 8) in
      [enc_char (Z.shiftr val 18); enc_char (Z.shiftr val 12);
       enc_char (Z.shiftr val 6); padChar]
  | a :: b :: c :: rest =>
      let val := Z.lor (Z.lor (Z.shiftl (byte_val a) 16)
                              (Z.shiftl (byte_val b) 8)) (byte_val c) in
      enc_char (Z.shiftr val 18) :: enc_char (Z.shiftr val 12) ::
      enc_char (Z.shiftr val 6) :: enc_char val ::
      base64_EncodeToString rest
  end.

Fixpoint index_of (c : ascii) (l : gostring) (i : Z) : option Z :=
  match l with
  | [] => None
  | x :: l' => if Ascii.eqb x c then Some i else index_of c l' (i + 1)
  end.

(** The decoder's table: the six-bit value of an alphabet character. *)
Definition decodeMap (c : ascii) : option Z := index_of c encodeStd 0.

(** The [n]-th character of the alphabet decodes to [n] and is not the
    token separator. *)
Definition alphabet_ok (n : nat) : bool :=
  let c := nth n encodeStd "A"%char in
  match decodeMap c with
  | Some v => (v =? Z.of_nat n) && negb (Ascii.eqb c "$"%char)
  | None => false
  end.

Definition is_newline (c : ascii) : bool :=
  Ascii.eqb c "010"%char || Ascii.eqb c "013"%char.

Fixpoint skip_newlines (s : gostring) : gostring :=
  match s with
  | c :: s' => if is_newline c then skip_newlines s' else s
  | [] => []
  end.

(** The six bits of [val] from bit [k] up. *)
Definition sextet (val k : Z) : Z := Z.land (Z.shiftr val k) 63.

(** The bytes a quantum of [dlen] six-bit values stands for
    ([dlen - 1] of them). *)
Definition quantum_bytes (dbuf : list Z) : gostring :=
  let val := Z.lor (Z.lor (Z.lor (Z.shiftl (nth 0 dbuf 0) 18)
                                 (Z.shiftl (nth 1 dbuf 0) 12))
                          (Z.shiftl (nth 2 dbuf 0) 6)) (nth 3 dbuf 0) in
  firstn (List.length dbuf - 1)
         [byte_of (Z.shiftr val 16); byte_of (Z.shiftr val 8); byte_of val].

(** [Decode], quantum by quantum.  [dbuf] holds the values read so far in
    the current quantum (at most three), [out] the bytes of the quanta
    already complete.  The result is the decoded prefix and whether a
    [CorruptInputError] is returned with it: [DecodeString] returns
    [dbuf[:n], err], the bytes decoded before the error included.  Line
    breaks are skipped; input may end only between quanta; after padding
    only line breaks may follow, and what the padded quantum holds is still
    written when something else does. *)
Fixpoint base64_decode (src : gostring) (dbuf : list Z) (out : gostring)
  : gostring * bool :=
  match src with
  | [] => match dbuf with
          | [] => (out, false)
          | _ => (out, true)
          end
  | c :: rest =>
      match decodeMap c with
      | Some v =>
          if (List.length dbuf =? 3)%nat
          then base64_decode rest [] (out ++ quantum_bytes (dbuf ++ [v]))
          else base64_decode rest (dbuf ++ [v]) out
      | None =>
          if is_newline c then base64_decode rest dbuf out
          else if negb (Ascii.eqb c padChar) then (out, true)
          else
            match List.length dbuf with
            | 2%nat =>
                match skip_newlines rest with
                | [] => (out, true)
                | c2 :: rest2 =>
                    if Ascii.eqb c2 padChar
                    then (out ++ quantum_bytes dbuf,
                          match skip_newlines rest2 with
                          | [] => false
                          | _ => true
                          end)
                    else (out, true)
                end
            | 3%nat =>
                (out ++ quantum_bytes dbuf,
                 match skip_newlines rest with [] => false | _ => true end)
            | _ => (out, true)
            end
      end
  end.

Definition base64_DecodeString (s : gostring) : gostring * bool :=
  base64_decode s [] [].

(* ================================================================= *)
(** ** crypto/sha256 and crypto/hmac *)

Definition w32 (x : Z) : Z := x mod 2 ^ 32.

Definition rotr (n x : Z) : Z :=
  w32 (Z.lor (Z.shiftr x n) (Z.shiftl x (32 - n))).

Definition sha_K : list Z :=
  [ 1116352408; 1899447441; 3049323471; 3921009573; 961987163; 1508970993;
    2453635748; 2870763221; 3624381080; 310598401; 607225278; 1426881987;
    1925078388; 2162078206; 2614888103; 3248222580; 3835390401; 4022224774;
    264347078; 604807628; 770255983; 1249150122; 1555081692; 1996064986;
    2554220882; 2821834349; 2952996808; 3210313671; 3336571891; 3584528711;
    113926993; 338241895; 666307205; 773529912; 1294757372; 1396182291;
    1695183700; 1986661051; 2177026350; 2456956037; 2730485921; 2820302411;
    3259730800; 3345764771; 3516065817; 3600352804; 4094571909; 275423344;
    430227734; 506948616; 659060556; 883997877; 958139571; 1322822218;
    1537002063; 1747873779; 1955562222; 2024104815; 2227730452; 2361852424;
    2428436474; 2756734187; 3204031479; 3329325298 ].

Definition sha_init : list Z :=
  [ 1779033703; 3144134277; 1013904242; 2773480762;
    1359893119; 2600822924; 528734635; 1541459225 ].

(** Big-endian bytes of a word of [n] bytes. *)
Fixpoint be_bytes (n : nat) (x : Z) : gostring :=
  match n with
  | O => []
  | S n' => byte_of (Z.shiftr x (8 * Z.of_nat n')) :: be_bytes n' x
  end.

(** The message followed by [0x80], zeros up to 56 modulo 64, and the
    length in bits as eight big-endian bytes. *)
Definition sha_pad (msg : gostring) : gostring :=
  let l := len msg in
  msg ++ [byte_of 128] ++
  repeat (byte_of 0) (Z.to_nat ((55 - l) mod 64)) ++
  be_bytes 8 (8 * l).

Fixpoint be_words (n : nat) (b : gostring) : list Z :=
  match n, b with
  | S n', b0 :: b1 :: b2 :: b3 :: b' =>
      Z.lor (Z.lor (Z.lor (Z.shiftl (byte_val b0) 24) (Z.shiftl (byte_val b1) 16))
                   (Z.shiftl (byte_val b2) 8)) (byte_val b3)
      :: be_words n' b'
  | _, _ => []
  end.

(** The 64 words of the message schedule; [w] holds the 16 words before
    the next one, oldest first. *)
Fixpoint sha_schedule (n : nat) (w : list Z) : list Z :=
  match n with
  | O => []
  | S n' =>
      let v1 := nth 14 w 0 in
      let v2 := nth 1 w 0 in
      let t1 := Z.lxor (Z.lxor (rotr 17 v1) (rotr 19 v1)) (Z.shiftr v1 10) in
      let t2 := Z.lxor (Z.lxor (rotr 7 v2) (rotr 18 v2)) (Z.shiftr v2 3) in
      let x := w32 (t1 + nth 9 w 0 + t2 + nth 0 w 0) in
      x :: sha_schedule n' (tl w ++ [x])
  end.

Definition sha_round (h : list Z) (kw : Z * Z) : list Z :=
  match h with
  | [a; b; c; d; e; f; g; hh] =>
      let t1 := hh + Z.lxor (Z.lxor (rotr 6 e) (rotr 11 e)) (rotr 25 e)
                + Z.lxor (Z.land e f) (Z.land (Z.lxor e (2 ^ 32 - 1)) g)
                + fst kw + snd kw in
      let t2 := Z.lxor (Z.lxor (rotr 2 a) (rotr 13 a)) (rotr 22 a)
                + Z.lxor (Z.lxor (Z.land a b) (Z.land a c)) (Z.land b c) in
      [w32 (t1 + t2); a; b; c; w32 (d + t1); e; f; g]
  | _ => h
  end.

Definition sha_block (h : list Z) (blk : gostring) : list Z :=
  let w16 := be_words 16 blk in
  let w := w16 ++ sha_schedule 48 w16 in
  let h' := fold_left sha_round (combine sha_K w) h in
  map (fun p => w32 (fst p + snd p)) (combine h h').

Fixpoint sha_blocks (n : nat) (h : list Z) (b : gostring) : list Z :=
  match n with
  | O => h
  | S n' => sha_blocks n' (sha_block h (firstn 64 b)) (skipn 64 b)
  end.

(** [sha256.Sum256]: the 32-byte digest. *)
Definition sha256 (msg : gostring) : gostring :=
  let p := sha_pad msg in
  flat_map (be_bytes 4) (sha_blocks (List.length p / 64) sha_init p).

Definition xor_pad (pad : Z) (key : gostring) : gostring :=
  map (fun c => byte_of (Z.lxor (byte_val c) pad)) key.

(** [hmac.New(sha256.New, key)], [Write(msg)], [Sum(nil)]: a key longer
    than the block size is hashed first, then padded with zeros to 64
    bytes. *)
Definition hmac_sha256 (key msg : gostring) : gostring :=
  let k := if 64 <? len key then sha256 key else key in
  let k := k ++ repeat (byte_of 0) (64 - List.length k) in
  sha256 (xor_pad 92 k ++ sha256 (xor_pad 54 k ++ msg)).

(** [hmac.Equal]: equal lengths and equal contents. *)
Definition hmac_Equal (mac1 mac2 : gostring) : bool := str_eqb mac1 mac2.

(* ================================================================= *)
(** ** html.EscapeString *)

(** The double quote, byte 34. *)
Definition dquote : ascii := "034"%char.

Definition escape_byte (c : ascii) : gostring :=
  if Ascii.eqb c "&"%char then "&amp;"%string
  else if Ascii.eqb c "'"%char then "&#39;"%string
  else if Ascii.eqb c "<"%char then "&lt;"%string
  else if Ascii.eqb c ">"%char then "&gt;"%string
  else if Ascii.eqb c dquote then "&#34;"%string
  else [c].

Definition html_EscapeString (s : gostring) : gostring :=
  flat_map escape_byte s.

(** The five entities [html.EscapeString] writes, and the byte each stands
    for. *)
Definition entities : list (gostring * ascii) :=
  [(list_ascii_of_string "&amp;", "&"%char);
   (list_ascii_of_string "&#39;", "'"%char);
   (list_ascii_of_string "&lt;", "<"%char);
   (list_ascii_of_string "&gt;", ">"%char);
   (list_ascii_of_string "&#34;", dquote)].

(** Reading escaped text back: each of the five entities becomes its
    byte, any other byte is kept. *)
Fixpoint unescape_from (fuel : nat) (s : gostring) : gostring :=
  match fuel, s with
  | S fuel', c :: s' =>
      match find (fun en => has_prefix (fst en) s) entities with
      | Some en =>
          snd en :: unescape_from fuel' (skipn (List.length (fst en)) s)
      | None => c :: unescape_from fuel' s'
      end
  | _, _ => []
  end.

Definition html_unescape (s : gostring) : gostring :=
  unescape_from (List.length s) s.

(** A byte that markup or an attribute value gives a meaning to. *)
Definition is_markup (c : ascii) : bool :=
  existsb (Ascii.eqb c) ["<"%char; ">"%char; "'"%char; dquote].

(* ================================================================= *)
(** ** The data model: [gorm.Model], [Charge], [Invoice] *)

(** [time.Time], as nanoseconds since its zero value. *)
Definition time_Time : Type := Z.

(** [gorm.Model]: the key and the store-managed timestamps.  A row whose
    [DeletedAt] is set is soft-deleted: gorm's queries, updates and deletes
    leave it out. *)
Record Model := {
  ID : Z;
  CreatedAt : time_Time;
  UpdatedAt : time_Time;
  DeletedAt : option time_Time
}.

Record Charge := {
  Charge_Model : Model;
  InvoiceID : Z;
  Charge_Type : gostring;
  Charge_Amount : float;
  Description : gostring
}.

Record Invoice := {
  Invoice_Model : Model;
  IsPaid : bool;
  Invoice_Amount : Z;
  PaymentDate : time_Time;
  DueDate : time_Time;
  Charges : list Charge
}.

Definition zero_Model : Model :=
  {| ID := 0; CreatedAt := 0; UpdatedAt := 0; DeletedAt := None |}.

(** [var i1 Invoice] *)
Definition zero_Invoice : Invoice :=
  {| Invoice_Model := zero_Model; IsPaid := false; Invoice_Amount := 0;
     PaymentDate := 0; DueDate := 0; Charges := [] |}.

Definition Invoice_ID (i : Invoice) : Z := ID (Invoice_Model i).
Definition Charge_ID (c : Charge) : Z := ID (Charge_Model c).

Definition set_ID (m : Model) (id : Z) : Model :=
  {| ID := id; CreatedAt := CreatedAt m; UpdatedAt := UpdatedAt m;
     DeletedAt := DeletedAt m |}.

Definition set_DeletedAt (m : Model) (t : option time_Time) : Model :=
  {| ID := ID m; CreatedAt := CreatedAt m; UpdatedAt := UpdatedAt m;
     DeletedAt := t |}.

Definition set_Invoice_Model (i : Invoice) (m : Model) : Invoice :=
  {| Invoice_Model := m; IsPaid := IsPaid i; Invoice_Amount := Invoice_Amount i;
     PaymentDate := PaymentDate i; DueDate := DueDate i; Charges := Charges i |}.

Definition set_Charges (i : Invoice) (cs : list Charge) : Invoice :=
  {| Invoice_Model := Invoice_Model i; IsPaid := IsPaid i;
     Invoice_Amount := Invoice_Amount i; PaymentDate := PaymentDate i;
     DueDate := DueDate i; Charges := cs |}.

Definition set_Charge_Model (c : Charge) (m : Model) : Charge :=
  {| Charge_Model := m; InvoiceID := InvoiceID c; Charge_Type := Charge_Type c;
     Charge_Amount := Charge_Amount c; Description := Description c |}.

Definition set_InvoiceID (c : Charge) (id : Z) : Charge :=
  {| Charge_Model := Charge_Model c; InvoiceID := id;
     Charge_Type := Charge_Type c; Charge_Amount := Charge_Amount c;
     Description := Description c |}.

(* ================================================================= *)
(** ** The persistence store: gorm over two tables *)

(** The gorm calls the handlers make, with their arguments. *)
Inductive Call :=
| First_Invoice (id : Z)
| Last_Invoice (out : Invoice)
| Find_Charges (invoice_id : Z)
| Create_Invoice (i : Invoice)
| Save_Invoice (i : Invoice)
| Delete_Charges (invoice_id : Z)
| Delete_Invoice (i : Invoice).

(** The [*gorm.DB] handle: the two tables ([invoices] rows carry no
    [Charges]), the last key each table handed out, and the calls made on
    the handle so far, oldest first. *)
Record DB := {
  invoices : list Invoice;
  charges : list Charge;
  invoice_seq : Z;
  charge_seq : Z;
  calls : list Call
}.

(** What a handler reads from outside the request: the clock, the bytes
    [crypto/rand] delivers, and for each call on the store (by its position
    in [calls]) whether it fails.  A call that fails is refused before it
    writes anything, with one exception: a [db.Create] may fail after its
    invoice row was inserted, while a charge is saved.  [cut_short] says
    for which calls this is so, and gives the [Charges] slice as gorm leaves
    it in the struct. *)
Record Env := {
  now : time_Time;
  random : gostring;
  fails : nat -> bool;
  cut_short : nat -> option (list Charge)
}.

Definition visible (m : Model) : bool :=
  match DeletedAt m with
  | None => true
  | Some _ => false
  end.

Definition log_call (c : Call) (db : DB) : DB :=
  {| invoices := invoices db; charges := charges db;
     invoice_seq := invoice_seq db; charge_seq := charge_seq db;
     calls := calls db ++ [c] |}.

Definition next_fails (e : Env) (db : DB) : bool :=
  fails e (List.length (calls db)).

Definition with_tables (db : DB) (irows : list Invoice) (crows : list Charge)
           (iseq cseq : Z) : DB :=
  {| invoices := irows; charges := crows; invoice_seq := iseq; charge_seq := cseq;
     calls := calls db |}.

(** gorm adds [id = out.ID] to a query or a delete when the struct it is
    given has a non-zero primary key, and no condition on the key when it
    is zero. *)
Definition key_matches (out_id row_id : Z) : bool :=
  (out_id =? 0) || (row_id =? out_id).

(** The columns of [row] scanned into [out]; [Charges] is not a column. *)
Definition scan (row out : Invoice) : Invoice :=
  set_Charges row (Charges out).

(** [db.First(&out, id)]: the live row with that key; [out] is left as it
    was when there is none or the call fails. *)
Definition gorm_First (e : Env) (db : DB) (out : Invoice) (id : Z)
  : DB * Invoice :=
  let db' := log_call (First_Invoice id) db in
  if next_fails e db then (db', out)
  else
    match find (fun r => visible (Invoice_Model r) && (Invoice_ID r =? id)
                         && key_matches (Invoice_ID out) (Invoice_ID r))
               (invoices db) with
    | Some r => (db', scan r out)
    | None => (db', out)
    end.

Definition later_row (best : option Invoice) (r : Invoice) : option Invoice :=
  match best with
  | Some b => if Invoice_ID b <=? Invoice_ID r then Some r else best
  | None => Some r
  end.

(** [db.Last(&out)]: the live row with the greatest key (among those with
    [out]'s key when it is set). *)
Definition gorm_Last (e : Env) (db : DB) (out : Invoice) : DB * Invoice :=
  let db' := log_call (Last_Invoice out) db in
  if next_fails e db then (db', out)
  else
    match fold_left later_row
            (filter (fun r => visible (Invoice_Model r)
                              && key_matches (Invoice_ID out) (Invoice_ID r))
                    (invoices db)) None with
    | Some r => (db', scan r out)
    | None => (db', out)
    end.

(** [db.Where("invoice_id = ?", id).Find(&out)]: the live charges of that
    invoice. *)
Definition gorm_Find_Charges (e : Env) (db : DB) (out : list Charge) (id : Z)
  : DB * list Charge :=
  let db' := log_call (Find_Charges id) db in
  if next_fails e db then (db', out)
  else (db', filter (fun c => visible (Charge_Model c) && (InvoiceID c =? id))
                    (charges db)).

(** gorm's create callback stamps [CreatedAt] and [UpdatedAt] where they
    are blank. *)
Definition stamp (t : time_Time) (m : Model) : Model :=
  {| ID := ID m;
     CreatedAt := if CreatedAt m =? 0 then t else CreatedAt m;
     UpdatedAt := if UpdatedAt m =? 0 then t else UpdatedAt m;
     DeletedAt := DeletedAt m |}.

(** Saving one element of the [Charges] relation of the invoice [owner]:
    its foreign key is set to the owner's key; with a blank key it is
    inserted under the next key of the table; with a key of its own it
    overwrites the live row of that key, or is inserted under that key when
    there is none.  Returns the table, the sequence and the element as
    saved. *)
Definition save_charge (t : time_Time) (owner : Z)
           (st : list Charge * Z) (c : Charge) : (list Charge * Z) * Charge :=
  let (rows, seq) := st in
  let c := set_InvoiceID c owner in
  if Charge_ID c =? 0 then
    let c' := set_Charge_Model c (set_ID (stamp t (Charge_Model c)) (seq + 1)) in
    ((rows ++ [c'], seq + 1), c')
  else if existsb (fun r => visible (Charge_Model r) && (Charge_ID r =? Charge_ID c)) rows
  then
    let c' := set_Charge_Model c
                {| ID := Charge_ID c; CreatedAt := CreatedAt (Charge_Model c);
                   UpdatedAt := t; DeletedAt := DeletedAt (Charge_Model c) |} in
    ((map (fun r => if visible (Charge_Model r) && (Charge_ID r =? Charge_ID c)
                    then c' else r) rows, seq), c')
  else
    let c' := set_Charge_Model c (stamp t (Charge_Model c)) in
    ((rows ++ [c'], Z.max seq (Charge_ID c)), c').

Fixpoint save_charges (t : time_Time) (owner : Z) (st : list Charge * Z)
         (cs : list Charge) : (list Charge * Z) * list Charge :=
  match cs with
  | [] => (st, [])
  | c :: cs' =>
      let (st1, c') := save_charge t owner st c in
      let (st2, cs'') := save_charges t owner st1 cs' in
      (st2, c' :: cs'')
  end.

(** How a failing [db.Create] failed: [None] when it was refused, the
    [Charges] slice it leaves behind when it was cut short after the
    invoice row was inserted.  A store that refuses the next call as well is
    out of reach, and refused this one. *)
Definition create_cut (e : Env) (db : DB) : option (list Charge) :=
  if fails e (S (List.length (calls db))) then None
  else cut_short e (List.length (calls db)).

(** [db.Create(&i)]: the invoice row is inserted (under the next key of the
    table when [i]'s key is blank, under [i]'s own key otherwise, which
    fails when a row has it), then each of [i.Charges] is saved with the
    new invoice as its owner.  [i] comes back with the keys and timestamps
    filled in.  The call runs in a transaction: when it fails no row is
    written (the table's sequence is as it was, as with sqlite).  A call
    that is refused leaves [i] as it was; a call that is cut short while
    the charges are saved has already stamped [i] and written the new key
    into it, and they stay there. *)
Definition gorm_Create (e : Env) (db : DB) (i : Invoice) : DB * Invoice :=
  let db' := log_call (Create_Invoice i) db in
  if next_fails e db then
    match create_cut e db with
    | Some kept =>
        let id := if Invoice_ID i =? 0 then invoice_seq db + 1
                  else Invoice_ID i in
        (db', set_Charges
                (set_Invoice_Model i (set_ID (stamp (now e) (Invoice_Model i)) id))
                kept)
    | None => (db', i)
    end
  else if negb (Invoice_ID i =? 0)
          && existsb (fun r => Invoice_ID r =? Invoice_ID i) (invoices db)
  then (db', i)
  else
    let id := if Invoice_ID i =? 0 then invoice_seq db + 1 else Invoice_ID i in
    let m := set_ID (stamp (now e) (Invoice_Model i)) id in
    let '(cs, cseq, saved) :=
      save_charges (now e) id (charges db, charge_seq db) (Charges i) in
    (with_tables db' (invoices db ++ [set_Charges (set_Invoice_Model i m) []])
                 cs (Z.max (invoice_seq db) id) cseq,
     set_Charges (set_Invoice_Model i m) saved).

(** [db.Where("invoice_id = ?", id).Delete(Charge{})]: every live charge
    of that invoice is marked deleted. *)
Definition gorm_Delete_Charges (e : Env) (db : DB) (id : Z) : DB :=
  let db' := log_call (Delete_Charges id) db in
  if next_fails e db then db'
  else
    with_tables db' (invoices db)
      (map (fun c => if visible (Charge_Model c) && (InvoiceID c =? id)
                     then set_Charge_Model c
                            (set_DeletedAt (Charge_Model c) (Some (now e)))
                     else c) (charges db))
      (invoice_seq db) (charge_seq db).

(** [db.Delete(&i)]: the live invoice rows that match [i]'s key are marked
    deleted (see [key_matches] for a blank key). *)
Definition gorm_Delete_Invoice (e : Env) (db : DB) (i : Invoice) : DB :=
  let db' := log_call (Delete_Invoice i) db in
  if next_fails e db then db'
  else
    with_tables db'
      (map (fun r => if visible (Invoice_Model r)
                        && key_matches (Invoice_ID i) (Invoice_ID r)
                     then set_Invoice_Model r
                            (set_DeletedAt (Invoice_Model r) (Some (now e)))
                     else r) (invoices db))
      (charges db) (invoice_seq db) (charge_seq db).

(* ================================================================= *)
(** ** net/http: requests and the response writer *)

Definition Header : Type := list (gostring * gostring).

(** The bytes of a header name ([textproto]'s token table): letters,
    digits and [!#$%&'*+-.^_`|~]. *)
Definition validHeaderFieldByte (c : ascii) : bool :=
  let v := byte_val c in
  ((48 <=? v) && (v <=? 57)) || ((65 <=? v) && (v <=? 90))
  || ((97 <=? v) && (v <=? 122))
  || existsb (Ascii.eqb c) (list_ascii_of_string "!#$%&'*+-.^_`|~").

(** The loop of [canonicalMIMEHeaderKey]: a letter is made upper case at
    the start and after a [-], lower case elsewhere. *)
Fixpoint canonical_from (upper : bool) (s : gostring) : gostring :=
  match s with
  | [] => []
  | c :: s' =>
      let v := byte_val c in
      let c' := if upper && (97 <=? v) && (v <=? 122) then byte_of (v - 32)
                else if negb upper && (65 <=? v) && (v <=? 90)
                     then byte_of (v + 32)
                     else c in
      c' :: canonical_from (Ascii.eqb c' "-"%char) s'
  end.

(** [textproto.CanonicalMIMEHeaderKey]: [x-csrf-token] and [X-CSRF-Token]
    both become [X-Csrf-Token]; a name with a byte that no header name may
    hold is returned as it is. *)
Definition CanonicalMIMEHeaderKey (s : gostring) : gostring :=
  if forallb validHeaderFieldByte s then canonical_from true s else s.

Definition same_header (k1 k2 : gostring) : bool :=
  str_eqb (CanonicalMIMEHeaderKey k1) (CanonicalMIMEHeaderKey k2).

(** [Header.Get]: the first value filed under the canonical form of the
    name, or the empty string.  The headers of a request are listed as
    they were sent; the server files each under the canonical form of its
    name. *)
Definition Header_Get (h : Header) (k : gostring) : gostring :=
  match find (fun kv => same_header (fst kv) k) h with
  | Some kv => snd kv
  | None => []
  end.

(** [Header.Add] and [Header.Set] file the value under the canonical
    form of the name. *)
Definition Header_Add (h : Header) (k v : gostring) : Header :=
  h ++ [(CanonicalMIMEHeaderKey k, v)].

(** The names under which the headers of a request are filed. *)
Definition header_names (h : Header) : list gostring :=
  map (fun kv => CanonicalMIMEHeaderKey (fst kv)) h.

Definition Header_Set (h : Header) (k v : gostring) : Header :=
  filter (fun kv => negb (same_header (fst kv) k)) h
  ++ [(CanonicalMIMEHeaderKey k, v)].

(** A request: the headers as they were sent, the router's [{id}]
    variable (which the routes restrict to [[0-9]+]) and what
    [ioutil.ReadAll(r.Body)] gives, the body or an error text. *)
Record Request := {
  req_Header : Header;
  Vars_id : gostring;
  Body : gostring + gostring
}.

(** What has been written to the [http.ResponseWriter]; [w_status = 0]
    while no status line has been written. *)
Record ResponseWriter := {
  w_Header : Header;
  w_status : Z;
  w_body : gostring
}.

Definition new_writer : ResponseWriter :=
  {| w_Header := []; w_status := 0; w_body := [] |}.

Definition map_Header (f : Header -> Header) (w : ResponseWriter)
  : ResponseWriter :=
  {| w_Header := f (w_Header w); w_status := w_status w; w_body := w_body w |}.

(** [w.WriteHeader(code)]; a second call changes nothing. *)
Definition WriteHeader (w : ResponseWriter) (code : Z) : ResponseWriter :=
  {| w_Header := w_Header w;
     w_status := if w_status w =? 0 then code else w_status w;
     w_body := w_body w |}.

(** [w.Write(data)]; the status is 200 when none was written before. *)
Definition Write (w : ResponseWriter) (data : gostring) : ResponseWriter :=
  {| w_Header := w_Header w;
     w_status := if w_status w =? 0 then 200 else w_status w;
     w_body := w_body w ++ data |}.

(** How a handler ends: it returns, or it panics (the server then drops
    the connection and no response is sent). *)
Inductive Outcome :=
| Done (w : ResponseWriter)
| Panic.

(** Modelled from the spec: [httpError] is defined in a file of the
    repository other than [main.go]; the handlers call it with a status
    code and a formatted message.  The spec has every failure "surfaced to
    the caller with a human-readable plain-text message" under the status
    of its kind, so it writes the status and the message. *)
Definition httpError (w : ResponseWriter) (code : Z) (msg : gostring)
  : ResponseWriter :=
  Write (WriteHeader w code) msg.

(* ================================================================= *)
(** ** The CSRF token *)

(** [var CSRFKey []byte]: no statement of the program assigns it, so it
    keeps the zero value of its type, the nil slice. *)
Definition CSRFKey : gostring := [].

(** [rand.Read(msg)] on a fresh [make([]byte, n)]. *)
Definition rand_Read (e : Env) (n : nat) : gostring :=
  firstn n (random e ++ repeat (byte_of 0) n).

Definition checkCSRFToken (token : gostring) : bool :=
  let tokenParts := strings_Split token "$"%string in
  if negb (List.length tokenParts =? 2)%nat then false
  else
    let msg := fst (base64_DecodeString (nth 0 tokenParts [])) in
    let messageMAC := fst (base64_DecodeString (nth 1 tokenParts [])) in
    let expectedMAC := hmac_sha256 CSRFKey msg in
    hmac_Equal messageMAC expectedMAC.

Definition createCSRFToken (e : Env) : gostring :=
  let msg := rand_Read e 32 in
  base64_EncodeToString msg ++ "$"%string
  ++ base64_EncodeToString (hmac_sha256 CSRFKey msg).

(* ================================================================= *)
(** ** The index page and its authentication *)

Definition defaultUser : gostring := "samantha"%string.
Definition defaultPass : gostring := "1ns3cur3"%string.

(** Text written with ['] where the source has a double quote. *)
Definition quoted (s : string) : gostring :=
  map (fun c => if Ascii.eqb c "'"%char then dquote else c)
      (list_ascii_of_string s).

Definition requestBasicAuth (w : ResponseWriter) : ResponseWriter :=
  let w := map_Header (fun h => Header_Set h "WWW-Authenticate"%string
                                  (quoted "Basic realm='invoicer'")) w in
  let w := WriteHeader w 401 in
  Write w "please authenticate"%string.

Definition index_page (token : gostring) : gostring :=
  quoted "
<!DOCTYPE html>
<html>
    <head>
        <title>Invoicer Web</title>
        <script src='statics/jquery-1.12.4.min.js'></script>
        <script src='statics/invoicer-cli.js'></script>
        <link href='statics/style.css' rel='stylesheet'>
    </head>
    <body>
	<h1>Invoicer Web</h1>
        <p class='desc-invoice'></p>
        <div class='invoice-details'>
        </div>
        <h3>Request an invoice by ID</h3>
        <form id='invoiceGetter' method='GET'>
            <label>ID :</label>
            <input id='invoiceid' type='text' />
			<input type='hidden' name='CSRFToken' value='" ++ token ++ quoted "'/>
            <input type='submit' />
        </form>
        <form id='invoiceDeleter' method='DELETE'>
            <label>Delete this invoice</label>
            <input type='submit' />
        </form>
    </body>
</html>".

Definition getIndex (e : Env) (r : Request) : Outcome :=
  let auth := Header_Get (req_Header r) "Authorization"%string in
  if len auth <? 8 then Done (requestBasicAuth new_writer)
  else
    match slice auth 0 5 with
    | None => Panic
    | Some scheme =>
    if negb (str_eqb scheme "Basic"%string)
    then Done (requestBasicAuth new_writer)
    else
      match slice_from auth 6 with
      | None => Panic
      | Some encoded =>
      let (authbytes, err) := base64_DecodeString encoded in
      if err then Done (requestBasicAuth new_writer)
      else
        let authstr := authbytes in
        match slice authstr 0 (strings_Index authstr ":"%string) with
        | None => Panic
        | Some username =>
        match slice_from authstr (strings_Index authstr ":"%string + 1) with
        | None => Panic
        | Some password =>
        if negb (str_eqb username defaultUser)
           && negb (str_eqb password defaultPass)
        then Done (requestBasicAuth new_writer)
        else
          let w := map_Header
                     (fun h => Header_Add h "Content-Security-Policy"%string
                                 "default-src 'self';"%string) new_writer in
          let w := map_Header
                     (fun h => Header_Add h "X-Frame-Options"%string
                                 "SAMEORIGIN"%string) w in
          Done (Write w (index_page (createCSRFToken e)))
        end
        end
      end
    end.

(* ================================================================= *)
(** ** The invoice handlers *)

(** The routes admit only digits for [{id}]; for these [strconv.Atoi]
    gives a number from [0] to the largest [int], on which [uint(id)] is
    [id], and it is written so. *)
Definition deleteInvoice (e : Env) (db : DB) (r : Request) : Outcome * DB :=
  if negb (checkCSRFToken (Header_Get (req_Header r) "X-CSRF-Token"%string))
  then
    let w := WriteHeader new_writer 406 in
    (Done (Write w "Invalid CSRF Token"%string), db)
  else
    let id := fst (strconv_Atoi (Vars_id r)) in
    let db := gorm_Delete_Charges e db id in
    let i1 := set_Invoice_Model zero_Invoice (set_ID zero_Model id) in
    let db := gorm_Delete_Invoice e db i1 in
    let w := WriteHeader new_writer 202 in
    (Done (Write w ("deleted invoice "%string ++ itoa (Invoice_ID i1))), db).

Definition escape_charge (c : Charge) : Charge :=
  {| Charge_Model := Charge_Model c; InvoiceID := InvoiceID c;
     Charge_Type := html_EscapeString (Charge_Type c);
     Charge_Amount := Charge_Amount c;
     Description := html_EscapeString (Description c) |}.

(** What a charge says apart from its keys and timestamps. *)
Definition charge_payload (c : Charge) : gostring * float * gostring :=
  (Charge_Type c, Charge_Amount c, Description c).

(** No raw angle bracket in a string. *)
Definition no_angle (s : gostring) : Prop :=
  ~ In "<"%char s /\ ~ In ">"%char s.

(** [i1.Charges[i].ID = 0; i1.Charges[i].InvoiceID = 0] *)
Definition reset_charge (c : Charge) : Charge :=
  set_InvoiceID (set_Charge_Model c (set_ID (Charge_Model c) 0)) 0.

(** The loop of [postInvoice] together with [i1.ID = 0]. *)
Definition reset_ids (i : Invoice) : Invoice :=
  set_Charges (set_Invoice_Model i (set_ID (Invoice_Model i) 0))
              (map reset_charge (Charges i)).

Section Handlers.

(** [json.Unmarshal(body, &i1)]: the struct with the body's fields
    written over it, or an error text. *)
Variable json_Unmarshal : gostring -> Invoice -> Invoice + gostring.

(** [json.Marshal(i1)]: the encoding or an error text. *)
Variable json_Marshal : Invoice -> gostring + gostring.

(** What a successful [db.Save(&i1)] does to the tables and to [i1],
    given the time. *)
Variable save_rows : time_Time -> DB -> Invoice -> DB * Invoice.

Definition gorm_Save (e : Env) (db : DB) (i : Invoice) : DB * Invoice :=
  let db' := log_call (Save_Invoice i) db in
  if next_fails e db then (db', i) else save_rows (now e) db' i.

Definition getInvoice (e : Env) (db : DB) (r : Request) : Outcome * DB :=
  let i1 := zero_Invoice in
  let id := fst (strconv_Atoi (Vars_id r)) in
  let (db, i1) := gorm_First e db i1 id in
  if Invoice_ID i1 =? 0 then
    (Done (httpError new_writer 404
                     ("No invoice id "%string ++ Vars_id r)), db)
  else
    let (db, cs) := gorm_Find_Charges e db (Charges i1) (Invoice_ID i1) in
    let i1 := set_Charges i1 (map escape_charge cs) in
    match json_Marshal i1 with
    | inr err =>
        (Done (httpError new_writer 500
                 ("failed to retrieve invoice id %!d(string="%string
                  ++ Vars_id r ++ "): "%string ++ err)), db)
    | inl jsonInvoice =>
        let w := map_Header
                   (fun h => Header_Add h "Content-Type"%string
                               "application/json"%string) new_writer in
        let w := map_Header
                   (fun h => Header_Add h "Access-Control-Allow-Origin"%string
                               "*"%string) w in
        let w := WriteHeader w 200 in
        (Done (Write w jsonInvoice), db)
    end.

Definition postInvoice (e : Env) (db : DB) (r : Request) : Outcome * DB :=
  match Body r with
  | inr err =>
      (Done (httpError new_writer 400
               ("failed to read request body: "%string ++ err)), db)
  | inl body =>
      match json_Unmarshal body zero_Invoice with
      | inr err =>
          (Done (httpError new_writer 400
                   ("failed to parse request body: "%string ++ err)), db)
      | inl i1 =>
          let i1 := reset_ids i1 in
          let (db, i1) := gorm_Create e db i1 in
          let (db, i1) := gorm_Last e db i1 in
          let w := WriteHeader new_writer 201 in
          (Done (Write w ("created invoice "%string ++ itoa (Invoice_ID i1))),
           db)
      end
  end.

Definition putInvoice (e : Env) (db : DB) (r : Request) : Outcome * DB :=
  let id := digits_value (Vars_id r) 0 in
  let (db, i1) := gorm_First e db zero_Invoice id in
  if Invoice_ID i1 =? 0 then
    (Done (httpError new_writer 404
                     ("No invoice id "%string ++ Vars_id r)), db)
  else
    match Body r with
    | inr err =>
        (Done (httpError new_writer 400
                 ("failed to read request body: "%string ++ err)), db)
    | inl body =>
        match json_Unmarshal body i1 with
        | inr err =>
            (Done (httpError new_writer 400
                     ("failed to parse request body: "%string ++ err)), db)
        | inl i1 =>
            let (db, i1) := gorm_Save e db i1 in
            let (db, i1) := gorm_First e db i1 id in
            let w := WriteHeader new_writer 202 in
            (Done (Write w ("updated invoice "%string
                            ++ itoa (Invoice_ID i1))), db)
        end
    end.

End Handlers.

(* ================================================================= *)
(** ** Sample inputs *)

(** An environment whose clock reads zero, whose random source is
    exhausted and in which no store call fails. *)
Definition env0 : Env :=
  {| now := 0; random := []; fails := fun _ => false;
     cut_short := fun _ => None |}.

(** A request that carries one [Authorization] header. *)
Definition request_with_auth (v : string) : Request :=
  {| req_Header := [(list_ascii_of_string "Authorization",
                     list_ascii_of_string v)];
     Vars_id := []; Body := inl [] |}.

(** A store with two invoices; the first has two charges whose text holds
    markup, and one charge of it is already deleted. *)
Definition charge1 : Charge :=
  {| Charge_Model := {| ID := 1; CreatedAt := 5; UpdatedAt := 5;
                        DeletedAt := None |};
     InvoiceID := 1; Charge_Type := "<b>fee</b>"%string;
     Charge_Amount := 5%float;
     Description := "<script>x</script>"%string |}.

Definition charge2 : Charge :=
  {| Charge_Model := {| ID := 2; CreatedAt := 5; UpdatedAt := 5;
                        DeletedAt := None |};
     InvoiceID := 1; Charge_Type := "tax"%string; Charge_Amount := 1.5%float;
     Description := "a > b"%string |}.

Definition charge3 : Charge :=
  {| Charge_Model := {| ID := 3; CreatedAt := 6; UpdatedAt := 6;
                        DeletedAt := Some 7 |};
     InvoiceID := 1; Charge_Type := "void"%string; Charge_Amount := 0%float;
     Description := []  |}.

Definition invoice1 : Invoice :=
  {| Invoice_Model := {| ID := 1; CreatedAt := 5; UpdatedAt := 5;
                         DeletedAt := None |};
     IsPaid := false; Invoice_Amount := 500; PaymentDate := 0; DueDate := 9;
     Charges := [] |}.

Definition invoice2 : Invoice :=
  {| Invoice_Model := {| ID := 2; CreatedAt := 8; UpdatedAt := 8;
                         DeletedAt := None |};
     IsPaid := true; Invoice_Amount := 20; PaymentDate := 8; DueDate := 9;
     Charges := [] |}.

Definition store1 : DB :=
  {| invoices := [invoice1; invoice2]; charges := [charge1; charge2; charge3];
     invoice_seq := 2; charge_seq := 3; calls := [] |}.

(** An environment in which the store cannot be reached: every call on it
    fails. *)
Definition env_down : Env :=
  {| now := 0; random := []; fails := fun _ => true;
     cut_short := fun _ => None |}.

(** An environment in which the store refuses one call, the one at
    position [k], and answers the others. *)
Definition env_refusing (k : nat) : Env :=
  {| now := 0; random := []; fails := fun n => Nat.eqb n k;
     cut_short := fun _ => None |}.

(** An environment in which the first call on the store, when it is a
    [db.Create], fails while its charges are saved and leaves none of them
    in the struct; the other calls are answered. *)
Definition env_cut_short : Env :=
  {| now := 0; random := []; fails := fun n => Nat.eqb n 0;
     cut_short := fun n => if Nat.eqb n 0 then Some [] else None |}.

(** The token [createCSRFToken] returns in [env0]. *)
Definition token0 : string :=
  "AAAAAAAAAAAAAAAAAAAAAAAAAAAAAAAAAAAAAAAAAAA=$M60KHGB+wDsJ5s2Yk2gM4hCt8wCqHyZg4bIuEPFw+So=".

Definition sample_request (id token body : string) : Request :=
  {| req_Header := [(list_ascii_of_string "X-CSRF-Token",
                     list_ascii_of_string token)];
     Vars_id := list_ascii_of_string id;
     Body := inl (list_ascii_of_string body) |}.

(** A token whose second part is not the MAC of the first. *)
Definition token_bad : string :=
  "AAAAAAAAAAAAAAAAAAAAAAAAAAAAAAAAAAAAAAAAAAA=$AAAAAAAAAAAAAAAAAAAAAAAAAAAAAAAAAAAAAAAAAAA=".

(** A delete request that sends its token under the header name [name]. *)
Definition request_with_token (name id token : string) : Request :=
  {| req_Header := [(list_ascii_of_string name, list_ascii_of_string token)];
     Vars_id := list_ascii_of_string id;
     Body := inl [] |}.

(** A decoder for the sample requests.  It knows one body, the empty
    object [{}], which leaves the struct as it is (as [encoding/json]
    does), and refuses the rest. *)
Definition json_Unmarshal_braces (body : gostring) (i : Invoice)
  : Invoice + gostring :=
  if str_eqb body "{}"%string then inl i
  else inr (list_ascii_of_string "unexpected end of JSON input").

(** A create body in which the client names keys of its own: [ID] 7 for
    the invoice, [ID] 9 and [invoice_id] 1 (an invoice of [store1]) for its
    charge, whose texts hold markup. *)
Definition body_with_ids : gostring :=
  quoted "{'ID':7,'is_paid':true,'amount':500,'charges':[{'ID':9,'invoice_id':1,'type':'<b>fee</b>','amount':5,'description':'a > b'}]}".

Definition charge_with_ids : Charge :=
  {| Charge_Model := {| ID := 9; CreatedAt := 0; UpdatedAt := 0;
                        DeletedAt := None |};
     InvoiceID := 1; Charge_Type := "<b>fee</b>"%string;
     Charge_Amount := 5%float; Description := "a > b"%string |}.

(** What [body_with_ids] parses to, over the zero value. *)
Definition invoice_with_ids : Invoice :=
  {| Invoice_Model := {| ID := 7; CreatedAt := 0; UpdatedAt := 0;
                         DeletedAt := None |};
     IsPaid := true; Invoice_Amount := 500; PaymentDate := 0; DueDate := 0;
     Charges := [charge_with_ids] |}.

(** A decoder that knows two bodies: [{}], which leaves the struct as it
    is, and [body_with_ids], which writes its five fields over the struct
    (the promoted [ID] of [gorm.Model] among them); it refuses the rest. *)
Definition json_Unmarshal_sample (body : gostring) (i : Invoice)
  : Invoice + gostring :=
  if str_eqb body "{}"%string then inl i
  else if str_eqb body body_with_ids then
    inl {| Invoice_Model := set_ID (Invoice_Model i) 7;
           IsPaid := true; Invoice_Amount := 500;
           PaymentDate := PaymentDate i; DueDate := DueDate i;
           Charges := [charge_with_ids] |}
  else inr (list_ascii_of_string "unexpected end of JSON input").

(** A create request. *)
Definition request_post (body : gostring) : Request :=
  {| req_Header := []; Vars_id := []; Body := inl body |}.

(** An encoder for the sample runs: the key, the amount and the state of
    the invoice, then for each charge its owner and its texts. *)
Definition json_Marshal_fields (i : Invoice) : gostring + gostring :=
  inl ("invoice "%string ++ itoa (Invoice_ID i)
       ++ " amount "%string ++ itoa (Invoice_Amount i)
       ++ (if IsPaid i then " paid:"%string else " unpaid:"%string)
       ++ flat_map (fun c => " charge of "%string ++ itoa (InvoiceID c)
                             ++ " "%string ++ Charge_Type c ++ "|"%string
                             ++ Description c ++ ";"%string) (Charges i)).

(** An encoder for the sample runs: the texts of the charges, in order. *)
Definition json_Marshal_texts (i : Invoice) : gostring + gostring :=
  inl (flat_map (fun c => Charge_Type c ++ "|"%string ++ Description c
                          ++ ";"%string) (Charges i)).

(** A [Save] that writes nothing. *)
Definition save_rows_none (t : time_Time) (db : DB) (i : Invoice)
  : DB * Invoice := (db, i).

(** What a handler that returned has written. *)
Definition written (o : Outcome) : ResponseWriter :=
  match o with
  | Done w => w
  | Panic => new_writer
  end.

(* ================================================================= *)
(** ** The routes of [main] *)

(** The functions [main] registers. *)
Inductive Handler :=
| H_getIndex
| H_getHeartbeat
| H_getInvoice
| H_postInvoice
| H_putInvoice
| H_deleteInvoice
| H_getVersion
| H_statics.

(** The two variable patterns of the templates: [{id:[0-9]+}] and a
    variable without a pattern, for which mux takes [[^/]+]. *)
Inductive VarPattern :=
| Digits
| Segment.

(** A route: every template of [main] is a literal text followed by at
    most one variable, which ends the template. *)
Record Route := {
  r_prefix : gostring;
  r_var : option VarPattern;
  r_method : gostring;
  r_handler : Handler
}.

(** The routes in the order [main] registers them. *)
Definition routes : list Route :=
  [ {| r_prefix := "/"%string; r_var := None;
       r_method := "GET"%string; r_handler := H_getIndex |};
    {| r_prefix := "/__heartbeat__"%string; r_var := None;
       r_method := "GET"%string; r_handler := H_getHeartbeat |};
    {| r_prefix := "/invoice/"%string; r_var := Some Digits;
       r_method := "GET"%string; r_handler := H_getInvoice |};
    {| r_prefix := "/invoice"%string; r_var := None;
       r_method := "POST"%string; r_handler := H_postInvoice |};
    {| r_prefix := "/invoice/"%string; r_var := Some Digits;
       r_method := "PUT"%string; r_handler := H_putInvoice |};
    {| r_prefix := "/invoice/"%string; r_var := Some Digits;
       r_method := "DELETE"%string; r_handler := H_deleteInvoice |};
    {| r_prefix := "/invoice/delete/"%string; r_var := Some Digits;
       r_method := "GET"%string; r_handler := H_deleteInvoice |};
    {| r_prefix := "/__version__"%string; r_var := None;
       r_method := "GET"%string; r_handler := H_getVersion |};
    {| r_prefix := "/statics/"%string; r_var := Some Segment;
       r_method := "GET"%string; r_handler := H_statics |} ].

Fixpoint strip_prefix (p s : gostring) : option gostring :=
  match p, s with
  | [], _ => Some s
  | x :: p', y :: s' => if Ascii.eqb x y then strip_prefix p' s' else None
  | _ :: _, [] => None
  end.

(** A variable matches a non-empty text of its pattern's characters. *)
Definition match_var (v : VarPattern) (s : gostring) : bool :=
  match s with
  | [] => false
  | _ =>
      match v with
      | Digits => forallb is_digit s
      | Segment => forallb (fun c => negb (Ascii.eqb c "/"%char)) s
      end
  end.

(** The template against the whole path (mux anchors the expression at
    both ends): the value of the variable, the empty text for a template
    without one. *)
Definition match_path (rt : Route) (path : gostring) : option gostring :=
  match strip_prefix (r_prefix rt) path with
  | None => None
  | Some rest =>
      match r_var rt with
      | None => match rest with [] => Some [] | _ => None end
      | Some v => if match_var v rest then Some rest else None
      end
  end.

(** The router: the first route, in registration order, whose template
    and method both match; a route whose template matches under another
    method is passed over.  The path is the cleaned path the router matches
    on. *)
Fixpoint dispatch_in (rs : list Route) (method path : gostring)
  : option (Handler * gostring) :=
  match rs with
  | [] => None
  | rt :: rs' =>
      match match_path rt path with
      | Some v =>
          if str_eqb (r_method rt) method then Some (r_handler rt, v)
          else dispatch_in rs' method path
      | None => dispatch_in rs' method path
      end
  end.

Definition dispatch (method path : gostring) : option (Handler * gostring) :=
  dispatch_in routes method path.

(* ================================================================= *)
(** ** Well-keyed stores *)

(** The keys of a store that only ever handed out keys from its
    sequences: in each table they are distinct, positive and not above the
    table's sequence, and no charge points above the invoice sequence. *)
Definition keys_ok (db : DB) : Prop :=
  NoDup (map Invoice_ID (invoices db)) /\
  Forall (fun r => 0 < Invoice_ID r <= invoice_seq db) (invoices db) /\
  NoDup (map Charge_ID (charges db)) /\
  Forall (fun c => 0 < Charge_ID c <= charge_seq db
                   /\ InvoiceID c <= invoice_seq db) (charges db) /\
  0 <= invoice_seq db /\ 0 <= charge_seq db.

(** A charge as the store sends it back in a response. *)
Definition live_charge (c : Charge) : bool := visible (Charge_Model c).

(** No byte of [s] is one that markup gives a meaning to. *)
Definition no_markup (s : gostring) : bool :=
  forallb (fun c => negb (is_markup c)) s.

(** [out] is the charge [c] with its two texts escaped: the key, the
    timestamps, the owner and the amount are those of [c]; each text is
    that of [c] with the five special bytes replaced by their entities,
    so it holds none of [<], [>], ['] and the double quote, and reads back
    as the text of [c]. *)
Definition escaped_copy (c out : Charge) : Prop :=
  Charge_Model out = Charge_Model c /\
  InvoiceID out = InvoiceID c /\
  Charge_Amount out = Charge_Amount c /\
  Charge_Type out = html_EscapeString (Charge_Type c) /\
  Description out = html_EscapeString (Description c) /\
  no_markup (Charge_Type out) = true /\
  no_markup (Description out) = true /\
  html_unescape (Charge_Type out) = Charge_Type c /\
  html_unescape (Description out) = Description c.

(** The response of [getInvoice] for an encoding [js]. *)
Definition json_response (js : gostring) : ResponseWriter :=
  {| w_Header := [(list_ascii_of_string "Content-Type",
                   list_ascii_of_string "application/json");
                  (list_ascii_of_string "Access-Control-Allow-Origin",
                   list_ascii_of_string "*")];
     w_status := 200; w_body := js |}.

(** The challenge [requestBasicAuth] writes; [Header().Set] files it
    under the canonical form of [WWW-Authenticate]. *)
Definition challenge : ResponseWriter :=
  {| w_Header := [(list_ascii_of_string "Www-Authenticate",
                   quoted "Basic realm='invoicer'")];
     w_status := 401; w_body := list_ascii_of_string "please authenticate" |}.

(** The rows an insertion of charges with blank keys appends: each is
    owned by [owner], stamped, and keyed with the next key after [seq]. *)
Fixpoint fresh_charges (t : time_Time) (owner seq : Z) (cs : list Charge)
  : list Charge :=
  match cs with
  | [] => []
  | c :: cs' =>
      set_Charge_Model (set_InvoiceID c owner)
                       (set_ID (stamp t (Charge_Model c)) (seq + 1))
      :: fresh_charges t owner (seq + 1) cs'
  end.

(** The invoice row an insertion writes for [i] under the key [id]. *)
Definition created_row (t : time_Time) (id : Z) (i : Invoice) : Invoice :=
  set_Charges (set_Invoice_Model i (set_ID (stamp t (Invoice_Model i)) id)) [].

(* ================================================================= *)
(** * Properties *)

(** ** Bytes and strings *)

Lemma str_eqb_refl (a : gostring) : str_eqb a a = true.
Proof.
  induction a as [|x a IH]; simpl; [reflexivity|].
  now rewrite Ascii.eqb_refl.
Qed.

Lemma str_eqb_eq (a b : gostring) : str_eqb a b = true <-> a = b.
Proof.
  split; [|intros ->; apply str_eqb_refl].
  revert b; induction a as [|x a IH]; intros [|y b]; simpl; try discriminate;
    [reflexivity|].
  intros H; apply andb_true_iff in H as [Hx Hab].
  apply Ascii.eqb_eq in Hx; subst; f_equal; auto.
Qed.

Lemma byte_val_range (c : ascii) : 0 <= byte_val c < 256.
Proof.
  unfold byte_val. pose proof (N_ascii_bounded c). lia.
Qed.

Lemma byte_of_val (c : ascii) : byte_of (byte_val c) = c.
Proof.
  unfold byte_of. pose proof (byte_val_range c).
  rewrite Z.mod_small by lia. unfold byte_val.
  rewrite N2Z.id. apply ascii_N_embedding.
Qed.

Lemma len_app (a b : gostring) : len (a ++ b) = len a + len b.
Proof. unfold len. rewrite length_app. lia. Qed.

Lemma len_nonneg (a : gostring) : 0 <= len a.
Proof. unfold len. lia. Qed.

(** A list can be consumed three elements at a time. *)
Lemma list_ind3 {A} (P : list A -> Prop) :
  P [] -> (forall a, P [a]) -> (forall a b, P [a; b]) ->
  (forall a b c l, P l -> P (a :: b :: c :: l)) ->
  forall l, P l.
Proof.
  intros H0 H1 H2 H3 l.
  assert (G : P l /\ (forall a, P (a :: l)) /\ (forall a b, P (a :: b :: l))).
  { induction l as [|x l (Ha & Hb & Hc)]; auto. }
  apply G.
Qed.

(** ** base64: decoding undoes encoding *)

Lemma lor_shiftl_add (hi lo n : Z) :
  0 <= n -> 0 <= lo < 2 ^ n -> Z.lor (Z.shiftl hi n) lo = hi * 2 ^ n + lo.
Proof.
  intros Hn Hlo.
  rewrite <- Z.shiftl_mul_pow2 by lia.
  assert (Hd : Z.land (Z.shiftl hi n) lo = 0).
  { apply Z.bits_inj'; intros k Hk.
    rewrite Z.land_spec, Z.bits_0.
    destruct (Z.ltb_spec k n).
    - rewrite Z.shiftl_spec_low by lia. reflexivity.
    - destruct (Z.eqb_spec lo 0) as [->|Hne];
        [now rewrite Z.bits_0, andb_false_r|].
      rewrite (Z.bits_above_log2 lo k), andb_false_r; [reflexivity|lia|].
      apply Z.log2_lt_pow2; [lia|].
      apply Z.lt_le_trans with (2 ^ n); [lia|].
      apply Z.pow_le_mono_r; lia. }
  rewrite <- Z.lxor_lor by exact Hd.
  symmetry; apply Z.add_nocarry_lxor; exact Hd.
Qed.

Lemma land_63 (x : Z) : Z.land x 63 = x mod 64.
Proof. change 63 with (Z.ones 6). rewrite Z.land_ones by lia. reflexivity. Qed.

Lemma sextet_range (val k : Z) : 0 <= sextet val k < 64.
Proof. unfold sextet. rewrite land_63. apply Z.mod_pos_bound. lia. Qed.

Lemma sextet_div (val k : Z) : 0 <= k -> sextet val k = (val / 2 ^ k) mod 64.
Proof.
  intros Hk. unfold sextet. rewrite land_63, Z.shiftr_div_pow2 by lia.
  reflexivity.
Qed.

(** The four six-bit values of a 24-bit group put the group together
    again. *)
Lemma regroup (val : Z) :
  0 <= val < 2 ^ 24 ->
  Z.lor (Z.lor (Z.lor (Z.shiftl (sextet val 18) 18) (Z.shiftl (sextet val 12) 12))
               (Z.shiftl (sextet val 6) 6)) (sextet val 0) = val.
Proof.
  intros Hv.
  pose proof (sextet_range val 18). pose proof (sextet_range val 12).
  pose proof (sextet_range val 6). pose proof (sextet_range val 0).
  assert (E12 : Z.shiftl (sextet val 12) 12 = sextet val 12 * 2 ^ 12)
    by (apply Z.shiftl_mul_pow2; lia).
  assert (E6 : Z.shiftl (sextet val 6) 6 = sextet val 6 * 2 ^ 6)
    by (apply Z.shiftl_mul_pow2; lia).
  rewrite E12, (lor_shiftl_add (sextet val 18) _ 18) by lia.
  rewrite E6.
  replace (sextet val 18 * 2 ^ 18 + sextet val 12 * 2 ^ 12)
    with ((sextet val 18 * 2 ^ 6 + sextet val 12) * 2 ^ 12) by lia.
  rewrite <- (Z.shiftl_mul_pow2 _ 12) by lia.
  rewrite (lor_shiftl_add _ _ 12) by lia.
  replace ((sextet val 18 * 2 ^ 6 + sextet val 12) * 2 ^ 12 + sextet val 6 * 2 ^ 6)
    with (((sextet val 18 * 2 ^ 6 + sextet val 12) * 2 ^ 6 + sextet val 6) * 2 ^ 6)
    by lia.
  rewrite <- (Z.shiftl_mul_pow2 _ 6) by lia.
  rewrite (lor_shiftl_add _ _ 6) by lia.
  rewrite !sextet_div by lia.
  change (2 ^ 0) with 1. rewrite Z.div_1_r.
  change (2 ^ 18) with 262144. change (2 ^ 12) with 4096.
  change (2 ^ 6) with 64. change (2 ^ 24) with 16777216 in Hv.
  Z.to_euclidean_division_equations. lia.
Qed.

Lemma alphabet_table : forallb alphabet_ok (seq 0 64) = true.
Proof. vm_compute. reflexivity. Qed.

Lemma enc_char_facts (v : Z) :
  decodeMap (enc_char v) = Some (Z.land v 63) /\ enc_char v <> "$"%char.
Proof.
  unfold enc_char.
  assert (Hr : 0 <= Z.land v 63 < 64)
    by (rewrite land_63; apply Z.mod_pos_bound; lia).
  pose proof alphabet_table as T. rewrite forallb_forall in T.
  specialize (T (Z.to_nat (Z.land v 63))).
  assert (Hin : In (Z.to_nat (Z.land v 63)) (seq 0 64)) by (apply in_seq; lia).
  apply T in Hin. unfold alphabet_ok in Hin.
  destruct (decodeMap _) as [x|]; [|discriminate].
  apply andb_true_iff in Hin as [Hx Hd].
  apply Z.eqb_eq in Hx. rewrite Z2Nat.id in Hx by lia. subst x.
  split; [reflexivity|].
  intros E. rewrite E in Hd. discriminate.
Qed.

Lemma decodeMap_enc (val k : Z) :
  decodeMap (enc_char (Z.shiftr val k)) = Some (sextet val k).
Proof. apply enc_char_facts. Qed.

Lemma decodeMap_enc0 (val : Z) : decodeMap (enc_char val) = Some (sextet val 0).
Proof. unfold sextet. rewrite Z.shiftr_0_r. apply enc_char_facts. Qed.

(** The 24-bit group of three bytes. *)
Lemma group_value (a b c : ascii) :
  Z.lor (Z.lor (Z.shiftl (byte_val a) 16) (Z.shiftl (byte_val b) 8)) (byte_val c)
  = byte_val a * 65536 + byte_val b * 256 + byte_val c.
Proof.
  pose proof (byte_val_range a). pose proof (byte_val_range b).
  pose proof (byte_val_range c).
  rewrite (Z.shiftl_mul_pow2 (byte_val b)) by lia.
  rewrite (lor_shiftl_add _ _ 16) by lia.
  replace (byte_val a * 2 ^ 16 + byte_val b * 2 ^ 8)
    with ((byte_val a * 2 ^ 8 + byte_val b) * 2 ^ 8) by lia.
  rewrite <- (Z.shiftl_mul_pow2 _ 8) by lia.
  rewrite (lor_shiftl_add _ _ 8) by lia. lia.
Qed.

Lemma byte_of_high (a b c : ascii) :
  byte_of (Z.shiftr (byte_val a * 65536 + byte_val b * 256 + byte_val c) 16) = a.
Proof.
  pose proof (byte_val_range a). pose proof (byte_val_range b).
  pose proof (byte_val_range c).
  rewrite Z.shiftr_div_pow2 by lia. change (2 ^ 16) with 65536.
  replace ((byte_val a * 65536 + byte_val b * 256 + byte_val c) / 65536)
    with (byte_val a) by (Z.to_euclidean_division_equations; lia).
  apply byte_of_val.
Qed.

Lemma byte_of_mid (a b c : ascii) :
  byte_of (Z.shiftr (byte_val a * 65536 + byte_val b * 256 + byte_val c) 8) = b.
Proof.
  pose proof (byte_val_range a). pose proof (byte_val_range b).
  pose proof (byte_val_range c).
  rewrite Z.shiftr_div_pow2 by lia. change (2 ^ 8) with 256.
  replace ((byte_val a * 65536 + byte_val b * 256 + byte_val c) / 256)
    with (byte_val a * 256 + byte_val b)
    by (Z.to_euclidean_division_equations; lia).
  rewrite <- (byte_of_val b) at 2. unfold byte_of. do 2 f_equal.
  Z.to_euclidean_division_equations; lia.
Qed.

Lemma byte_of_low (a b c : ascii) :
  byte_of (byte_val a * 65536 + byte_val b * 256 + byte_val c) = c.
Proof.
  pose proof (byte_val_range a). pose proof (byte_val_range b).
  pose proof (byte_val_range c).
  rewrite <- (byte_of_val c) at 2. unfold byte_of. do 2 f_equal.
  Z.to_euclidean_division_equations; lia.
Qed.


Lemma quantum_value (val s2 s3 : Z) :
  0 <= val < 2 ^ 24 -> s2 = sextet val 6 -> s3 = sextet val 0 ->
  Z.lor (Z.lor (Z.lor (Z.shiftl (sextet val 18) 18) (Z.shiftl (sextet val 12) 12))
               (Z.shiftl s2 6)) s3 = val.
Proof. intros Hv -> ->. now apply regroup. Qed.

Lemma group_range (a b c : ascii) :
  0 <= byte_val a * 65536 + byte_val b * 256 + byte_val c < 2 ^ 24.
Proof.
  pose proof (byte_val_range a). pose proof (byte_val_range b).
  pose proof (byte_val_range c). change (2 ^ 24) with 16777216. lia.
Qed.

Lemma quantum4 (a b c : ascii) :
  let val := Z.lor (Z.lor (Z.shiftl (byte_val a) 16) (Z.shiftl (byte_val b) 8))
                   (byte_val c) in
  quantum_bytes [sextet val 18; sextet val 12; sextet val 6; sextet val 0]
  = [a; b; c].
Proof.
  intros val. unfold quantum_bytes. cbn [nth List.length firstn Nat.sub].
  rewrite regroup; subst val; rewrite group_value; [|apply group_range].
  now rewrite byte_of_high, byte_of_mid, byte_of_low.
Qed.

Lemma quantum3 (a b : ascii) :
  let val := Z.lor (Z.shiftl (byte_val a) 16) (Z.shiftl (byte_val b) 8) in
  quantum_bytes [sextet val 18; sextet val 12; sextet val 6] = [a; b].
Proof.
  intros val.
  assert (Hval : val = byte_val a * 65536 + byte_val b * 256 + byte_val Ascii.zero).
  { subst val. rewrite <- group_value. change (byte_val Ascii.zero) with 0.
    now rewrite Z.lor_0_r. }
  unfold quantum_bytes. cbn [nth List.length firstn Nat.sub].
  rewrite (quantum_value val); rewrite Hval;
    [ now rewrite byte_of_high, byte_of_mid
    | apply group_range | reflexivity | ].
  rewrite sextet_div by lia. change (byte_val Ascii.zero) with 0.
  change (2 ^ 0) with 1. rewrite Z.div_1_r.
  pose proof (byte_val_range a). pose proof (byte_val_range b).
  Z.to_euclidean_division_equations; lia.
Qed.

Lemma quantum2 (a : ascii) :
  let val := Z.shiftl (byte_val a) 16 in
  quantum_bytes [sextet val 18; sextet val 12] = [a].
Proof.
  intros val.
  assert (Hval : val = byte_val a * 65536 + byte_val Ascii.zero * 256 + byte_val Ascii.zero).
  { subst val. rewrite <- group_value. change (byte_val Ascii.zero) with 0.
    now rewrite Z.shiftl_0_l, !Z.lor_0_r. }
  pose proof (byte_val_range a).
  unfold quantum_bytes. cbn [nth List.length firstn Nat.sub].
  rewrite (quantum_value val); rewrite Hval;
    [ now rewrite byte_of_high | apply group_range | | ];
    rewrite sextet_div by lia; change (byte_val Ascii.zero) with 0.
  - change (2 ^ 6) with 64. Z.to_euclidean_division_equations; lia.
  - change (2 ^ 0) with 1. rewrite Z.div_1_r.
    Z.to_euclidean_division_equations; lia.
Qed.

(** One step of the decoder on an alphabet character. *)
Lemma decode_value (c : ascii) (v : Z) rest dbuf out :
  decodeMap c = Some v ->
  base64_decode (c :: rest) dbuf out =
  if (List.length dbuf =? 3)%nat
  then base64_decode rest [] (out ++ quantum_bytes (dbuf ++ [v]))
  else base64_decode rest (dbuf ++ [v]) out.
Proof. intros H. cbn [base64_decode]. rewrite H. reflexivity. Qed.

Lemma decode_pad1 (s0 s1 s2 : Z) out :
  base64_decode [padChar] [s0; s1; s2] out
  = (out ++ quantum_bytes [s0; s1; s2], false).
Proof. reflexivity. Qed.

Lemma decode_pad2 (s0 s1 : Z) out :
  base64_decode [padChar; padChar] [s0; s1] out
  = (out ++ quantum_bytes [s0; s1], false).
Proof. reflexivity. Qed.

Lemma decode_encode_from (m out : gostring) :
  base64_decode (base64_EncodeToString m) [] out = (out ++ m, false).
Proof.
  revert out. induction m as [|a|a b|a b c m IH] using list_ind3; intros out.
  - cbn. now rewrite app_nil_r.
  - cbn [base64_EncodeToString].
    rewrite (decode_value _ _ _ _ _ (decodeMap_enc _ 18)); cbn [List.length Nat.eqb app].
    rewrite (decode_value _ _ _ _ _ (decodeMap_enc _ 12)); cbn [List.length Nat.eqb app].
    rewrite decode_pad2. now rewrite quantum2.
  - cbn [base64_EncodeToString].
    rewrite (decode_value _ _ _ _ _ (decodeMap_enc _ 18)); cbn [List.length Nat.eqb app].
    rewrite (decode_value _ _ _ _ _ (decodeMap_enc _ 12)); cbn [List.length Nat.eqb app].
    rewrite (decode_value _ _ _ _ _ (decodeMap_enc _ 6)); cbn [List.length Nat.eqb app].
    rewrite decode_pad1. now rewrite quantum3.
  - cbn [base64_EncodeToString].
    rewrite (decode_value _ _ _ _ _ (decodeMap_enc _ 18)); cbn [List.length Nat.eqb app].
    rewrite (decode_value _ _ _ _ _ (decodeMap_enc _ 12)); cbn [List.length Nat.eqb app].
    rewrite (decode_value _ _ _ _ _ (decodeMap_enc _ 6)); cbn [List.length Nat.eqb app].
    rewrite (decode_value _ _ _ _ _ (decodeMap_enc0 _)); cbn [List.length Nat.eqb app].
    rewrite quantum4, IH. now rewrite <- app_assoc.
Qed.

(** [DecodeString(EncodeToString(m))] is [m], without error. *)
Lemma base64_roundtrip (m : gostring) :
  base64_DecodeString (base64_EncodeToString m) = (m, false).
Proof. unfold base64_DecodeString. now rewrite decode_encode_from. Qed.

Lemma encode_no_dollar (m : gostring) :
  ~ In "$"%char (base64_EncodeToString m).
Proof.
  assert (P : padChar <> "$"%char) by discriminate.
  induction m as [|a|a b|a b c m IH] using list_ind3;
    cbn [base64_EncodeToString In]; intros H;
    repeat (destruct H as [H|H];
            [solve [ now apply (proj2 (enc_char_facts _)) in H
                   | now apply P in H ] |]);
    auto.
Qed.

Lemma encode_length (m : gostring) :
  m <> [] -> 4 <= len (base64_EncodeToString m).
Proof.
  destruct m as [|a [|b [|c m]]]; [congruence| | |]; intros _;
    cbn [base64_EncodeToString]; unfold len; cbn [List.length]; lia.
Qed.

(** ** strings.Split and strings.Index *)

Lemma split_byte_absent (sep : ascii) (s : gostring) :
  ~ In sep s -> split_byte sep s = [s].
Proof.
  induction s as [|c s IH]; [reflexivity|]; intros H; cbn [split_byte].
  destruct (Ascii.eqb_spec c sep) as [->|_]; [exfalso; apply H; now left|].
  rewrite IH; [reflexivity|]. intros Hin; apply H; now right.
Qed.

Lemma split_byte_once (sep : ascii) (a b : gostring) :
  ~ In sep a -> ~ In sep b -> split_byte sep (a ++ sep :: b) = [a; b].
Proof.
  intros Ha Hb. induction a as [|c a IH]; cbn [app split_byte].
  - rewrite Ascii.eqb_refl. now rewrite split_byte_absent.
  - destruct (Ascii.eqb_spec c sep) as [->|_]; [exfalso; apply Ha; now left|].
    rewrite IH; [reflexivity|]. intros Hin; apply Ha; now right.
Qed.

Lemma split_byte_nonempty (sep : ascii) (s : gostring) :
  split_byte sep s <> [].
Proof.
  destruct s as [|c s]; cbn [split_byte]; [discriminate|].
  destruct (Ascii.eqb c sep); [discriminate|].
  destruct (split_byte sep s); discriminate.
Qed.

Lemma split_byte_single (sep : ascii) (s p : gostring) :
  split_byte sep s = [p] -> s = p.
Proof.
  revert p. induction s as [|c s IH]; intros p; cbn [split_byte].
  - now intros [= <-].
  - destruct (Ascii.eqb c sep).
    + intros [= _ H]. now apply split_byte_nonempty in H.
    + destruct (split_byte sep s) as [|p' ps] eqn:E;
        [now apply split_byte_nonempty in E|].
      intros [= <- ->]. f_equal. now apply IH.
Qed.

Lemma split_byte_join (sep : ascii) (s p1 p2 : gostring) :
  split_byte sep s = [p1; p2] -> s = p1 ++ sep :: p2.
Proof.
  revert p1. induction s as [|c s IH]; intros p1; cbn [split_byte];
    [discriminate|].
  destruct (Ascii.eqb_spec c sep) as [->|_].
  - intros [= <- H]. apply split_byte_single in H. now subst.
  - destruct (split_byte sep s) as [|p ps] eqn:E; [discriminate|].
    intros [= <- ->]. cbn [app]. f_equal. now apply IH.
Qed.

(** ** The CSRF token *)

Lemma split_token (a b : gostring) :
  ~ In "$"%char a -> ~ In "$"%char b ->
  strings_Split (a ++ "$"%string ++ b) "$"%string = [a; b].
Proof. intros Ha Hb. cbn. now apply split_byte_once. Qed.

(** What [checkCSRFToken] computes: the decoding errors play no part. *)
Lemma checkCSRFToken_parts (token p1 p2 : gostring) :
  strings_Split token "$"%string = [p1; p2] ->
  checkCSRFToken token =
  hmac_Equal (fst (base64_DecodeString p2))
             (hmac_sha256 CSRFKey (fst (base64_DecodeString p1))).
Proof. intros H. unfold checkCSRFToken. rewrite H. reflexivity. Qed.

Lemma checkCSRFToken_not_two (token : gostring) :
  List.length (strings_Split token "$"%string) <> 2%nat ->
  checkCSRFToken token = false.
Proof.
  intros H. unfold checkCSRFToken.
  destruct (Nat.eqb_spec (List.length (strings_Split token "$"%string)) 2);
    [contradiction|reflexivity].
Qed.

(** A message with its MAC under [CSRFKey] is a token that verifies. *)
Lemma signed_message_verifies (m : gostring) :
  checkCSRFToken (base64_EncodeToString m ++ "$"%string
                  ++ base64_EncodeToString (hmac_sha256 CSRFKey m)) = true.
Proof.
  rewrite (checkCSRFToken_parts _ _ _
             (split_token _ _ (encode_no_dollar _) (encode_no_dollar _))).
  rewrite !base64_roundtrip. apply str_eqb_refl.
Qed.

Lemma rand_Read_length (e : Env) (n : nat) : List.length (rand_Read e n) = n.
Proof.
  unfold rand_Read. rewrite length_firstn, length_app, repeat_length. lia.
Qed.

(** C7: a token returned by [createCSRFToken] passes [checkCSRFToken],
    whatever bytes the random source delivered. *)
Theorem created_token_verifies (e : Env) :
  checkCSRFToken (createCSRFToken e) = true.
Proof. unfold createCSRFToken. apply signed_message_verifies. Qed.

(** C2: [CSRFKey] is the empty slice, both token functions compute their
    MAC under the empty key, and any 32-byte message followed by its MAC
    under the empty key is accepted: a valid token needs no secret. *)
Theorem empty_key_tokens_forgeable (m : gostring) :
  List.length m = 32%nat ->
  CSRFKey = [] /\
  (forall e, createCSRFToken e =
             base64_EncodeToString (rand_Read e 32) ++ "$"%string
             ++ base64_EncodeToString (hmac_sha256 [] (rand_Read e 32))) /\
  (forall token p1 p2,
      strings_Split token "$"%string = [p1; p2] ->
      checkCSRFToken token =
      hmac_Equal (fst (base64_DecodeString p2))
                 (hmac_sha256 [] (fst (base64_DecodeString p1)))) /\
  checkCSRFToken (base64_EncodeToString m ++ "$"%string
                  ++ base64_EncodeToString (hmac_sha256 [] m)) = true.
Proof.
  intros _. repeat split.
  - intros token p1 p2 H. apply (checkCSRFToken_parts _ _ _ H).
  - apply (signed_message_verifies m).
Qed.

Lemma empty_key_tokens_forgeable_witness :
  checkCSRFToken
    (base64_EncodeToString (repeat "a"%char 32) ++ "$"%string
     ++ base64_EncodeToString (hmac_sha256 [] (repeat "a"%char 32))) = true.
Proof.
  apply (empty_key_tokens_forgeable (repeat "a"%char 32)). reflexivity.
Defined.

(** C5, as the code has it: [checkCSRFToken] is false when the split on
    [$] does not give two parts, and otherwise true exactly when the bytes
    decoded from the second part are the HMAC-SHA256 under the process key
    of the bytes decoded from the first; each part contributes the bytes
    decoded before a decoding error, the error itself is dropped. *)
Theorem checkCSRFToken_iff (token : gostring) :
  (List.length (strings_Split token "$"%string) <> 2%nat ->
   checkCSRFToken token = false) /\
  (checkCSRFToken token = true <->
   exists p1 p2,
     strings_Split token "$"%string = [p1; p2] /\
     fst (base64_DecodeString p2)
     = hmac_sha256 CSRFKey (fst (base64_DecodeString p1))).
Proof.
  split; [apply checkCSRFToken_not_two|]. split.
  - intros H.
    destruct (strings_Split token "$"%string) as [|p1 [|p2 [|p3 ps]]] eqn:E;
      try (rewrite checkCSRFToken_not_two in H;
           [discriminate | rewrite E; cbn; lia]).
    exists p1, p2. split; [reflexivity|].
    rewrite (checkCSRFToken_parts _ _ _ E) in H. now apply str_eqb_eq in H.
  - intros (p1 & p2 & E & H).
    rewrite (checkCSRFToken_parts _ _ _ E). now apply str_eqb_eq.
Qed.

(** C5 as stated fails: the first part [!] does not decode, the second
    part of the other token ends in a stray [!], and both tokens are
    accepted. *)
Lemma checkCSRFToken_accepts_undecodable :
  snd (base64_DecodeString "!"%string) = true /\
  checkCSRFToken "!$thNnmggU2ex3L5XXeMNfxf8Wl8STcVZTxscSFEKSxa0="%string = true /\
  snd (base64_DecodeString
         "thNnmggU2ex3L5XXeMNfxf8Wl8STcVZTxscSFEKSxa0=!"%string) = true /\
  checkCSRFToken "$thNnmggU2ex3L5XXeMNfxf8Wl8STcVZTxscSFEKSxa0=!"%string = true.
Proof. vm_compute. repeat split. Qed.

(** ** The index page *)

(** [getIndex] once the header is a Basic credential that decodes. *)
Lemma getIndex_decoded (e : Env) (r : Request) (enc authstr : gostring) :
  let auth := Header_Get (req_Header r) "Authorization"%string in
  8 <= len auth ->
  slice auth 0 5 = Some (list_ascii_of_string "Basic") ->
  slice_from auth 6 = Some enc ->
  base64_DecodeString enc = (authstr, false) ->
  getIndex e r =
  match slice authstr 0 (strings_Index authstr ":"%string) with
  | None => Panic
  | Some username =>
      match slice_from authstr (strings_Index authstr ":"%string + 1) with
      | None => Panic
      | Some password =>
          if negb (str_eqb username defaultUser)
             && negb (str_eqb password defaultPass)
          then Done (requestBasicAuth new_writer)
          else Done (Write
                       (map_Header
                          (fun h => Header_Add h "X-Frame-Options"%string
                                      "SAMEORIGIN"%string)
                          (map_Header
                             (fun h => Header_Add h
                                         "Content-Security-Policy"%string
                                         "default-src 'self';"%string)
                             new_writer))
                       (index_page (createCSRFToken e)))
      end
  end.
Proof.
  intros auth Hlen Hscheme Henc Hdec. unfold getIndex. fold auth.
  destruct (Z.ltb_spec (len auth) 8); [lia|].
  rewrite Hscheme, Henc, Hdec. reflexivity.
Qed.

Lemma has_prefix_byte (c : ascii) (s : gostring) :
  has_prefix [c] s = true -> In c s.
Proof.
  destruct s as [|x s]; cbn; [discriminate|].
  rewrite andb_true_r. intros H. apply Ascii.eqb_eq in H. now left.
Qed.

Lemma strings_Index_absent (c : ascii) (s : gostring) :
  ~ In c s -> strings_Index s [c] = -1.
Proof.
  induction s as [|x s IH]; intros H; [reflexivity|].
  cbn [strings_Index].
  destruct (has_prefix [c] (x :: s)) eqn:E;
    [now apply has_prefix_byte in E|].
  rewrite IH; [reflexivity|]. intros Hin; apply H; now right.
Qed.

(** C3, what the code does: a Basic credential that decodes to a value
    without [:] makes [getIndex] panic on the slice [authstr[0:-1]]; no 401
    is written. *)
Theorem getIndex_no_separator_panics (e : Env) (r : Request)
        (enc authstr : gostring) :
  let auth := Header_Get (req_Header r) "Authorization"%string in
  8 <= len auth ->
  slice auth 0 5 = Some (list_ascii_of_string "Basic") ->
  slice_from auth 6 = Some enc ->
  base64_DecodeString enc = (authstr, false) ->
  ~ In ":"%char authstr ->
  getIndex e r = Panic.
Proof.
  intros auth Hlen Hscheme Henc Hdec Hsep.
  rewrite (getIndex_decoded e r enc authstr Hlen Hscheme Henc Hdec).
  change (list_ascii_of_string ":") with [":"%char].
  rewrite (strings_Index_absent _ _ Hsep). reflexivity.
Qed.

Ltac not_in_string :=
  let H := fresh in
  cbn; intros H; repeat (destruct H as [H|H]; [discriminate H|]); exact H.

Lemma getIndex_no_separator_panics_witness :
  getIndex env0 (request_with_auth "Basic c2FtYW50aGE=") = Panic.
Proof.
  apply (getIndex_no_separator_panics env0
           (request_with_auth "Basic c2FtYW50aGE=")
           (list_ascii_of_string "c2FtYW50aGE=")
           (list_ascii_of_string "samantha"));
    [ vm_compute; discriminate | reflexivity | reflexivity | reflexivity
    | not_in_string ].
Defined.

(** C1, what the code does at a wrong password: the credential
    [samantha:wrong] (the expected user, not the expected password) is
    not rejected; the index page is served with status 200. *)
Theorem getIndex_serves_wrong_password (e : Env) :
  exists w,
    getIndex e (request_with_auth "Basic c2FtYW50aGE6d3Jvbmc=") = Done w /\
    base64_DecodeString (list_ascii_of_string "c2FtYW50aGE6d3Jvbmc=")
    = (list_ascii_of_string "samantha:wrong", false) /\
    w_status w = 200 /\
    w_body w = index_page (createCSRFToken e).
Proof.
  eexists. split; [|split; [reflexivity|]].
  - rewrite (getIndex_decoded e _ (list_ascii_of_string "c2FtYW50aGE6d3Jvbmc=")
               (list_ascii_of_string "samantha:wrong"));
      [ reflexivity | vm_compute; discriminate | reflexivity | reflexivity
      | reflexivity ].
  - split; reflexivity.
Qed.

(** ** The store *)

Lemma calls_log_call (c : Call) (db : DB) :
  calls (log_call c db) = calls db ++ [c].
Proof. reflexivity. Qed.

Lemma next_fails_log_call (e : Env) (c : Call) (db : DB) :
  next_fails e (log_call c db) = fails e (S (List.length (calls db))).
Proof.
  unfold next_fails. rewrite calls_log_call, length_app. cbn [List.length].
  now rewrite Nat.add_1_r.
Qed.

Lemma fst_gorm_First (e : Env) (db : DB) (out : Invoice) (id : Z) :
  fst (gorm_First e db out id) = log_call (First_Invoice id) db.
Proof.
  unfold gorm_First. destruct (next_fails e db); [reflexivity|].
  now destruct (find _ _).
Qed.

Lemma fst_gorm_Last (e : Env) (db : DB) (out : Invoice) :
  fst (gorm_Last e db out) = log_call (Last_Invoice out) db.
Proof.
  unfold gorm_Last. destruct (next_fails e db); [reflexivity|].
  now destruct (fold_left _ _ _).
Qed.

Lemma fst_gorm_Find_Charges (e : Env) (db : DB) (out : list Charge) (id : Z) :
  fst (gorm_Find_Charges e db out id) = log_call (Find_Charges id) db.
Proof. unfold gorm_Find_Charges. now destruct (next_fails e db). Qed.




Lemma gorm_Create_refused (e : Env) (db : DB) (i : Invoice) :
  next_fails e db = true -> create_cut e db = None ->
  gorm_Create e db i = (log_call (Create_Invoice i) db, i).
Proof. intros H Hcut. unfold gorm_Create. now rewrite H, Hcut. Qed.

(** A [db.Create] that fails writes no row, however it fails. *)
Lemma gorm_Create_failed (e : Env) (db : DB) (i : Invoice) :
  next_fails e db = true ->
  fst (gorm_Create e db i) = log_call (Create_Invoice i) db.
Proof.
  intros H. unfold gorm_Create. rewrite H. now destruct (create_cut e db).
Qed.

Lemma calls_gorm_Delete_Charges (e : Env) (db : DB) (id : Z) :
  calls (gorm_Delete_Charges e db id) = calls db ++ [Delete_Charges id].
Proof. unfold gorm_Delete_Charges. now destruct (next_fails e db). Qed.

Lemma calls_gorm_Delete_Invoice (e : Env) (db : DB) (i : Invoice) :
  calls (gorm_Delete_Invoice e db i) = calls db ++ [Delete_Invoice i].
Proof. unfold gorm_Delete_Invoice. now destruct (next_fails e db). Qed.

(** After a delete of the charges of [id] that did not fail, no live
    charge of [id] is left. *)
Lemma deleted_charges_gone (e : Env) (db : DB) (id : Z) (c : Charge) :
  next_fails e db = false ->
  In c (charges (gorm_Delete_Charges e db id)) ->
  InvoiceID c = id -> visible (Charge_Model c) = false.
Proof.
  intros Hok Hin Hid. unfold gorm_Delete_Charges in Hin. rewrite Hok in Hin.
  cbn [charges with_tables] in Hin.
  apply in_map_iff in Hin as (c0 & <- & _).
  destruct (visible (Charge_Model c0)) eqn:Hv; cbn [andb] in *.
  - destruct (Z.eqb_spec (InvoiceID c0) id) as [_|Hne]; [reflexivity|].
    contradiction.
  - exact Hv.
Qed.

Lemma key_matches_same (id : Z) : key_matches id id = true.
Proof. unfold key_matches. rewrite Z.eqb_refl. apply orb_true_r. Qed.

(** After a delete of the invoice keyed [id] that did not fail, no live
    invoice has that key. *)
Lemma deleted_invoice_gone (e : Env) (db : DB) (i r : Invoice) :
  next_fails e db = false ->
  In r (invoices (gorm_Delete_Invoice e db i)) ->
  Invoice_ID r = Invoice_ID i -> visible (Invoice_Model r) = false.
Proof.
  intros Hok Hin Hid. unfold gorm_Delete_Invoice in Hin. rewrite Hok in Hin.
  cbn [invoices with_tables] in Hin.
  apply in_map_iff in Hin as (r0 & <- & _).
  destruct (visible (Invoice_Model r0)) eqn:Hv; cbn [andb] in *.
  - destruct (key_matches (Invoice_ID i) (Invoice_ID r0)) eqn:Hk;
      [reflexivity|].
    rewrite Hid, key_matches_same in Hk. discriminate.
  - exact Hv.
Qed.

Lemma invoices_gorm_Delete_Charges (e : Env) (db : DB) (id : Z) :
  invoices (gorm_Delete_Charges e db id) = invoices db.
Proof. unfold gorm_Delete_Charges. now destruct (next_fails e db). Qed.

Lemma charges_gorm_Delete_Invoice (e : Env) (db : DB) (i : Invoice) :
  charges (gorm_Delete_Invoice e db i) = charges db.
Proof. unfold gorm_Delete_Invoice. now destruct (next_fails e db). Qed.

(** ** Printing and parsing decimal numbers *)

Lemma byte_val_of (x : Z) : 0 <= x < 256 -> byte_val (byte_of x) = x.
Proof.
  intros H. unfold byte_val, byte_of. rewrite Z.mod_small by lia.
  rewrite N_ascii_embedding by lia. lia.
Qed.

Lemma digits_of_value (fuel : nat) :
  forall n acc, 0 <= n < 2 ^ Z.of_nat fuel ->
                digits_value (digits_of fuel n acc) 0 = digits_value acc n.
Proof.
  induction fuel as [|fuel IH]; intros n acc Hn.
  - cbn in Hn. now replace n with 0 by lia.
  - cbn [digits_of].
    assert (Hd : byte_val (byte_of (48 + n mod 10)) - 48 = n mod 10).
    { rewrite byte_val_of; [lia|].
      pose proof (Z.mod_pos_bound n 10). lia. }
    destruct (Z.ltb_spec n 10) as [Hlt|Hge].
    + cbn [digits_value]. rewrite Hd, Z.mod_small by lia. f_equal.
    + rewrite IH.
      * cbn [digits_value]. rewrite Hd. f_equal.
        pose proof (Z.div_mod n 10). lia.
      * rewrite Nat2Z.inj_succ, Z.pow_succ_r in Hn by lia.
        split; [apply Z.div_pos; lia|].
        apply Z.div_lt_upper_bound; lia.
Qed.

(** The digits [itoa] prints read back as the number. *)
Lemma itoa_value (n : Z) : 0 <= n -> digits_value (itoa n) 0 = n.
Proof.
  intros Hn. unfold itoa. destruct (Z.ltb_spec n 0); [lia|].
  rewrite digits_of_value; [reflexivity|]. split; [lia|].
  rewrite Nat2Z.inj_succ, Z2Nat.id by apply Z.log2_nonneg.
  destruct (Z.eqb_spec n 0) as [->|Hne]; [reflexivity|].
  apply Z.log2_spec. lia.
Qed.

Lemma digits_value_nonneg (s : gostring) :
  forall acc, forallb is_digit s = true -> 0 <= acc -> 0 <= digits_value s acc.
Proof.
  induction s as [|c s IH]; intros acc Hd Hacc; [exact Hacc|].
  cbn [forallb] in Hd. apply andb_true_iff in Hd as [Hc Hs].
  cbn [digits_value]. apply IH; [exact Hs|].
  unfold is_digit in Hc. apply andb_true_iff in Hc as [Hlo _]. lia.
Qed.

Lemma digits_value_ge (s : gostring) :
  forall acc, forallb is_digit s = true -> 0 <= acc -> acc <= digits_value s acc.
Proof.
  induction s as [|c s IH]; intros acc Hd Hacc; [cbn; lia|].
  cbn [forallb] in Hd. apply andb_true_iff in Hd as [Hc Hs].
  cbn [digits_value].
  unfold is_digit in Hc. apply andb_true_iff in Hc as [Hlo _].
  specialize (IH (10 * acc + (byte_val c - 48)) Hs). lia.
Qed.

(** On digits [ParseUint] computes the number they denote, up to the
    largest [uint64]. *)
Lemma parse_uint_digits (s : gostring) :
  forall n, forallb is_digit s = true -> 0 <= n <= maxUint64 ->
            parse_uint s n
            = Some (if digits_value s n <=? maxUint64
                    then (digits_value s n, true) else (maxUint64, false)).
Proof.
  induction s as [|c s IH]; intros n Hd Hn.
  - cbn [parse_uint digits_value].
    destruct (Z.leb_spec n maxUint64); [reflexivity|lia].
  - cbn [forallb] in Hd. apply andb_true_iff in Hd as [Hc Hs].
    cbn [parse_uint digits_value]. rewrite Hc.
    assert (Hlo : 0 <= byte_val c - 48).
    { unfold is_digit in Hc. apply andb_true_iff in Hc as [Hlo _]. lia. }
    pose proof (digits_value_ge s (10 * n + (byte_val c - 48)) Hs) as Hge.
    assert (Hcut : maxUint64 / 10 + 1 = 1844674407370955162) by reflexivity.
    assert (Hmax : maxUint64 = 18446744073709551615) by reflexivity.
    rewrite Hcut.
    destruct (Z.leb_spec 1844674407370955162 n) as [Hbig|Hsmall].
    + destruct (Z.leb_spec (digits_value s (10 * n + (byte_val c - 48)))
                           maxUint64); [lia|reflexivity].
    + destruct (Z.ltb_spec maxUint64 (10 * n + (byte_val c - 48))).
      * destruct (Z.leb_spec (digits_value s (10 * n + (byte_val c - 48)))
                             maxUint64); [lia|reflexivity].
      * apply IH; [exact Hs|lia].
Qed.

Lemma is_digit_not_sign (c : ascii) (s : gostring) :
  is_digit c = true ->
  has_prefix "-"%string (c :: s) = false /\
  has_prefix "+"%string (c :: s) = false.
Proof.
  intros Hc. cbn [has_prefix list_ascii_of_string].
  split.
  - destruct (Ascii.eqb_spec "-"%char c) as [<-|_]; [discriminate Hc|reflexivity].
  - destruct (Ascii.eqb_spec "+"%char c) as [<-|_]; [discriminate Hc|reflexivity].
Qed.

(** On the ids the routes admit [strconv.Atoi] gives the number the digits
    denote, or the largest [int] and an error when that is greater. *)
Lemma strconv_Atoi_digits (s : gostring) :
  s <> [] -> forallb is_digit s = true ->
  strconv_Atoi s = (Z.min (digits_value s 0) maxInt64,
                    maxInt64 <? digits_value s 0).
Proof.
  intros Hne Hd. unfold strconv_Atoi. destruct s as [|c s]; [congruence|].
  assert (Hc : is_digit c = true).
  { cbn [forallb] in Hd. now apply andb_true_iff in Hd as [Hc _]. }
  destruct (is_digit_not_sign c s Hc) as [-> ->]. cbn [orb negb andb].
  rewrite (parse_uint_digits (c :: s) 0 Hd) by (unfold maxUint64; lia).
  assert (Hmax : maxUint64 = 18446744073709551615) by reflexivity.
  assert (Hint : maxInt64 = 9223372036854775807) by reflexivity.
  assert (Hpow : 2 ^ 63 = 9223372036854775808) by reflexivity.
  rewrite Hpow.
  destruct (Z.leb_spec (digits_value (c :: s) 0) maxUint64).
  - destruct (Z.leb_spec 9223372036854775808 (digits_value (c :: s) 0));
      destruct (Z.ltb_spec maxInt64 (digits_value (c :: s) 0));
      try lia; f_equal; lia.
  - destruct (Z.leb_spec 9223372036854775808 maxUint64); [|lia].
    destruct (Z.ltb_spec maxInt64 (digits_value (c :: s) 0)); [|lia].
    f_equal. lia.
Qed.

(** ** Marking rows *)

Lemma map_frame {A} (f : A -> A) (P : A -> bool) (l : list A) (x : A) :
  (forall y, P y = false -> f y = y) ->
  (forall y, P (f y) = P y) ->
  P x = false ->
  (In x (map f l) <-> In x l).
Proof.
  intros Hfix Hkeep Hx. rewrite in_map_iff. split.
  - intros (y & <- & Hy). rewrite Hkeep in Hx. now rewrite (Hfix y Hx).
  - intros Hin. exists x. split; [now apply Hfix|exact Hin].
Qed.

Lemma map_mark_fixed {A} (P : A -> bool) (g : A -> A) (l : list A) :
  (forall x, In x l -> P x = false) ->
  map (fun x => if P x then g x else x) l = l.
Proof.
  intros H. rewrite <- (map_id l) at 2. apply map_ext_in.
  intros x Hx. now rewrite (H x Hx).
Qed.

(** ** deleteInvoice *)

Lemma Header_Get_absent (h : Header) (k : gostring) :
  ~ In (CanonicalMIMEHeaderKey k) (header_names h) -> Header_Get h k = [].
Proof.
  intros H. unfold Header_Get.
  destruct (find _ h) as [kv|] eqn:E; [|reflexivity].
  apply find_some in E as [Hin Hk]. apply str_eqb_eq in Hk.
  exfalso. apply H. rewrite <- Hk. unfold header_names.
  now apply (in_map (fun kv => CanonicalMIMEHeaderKey (fst kv))).
Qed.

Lemma deleteInvoice_rejected (e : Env) (db : DB) (r : Request) :
  checkCSRFToken (Header_Get (req_Header r) "X-CSRF-Token"%string) = false ->
  deleteInvoice e db r
  = (Done (Write (WriteHeader new_writer 406) "Invalid CSRF Token"%string), db).
Proof. intros H. unfold deleteInvoice. now rewrite H. Qed.

Lemma deleteInvoice_accepted (e : Env) (db : DB) (r : Request) :
  checkCSRFToken (Header_Get (req_Header r) "X-CSRF-Token"%string) = true ->
  let id := fst (strconv_Atoi (Vars_id r)) in
  let i1 := set_Invoice_Model zero_Invoice (set_ID zero_Model id) in
  deleteInvoice e db r
  = (Done (Write (WriteHeader new_writer 202)
                 ("deleted invoice "%string ++ itoa id)),
     gorm_Delete_Invoice e (gorm_Delete_Charges e db id) i1).
Proof. intros H. unfold deleteInvoice. now rewrite H. Qed.

(** C4: a delete request whose CSRF header fails verification, or which
    carries no such header under any spelling of its name ([r.Header.Get]
    looks the header up by the canonical form of the name, so
    [x-csrf-token] is the same header), is answered 406 with the body
    [Invalid CSRF Token], and the handler returns the store as it received
    it: no row is touched and no call is made on it. *)
Theorem deleteInvoice_without_token (e : Env) (db : DB) (r : Request) :
  checkCSRFToken (Header_Get (req_Header r) "X-CSRF-Token"%string) = false
  \/ ~ In (CanonicalMIMEHeaderKey "X-CSRF-Token"%string)
          (header_names (req_Header r)) ->
  exists w,
    deleteInvoice e db r = (Done w, db) /\
    w_status w = 406 /\
    w_body w = list_ascii_of_string "Invalid CSRF Token".
Proof.
  intros H.
  assert (Hbad : checkCSRFToken
                   (Header_Get (req_Header r) "X-CSRF-Token"%string) = false).
  { destruct H as [H|H]; [exact H|].
    now rewrite (Header_Get_absent _ _ H). }
  rewrite (deleteInvoice_rejected e db r Hbad).
  eexists; repeat split.
Qed.

Lemma deleteInvoice_without_token_witness :
  (exists w,
      deleteInvoice env0 store1 (request_with_auth "Basic c2FtYW50aGE=")
      = (Done w, store1) /\
      w_status w = 406 /\
      w_body w = list_ascii_of_string "Invalid CSRF Token") /\
  (exists w,
      deleteInvoice env0 store1 (request_with_token "x-csrf-token" "1" token_bad)
      = (Done w, store1) /\
      w_status w = 406 /\
      w_body w = list_ascii_of_string "Invalid CSRF Token").
Proof.
  split.
  - apply (deleteInvoice_without_token env0 store1
             (request_with_auth "Basic c2FtYW50aGE=")).
    right. not_in_string.
  - assert (Hbad : checkCSRFToken
                     (Header_Get (req_Header
                                    (request_with_token "x-csrf-token" "1"
                                                        token_bad))
                                 "X-CSRF-Token"%string) = false)
      by (vm_compute; reflexivity).
    exact (deleteInvoice_without_token env0 store1
             (request_with_token "x-csrf-token" "1" token_bad)
             (or_introl Hbad)).
Defined.

(** The header is found under any spelling of its name: a valid token
    sent as [x-csrf-token] lets the delete through. *)
Example deleteInvoice_token_any_case :
  fst (deleteInvoice env0 store1 (request_with_token "x-csrf-token" "1" token0))
  = Done {| w_Header := []; w_status := 202;
            w_body := list_ascii_of_string "deleted invoice 1" |}.
Proof. vm_compute. reflexivity. Qed.

(** C10 as stated fails in two ways.  For the path id [0] the handler
    marks every live invoice deleted, here the invoices keyed 1 and 2, and
    not "the invoice with that id"; and a path id beyond the range of
    [int] is confirmed as another number, the largest [int]. *)
Lemma deleteInvoice_zero_and_overflow :
  checkCSRFToken (list_ascii_of_string token0) = true /\
  map (fun i => (Invoice_ID i, visible (Invoice_Model i))) (invoices store1)
  = [(1, true); (2, true)] /\
  map (fun i => (Invoice_ID i, visible (Invoice_Model i)))
      (invoices (snd (deleteInvoice env0 store1 (sample_request "0" token0 ""))))
  = [(1, false); (2, false)] /\
  fst (deleteInvoice env0 store1 (sample_request "0" token0 ""))
  = Done {| w_Header := []; w_status := 202;
            w_body := list_ascii_of_string "deleted invoice 0" |} /\
  fst (deleteInvoice env0 store1
                     (sample_request "18446744073709551617" token0 ""))
  = Done {| w_Header := []; w_status := 202;
            w_body := list_ascii_of_string
                        "deleted invoice 9223372036854775807" |}.
Proof. repeat split; vm_compute; reflexivity. Qed.

(** C10, as the code has it.  The path id is a string of digits; it is
    taken as the number [id] it denotes, or as the largest [int] when it
    denotes a greater one (the error of [strconv.Atoi] is dropped).  For an
    [id] other than [0] and a valid token [deleteInvoice] first asks the
    store to delete the charges whose [invoice_id] is [id], then the invoice
    keyed [id], and responds 202 with [deleted invoice <id>], the id in
    decimal.  When the first call is answered no live charge of that
    invoice is left, when the second is answered no live invoice with that
    key is left (gorm marks the rows deleted and keeps them); the charges
    of other invoices and the invoices with another key are as they were.
    Nothing is assumed about the rows in the store: when no live row has
    that id, both tables are as they were and the answer is the same. *)
Theorem deleteInvoice_with_token (e : Env) (db : DB) (r : Request) :
  checkCSRFToken (Header_Get (req_Header r) "X-CSRF-Token"%string) = true ->
  Vars_id r <> [] ->
  forallb is_digit (Vars_id r) = true ->
  let id := Z.min (digits_value (Vars_id r) 0) maxInt64 in
  id <> 0 ->
  let db' := snd (deleteInvoice e db r) in
  calls db' = calls db ++
              [Delete_Charges id;
               Delete_Invoice (set_Invoice_Model zero_Invoice
                                                 (set_ID zero_Model id))] /\
  (fails e (List.length (calls db)) = false ->
   forall c, In c (charges db') -> InvoiceID c = id ->
             visible (Charge_Model c) = false) /\
  (fails e (S (List.length (calls db))) = false ->
   forall i, In i (invoices db') -> Invoice_ID i = id ->
             visible (Invoice_Model i) = false) /\
  (forall c, InvoiceID c <> id ->
             (In c (charges db') <-> In c (charges db))) /\
  (forall i, Invoice_ID i <> id ->
             (In i (invoices db') <-> In i (invoices db))) /\
  map Charge_ID (charges db') = map Charge_ID (charges db) /\
  map Invoice_ID (invoices db') = map Invoice_ID (invoices db) /\
  ((forall c, In c (charges db) -> visible (Charge_Model c) = true ->
              InvoiceID c <> id) ->
   charges db' = charges db) /\
  ((forall i, In i (invoices db) -> visible (Invoice_Model i) = true ->
              Invoice_ID i <> id) ->
   invoices db' = invoices db) /\
  fst (deleteInvoice e db r)
  = Done {| w_Header := []; w_status := 202;
            w_body := list_ascii_of_string "deleted invoice " ++ itoa id |} /\
  digits_value (itoa id) 0 = id /\
  (digits_value (Vars_id r) 0 <= maxInt64 ->
   digits_value (itoa id) 0 = digits_value (Vars_id r) 0).
Proof.
  intros Htok Hne Hdig id Hid db'. subst db'.
  rewrite (deleteInvoice_accepted e db r Htok).
  rewrite (strconv_Atoi_digits _ Hne Hdig). cbn [fst snd]. fold id.
  assert (Hnext : next_fails e (gorm_Delete_Charges e db id)
                  = fails e (S (List.length (calls db)))).
  { unfold next_fails. rewrite calls_gorm_Delete_Charges, length_app.
    cbn [List.length]. now rewrite Nat.add_1_r. }
  assert (Hpos : 0 <= id).
  { subst id. pose proof (digits_value_nonneg _ 0 Hdig). unfold maxInt64. lia. }
  assert (Hkey : forall y, key_matches id y = (y =? id)).
  { intros y. unfold key_matches.
    destruct (Z.eqb_spec id 0); [contradiction|reflexivity]. }
  split; [|split; [|split; [|split; [|split; [|split; [|split; [|split;
    [|split; [|split; [|split]]]]]]]]]].
  - rewrite calls_gorm_Delete_Invoice, calls_gorm_Delete_Charges.
    now rewrite <- app_assoc.
  - intros Hok c Hin Hc. rewrite charges_gorm_Delete_Invoice in Hin.
    now apply (deleted_charges_gone e db id c Hok).
  - intros Hok i Hin Hi. rewrite <- Hnext in Hok.
    now apply (deleted_invoice_gone e _ _ i Hok Hin).
  - intros c Hc. rewrite charges_gorm_Delete_Invoice.
    unfold gorm_Delete_Charges.
    destruct (next_fails e db); cbn [charges log_call with_tables];
      [reflexivity|].
    apply (map_frame _ (fun j => InvoiceID j =? id)).
    + intros y Hy. rewrite Hy. now rewrite andb_false_r.
    + intros y. now destruct (_ && _).
    + now apply Z.eqb_neq.
  - intros i Hi. unfold gorm_Delete_Invoice.
    destruct (next_fails e _); cbn [invoices log_call with_tables];
      rewrite ?invoices_gorm_Delete_Charges; [reflexivity|].
    apply (map_frame _ (fun j => Invoice_ID j =? id)).
    + intros y Hy. cbn. fold (Invoice_ID y). rewrite Hkey, Hy.
      now rewrite andb_false_r.
    + intros y. now destruct (_ && _).
    + now apply Z.eqb_neq.
  - rewrite charges_gorm_Delete_Invoice. unfold gorm_Delete_Charges.
    destruct (next_fails e db); cbn [charges log_call with_tables];
      [reflexivity|].
    rewrite map_map. apply map_ext. intros c. now destruct (_ && _).
  - unfold gorm_Delete_Invoice.
    destruct (next_fails e _); cbn [invoices log_call with_tables];
      rewrite ?invoices_gorm_Delete_Charges; [reflexivity|].
    rewrite map_map. apply map_ext. intros i. now destruct (_ && _).
  - intros Hnone. rewrite charges_gorm_Delete_Invoice.
    unfold gorm_Delete_Charges.
    destruct (next_fails e db); cbn [charges log_call with_tables];
      [reflexivity|].
    apply (map_mark_fixed
             (fun c => visible (Charge_Model c) && (InvoiceID c =? id))).
    intros c Hin. destruct (visible (Charge_Model c)) eqn:Hv; [|reflexivity].
    cbn [andb]. apply Z.eqb_neq. now apply Hnone.
  - intros Hnone. unfold gorm_Delete_Invoice.
    destruct (next_fails e _); cbn [invoices log_call with_tables];
      rewrite ?invoices_gorm_Delete_Charges; [reflexivity|].
    apply (map_mark_fixed
             (fun i => visible (Invoice_Model i)
                       && key_matches
                            (Invoice_ID (set_Invoice_Model zero_Invoice
                                           (set_ID zero_Model id)))
                            (Invoice_ID i))).
    intros i Hin. destruct (visible (Invoice_Model i)) eqn:Hv; [|reflexivity].
    cbn [andb]. change (Invoice_ID (set_Invoice_Model _ _)) with id.
    rewrite Hkey. apply Z.eqb_neq. now apply Hnone.
  - reflexivity.
  - now apply itoa_value.
  - intros Hfit. rewrite itoa_value by exact Hpos. subst id. lia.
Qed.

Lemma deleteInvoice_with_token_witness :
  fst (deleteInvoice env0 store1 (sample_request "1" token0 ""))
  = Done {| w_Header := []; w_status := 202;
            w_body := list_ascii_of_string "deleted invoice 1" |} /\
  (forall c, In c (charges (snd (deleteInvoice env0 store1
                                               (sample_request "1" token0 "")))) ->
             InvoiceID c = 1 -> visible (Charge_Model c) = false) /\
  (forall i, In i (invoices (snd (deleteInvoice env0 store1
                                                (sample_request "1" token0 "")))) ->
             Invoice_ID i = 1 -> visible (Invoice_Model i) = false) /\
  In invoice2 (invoices (snd (deleteInvoice env0 store1
                                            (sample_request "1" token0 "")))) /\
  charges (snd (deleteInvoice env0 store1 (sample_request "7" token0 "")))
  = charges store1 /\
  invoices (snd (deleteInvoice env0 store1 (sample_request "7" token0 "")))
  = invoices store1 /\
  fst (deleteInvoice env0 store1 (sample_request "7" token0 ""))
  = Done {| w_Header := []; w_status := 202;
            w_body := list_ascii_of_string "deleted invoice 7" |}.
Proof.
  assert (Htok1 : checkCSRFToken
                    (Header_Get (req_Header (sample_request "1" token0 ""))
                                "X-CSRF-Token"%string) = true)
    by (vm_compute; reflexivity).
  assert (Htok7 : checkCSRFToken
                    (Header_Get (req_Header (sample_request "7" token0 ""))
                                "X-CSRF-Token"%string) = true)
    by (vm_compute; reflexivity).
  assert (Hne1 : Vars_id (sample_request "1" token0 "") <> []) by discriminate.
  assert (Hne7 : Vars_id (sample_request "7" token0 "") <> []) by discriminate.
  assert (Hid1 : Z.min (digits_value (Vars_id (sample_request "1" token0 "")) 0)
                       maxInt64 <> 0) by (vm_compute; discriminate).
  assert (Hid7 : Z.min (digits_value (Vars_id (sample_request "7" token0 "")) 0)
                       maxInt64 <> 0) by (vm_compute; discriminate).
  destruct (deleteInvoice_with_token env0 store1
              (sample_request "1" token0 "") Htok1 Hne1 eq_refl Hid1)
    as (_ & Hcs & Hinv & _ & Hframe & _ & _ & _ & _ & Hresp & _).
  destruct (deleteInvoice_with_token env0 store1
              (sample_request "7" token0 "") Htok7 Hne7 eq_refl Hid7)
    as (_ & _ & _ & _ & _ & _ & _ & Hc7 & Hi7 & Hresp7 & _).
  split; [exact Hresp|].
  split; [exact (Hcs eq_refl)|].
  split; [exact (Hinv eq_refl)|].
  split.
  { apply (proj2 (Hframe invoice2 ltac:(vm_compute; discriminate))).
    right; left; reflexivity. }
  split.
  { apply Hc7. intros c [<-|[<-|[<-|[]]]] Hv;
      vm_compute; try discriminate; vm_compute in Hv; discriminate. }
  split; [|exact Hresp7].
  apply Hi7. intros i [<-|[<-|[]]] _; vm_compute; discriminate.
Defined.

(** ** postInvoice *)

Lemma calls_gorm_Create (e : Env) (db : DB) (i : Invoice) :
  calls (fst (gorm_Create e db i)) = calls db ++ [Create_Invoice i].
Proof.
  unfold gorm_Create.
  destruct (next_fails e db); [now destruct (create_cut e db)|].
  destruct (_ && _); [reflexivity|].
  now destruct (save_charges _ _ _ _) as [[cs cseq] saved].
Qed.

Lemma reset_ids_blank (i : Invoice) :
  Invoice_ID (reset_ids i) = 0 /\
  Forall (fun c => Charge_ID c = 0 /\ InvoiceID c = 0) (Charges (reset_ids i)) /\
  map charge_payload (Charges (reset_ids i)) = map charge_payload (Charges i).
Proof.
  repeat split.
  - cbn. apply Forall_map, Forall_forall. intros c _. now split.
  - cbn. rewrite map_map. now apply map_ext.
Qed.

(** Saving charges that all have a blank key appends one row per charge,
    keyed from the table's sequence and owned by [owner]. *)
Lemma save_charges_blank (t : time_Time) (owner : Z) (cs : list Charge) :
  Forall (fun c => Charge_ID c = 0) cs ->
  forall rows seq, exists new,
    save_charges t owner (rows, seq) cs
    = ((rows ++ new, seq + Z.of_nat (List.length cs)), new) /\
    List.length new = List.length cs /\
    forall k c, nth_error new k = Some c ->
                Charge_ID c = seq + 1 + Z.of_nat k /\ InvoiceID c = owner.
Proof.
  induction 1 as [|c cs Hc _ IH]; intros rows seq.
  - exists []. cbn. rewrite app_nil_r, Z.add_0_r. repeat split;
      destruct k; discriminate.
  - cbn [save_charges]. unfold save_charge at 1.
    replace (Charge_ID (set_InvoiceID c owner)) with 0 by (symmetry; exact Hc).
    cbn [Z.eqb].
    set (c' := set_Charge_Model _ _).
    destruct (IH (rows ++ [c']) (seq + 1)) as (new & E & Hlen & Hnew).
    rewrite E. exists (c' :: new). repeat split.
    + rewrite <- app_assoc. cbn [app]. do 2 f_equal.
      cbn [List.length]. lia.
    + cbn [List.length]. now rewrite Hlen.
    + destruct k as [|k]; cbn [nth_error] in H.
      * injection H as <-. cbn. lia.
      * apply Hnew in H. lia.
    + destruct k as [|k]; cbn [nth_error] in H.
      * now injection H as <-.
      * now apply Hnew in H.
Qed.

Lemma gorm_Create_blank (e : Env) (db : DB) (i : Invoice) :
  next_fails e db = false ->
  Invoice_ID i = 0 ->
  Forall (fun c => Charge_ID c = 0) (Charges i) ->
  exists row new,
    invoices (fst (gorm_Create e db i)) = invoices db ++ [row] /\
    Invoice_ID row = invoice_seq db + 1 /\
    Invoice_ID (snd (gorm_Create e db i)) = invoice_seq db + 1 /\
    charges (fst (gorm_Create e db i)) = charges db ++ new /\
    List.length new = List.length (Charges i) /\
    forall k c, nth_error new k = Some c ->
                Charge_ID c = charge_seq db + 1 + Z.of_nat k /\
                InvoiceID c = invoice_seq db + 1.
Proof.
  intros Hok Hid Hcs. unfold gorm_Create. rewrite Hok, Hid. cbn [Z.eqb negb andb].
  destruct (save_charges_blank (now e) (invoice_seq db + 1) _ Hcs
              (charges db) (charge_seq db)) as (new & E & Hlen & Hnew).
  rewrite E. eexists _, new. cbn. repeat split; auto;
    match goal with H : nth_error _ _ = Some _ |- _ =>
      destruct (Hnew _ _ H); assumption end.
Qed.

(** C8: whatever invoice a well-formed body parses to, the value
    [postInvoice] passes to [db.Create] has a zero [ID] and zero [ID] and
    [invoice_id] in every charge, with the rest of the charges as
    supplied; when the insertion succeeds the new invoice row is keyed from
    the table's own sequence and each new charge row is keyed from its
    table's sequence and owned by the new invoice. *)
Theorem postInvoice_discards_client_ids
        (json_Unmarshal : gostring -> Invoice -> Invoice + gostring)
        (e : Env) (db : DB) (r : Request) (body : gostring) (i : Invoice) :
  Body r = inl body ->
  json_Unmarshal body zero_Invoice = inl i ->
  let db' := snd (postInvoice json_Unmarshal e db r) in
  (exists i0,
      nth_error (calls db') (List.length (calls db)) = Some (Create_Invoice i0) /\
      Invoice_ID i0 = 0 /\
      Forall (fun c => Charge_ID c = 0 /\ InvoiceID c = 0) (Charges i0) /\
      map charge_payload (Charges i0) = map charge_payload (Charges i)) /\
  (fails e (List.length (calls db)) = false ->
   exists row new,
     invoices db' = invoices db ++ [row] /\
     Invoice_ID row = invoice_seq db + 1 /\
     charges db' = charges db ++ new /\
     List.length new = List.length (Charges i) /\
     forall k c, nth_error new k = Some c ->
                 Charge_ID c = charge_seq db + 1 + Z.of_nat k /\
                 InvoiceID c = invoice_seq db + 1).
Proof.
  intros Hbody Hparse db'. subst db'. unfold postInvoice.
  rewrite Hbody, Hparse.
  pose proof (calls_gorm_Create e db (reset_ids i)) as Hcalls.
  destruct (reset_ids_blank i) as (Hid & Hcs & Hpay).
  assert (Hblank : Forall (fun c => Charge_ID c = 0) (Charges (reset_ids i))).
  { eapply Forall_impl; [|exact Hcs]. now intros c [H _]. }
  pose proof (fun Hok => gorm_Create_blank e db (reset_ids i) Hok Hid Hblank)
    as Hrows.
  destruct (gorm_Create e db (reset_ids i)) as [db1 i1]. cbn [fst snd] in *.
  pose proof (fst_gorm_Last e db1 i1) as HL.
  destruct (gorm_Last e db1 i1) as [db2 i2]. cbn [fst snd] in *. subst db2.
  split.
  - exists (reset_ids i). repeat split; auto.
    rewrite calls_log_call, Hcalls, <- app_assoc.
    rewrite nth_error_app2 by lia. now rewrite Nat.sub_diag.
  - intros Hok. destruct (Hrows Hok) as (row & new & H1 & H2 & _ & H4 & H5 & H6).
    exists row, new. cbn [invoices charges log_call].
    assert (H5' : List.length new = List.length (Charges i))
      by (rewrite H5; cbn; apply length_map).
    repeat split; auto;
      match goal with H : nth_error _ _ = Some _ |- _ =>
        destruct (H6 _ _ H); assumption end.
Qed.

Lemma postInvoice_discards_client_ids_witness :
  Invoice_ID invoice_with_ids = 7 /\
  map (fun c => (Charge_ID c, InvoiceID c)) (Charges invoice_with_ids)
  = [(9, 1)] /\
  (exists i0,
      nth_error (calls (snd (postInvoice json_Unmarshal_sample env0 store1
                                         (request_post body_with_ids)))) 0
      = Some (Create_Invoice i0) /\
      Invoice_ID i0 = 0 /\
      Forall (fun c => Charge_ID c = 0 /\ InvoiceID c = 0) (Charges i0) /\
      map charge_payload (Charges i0)
      = [(list_ascii_of_string "<b>fee</b>", 5%float,
          list_ascii_of_string "a > b")]) /\
  (exists row new,
      invoices (snd (postInvoice json_Unmarshal_sample env0 store1
                                 (request_post body_with_ids)))
      = invoices store1 ++ [row] /\
      Invoice_ID row = 3 /\
      charges (snd (postInvoice json_Unmarshal_sample env0 store1
                                (request_post body_with_ids)))
      = charges store1 ++ new /\
      List.length new = 1%nat /\
      forall k c, nth_error new k = Some c ->
                  Charge_ID c = 4 + Z.of_nat k /\ InvoiceID c = 3).
Proof.
  assert (Hparse : json_Unmarshal_sample body_with_ids zero_Invoice
                   = inl invoice_with_ids) by (vm_compute; reflexivity).
  destruct (postInvoice_discards_client_ids json_Unmarshal_sample env0 store1
              (request_post body_with_ids) body_with_ids invoice_with_ids
              eq_refl Hparse) as [Harg Hrows].
  split; [reflexivity|]. split; [reflexivity|].
  split; [exact Harg|exact (Hrows eq_refl)].
Defined.

(** The run of the sample create, written out: the client asked for the
    invoice key 7 and for a charge keyed 9 owned by invoice 1; the rows
    written are keyed 3 and 4, and the charge is owned by invoice 3. *)
Example postInvoice_sample_rows :
  postInvoice json_Unmarshal_sample env0 store1 (request_post body_with_ids)
  = (Done {| w_Header := []; w_status := 201;
             w_body := list_ascii_of_string "created invoice 3" |},
     {| invoices :=
          [invoice1; invoice2;
           {| Invoice_Model := {| ID := 3; CreatedAt := 0; UpdatedAt := 0;
                                  DeletedAt := None |};
              IsPaid := true; Invoice_Amount := 500;
              PaymentDate := 0; DueDate := 0; Charges := [] |}];
        charges :=
          [charge1; charge2; charge3;
           {| Charge_Model := {| ID := 4; CreatedAt := 0; UpdatedAt := 0;
                                 DeletedAt := None |};
              InvoiceID := 3; Charge_Type := "<b>fee</b>"%string;
              Charge_Amount := 5%float; Description := "a > b"%string |}];
        invoice_seq := 3; charge_seq := 4;
        calls :=
          [Create_Invoice
             {| Invoice_Model := zero_Model;
                IsPaid := true; Invoice_Amount := 500;
                PaymentDate := 0; DueDate := 0;
                Charges :=
                  [{| Charge_Model := zero_Model; InvoiceID := 0;
                      Charge_Type := "<b>fee</b>"%string;
                      Charge_Amount := 5%float;
                      Description := "a > b"%string |}] |};
           Last_Invoice
             {| Invoice_Model := {| ID := 3; CreatedAt := 0; UpdatedAt := 0;
                                    DeletedAt := None |};
                IsPaid := true; Invoice_Amount := 500;
                PaymentDate := 0; DueDate := 0;
                Charges :=
                  [{| Charge_Model := {| ID := 4; CreatedAt := 0;
                                         UpdatedAt := 0; DeletedAt := None |};
                      InvoiceID := 3; Charge_Type := "<b>fee</b>"%string;
                      Charge_Amount := 5%float;
                      Description := "a > b"%string |}] |}] |}).
Proof. vm_compute. reflexivity. Qed.

(** ** getInvoice *)

Lemma escape_byte_no_angle (c : ascii) : no_angle (escape_byte c).
Proof.
  unfold escape_byte, no_angle.
  destruct (Ascii.eqb_spec c "&"%char); [split; not_in_string|].
  destruct (Ascii.eqb_spec c "'"%char); [split; not_in_string|].
  destruct (Ascii.eqb_spec c "<"%char); [split; not_in_string|].
  destruct (Ascii.eqb_spec c ">"%char); [split; not_in_string|].
  destruct (Ascii.eqb_spec c dquote); [split; not_in_string|].
  split; intros [H|[]]; congruence.
Qed.

(** The output of [html.EscapeString] holds no [<] and no [>]. *)
Lemma html_EscapeString_no_angle (s : gostring) :
  no_angle (html_EscapeString s).
Proof.
  unfold html_EscapeString.
  split; intros H; apply in_flat_map in H as (c & _ & H);
    destruct (escape_byte_no_angle c) as [Hlt Hgt]; auto.
Qed.

(** The output of [html.EscapeString] holds none of the bytes markup
    gives a meaning to. *)
Lemma html_EscapeString_no_markup (s : gostring) :
  no_markup (html_EscapeString s) = true.
Proof.
  unfold no_markup, html_EscapeString.
  induction s as [|c s IH]; [reflexivity|].
  cbn [flat_map]. rewrite forallb_app, IH, andb_true_r.
  unfold escape_byte.
  destruct (Ascii.eqb_spec c "&"%char); [reflexivity|].
  destruct (Ascii.eqb_spec c "'"%char) as [|H1]; [reflexivity|].
  destruct (Ascii.eqb_spec c "<"%char) as [|H2]; [reflexivity|].
  destruct (Ascii.eqb_spec c ">"%char) as [|H3]; [reflexivity|].
  destruct (Ascii.eqb_spec c dquote) as [|H4]; [reflexivity|].
  cbn [forallb is_markup existsb].
  apply Ascii.eqb_neq in H1, H2, H3, H4. now rewrite H1, H2, H3, H4.
Qed.

Lemma unescape_escape (s : gostring) :
  forall fuel, (List.length (html_EscapeString s) <= fuel)%nat ->
               unescape_from fuel (html_EscapeString s) = s.
Proof.
  unfold html_EscapeString.
  induction s as [|c s IH]; intros fuel Hf; [now destruct fuel|].
  cbn [flat_map] in *. rewrite length_app in Hf.
  assert (Hlen : (1 <= List.length (escape_byte c))%nat).
  { unfold escape_byte. repeat (destruct (Ascii.eqb c _); [cbn; lia|]).
    cbn; lia. }
  destruct fuel as [|fuel]; [lia|].
  assert (Hrest : (List.length (flat_map escape_byte s) <= fuel)%nat) by lia.
  unfold escape_byte in *.
  destruct (Ascii.eqb_spec c "&"%char) as [->|H0];
    [cbn; f_equal; now apply IH|].
  destruct (Ascii.eqb_spec c "'"%char) as [->|H1];
    [cbn; f_equal; now apply IH|].
  destruct (Ascii.eqb_spec c "<"%char) as [->|H2];
    [cbn; f_equal; now apply IH|].
  destruct (Ascii.eqb_spec c ">"%char) as [->|H3];
    [cbn; f_equal; now apply IH|].
  destruct (Ascii.eqb_spec c dquote) as [->|H4];
    [cbn; f_equal; now apply IH|].
  assert (Hamp : Ascii.eqb "&"%char c = false)
    by (apply Ascii.eqb_neq; congruence).
  cbn [app unescape_from find entities fst has_prefix list_ascii_of_string].
  rewrite Hamp. cbn [andb]. f_equal. now apply IH.
Qed.

(** Escaped text reads back as the text that was escaped: nothing is
    dropped. *)
Lemma html_unescape_escape (s : gostring) :
  html_unescape (html_EscapeString s) = s.
Proof. unfold html_unescape. now apply unescape_escape. Qed.

(** The five replacements of [html.EscapeString], and a byte it keeps. *)
Example escape_byte_table :
  map escape_byte
      ["&"%char; "'"%char; "<"%char; ">"%char; dquote; "a"%char]
  = [list_ascii_of_string "&amp;"; list_ascii_of_string "&#39;";
     list_ascii_of_string "&lt;"; list_ascii_of_string "&gt;";
     list_ascii_of_string "&#34;"; list_ascii_of_string "a"].
Proof. reflexivity. Qed.

Lemma escape_charge_copy (c : Charge) : escaped_copy c (escape_charge c).
Proof.
  unfold escaped_copy, escape_charge.
  cbn [Charge_Model InvoiceID Charge_Amount Charge_Type Description].
  repeat split; first [apply html_EscapeString_no_markup
                      |apply html_unescape_escape].
Qed.

Lemma gorm_First_fresh (e : Env) (db : DB) (id : Z) :
  Charges (snd (gorm_First e db zero_Invoice id)) = [].
Proof.
  unfold gorm_First. destruct (next_fails e db); [reflexivity|].
  now destruct (find _ _).
Qed.

Lemma gorm_Find_Charges_result (e : Env) (db : DB) (id : Z) :
  snd (gorm_Find_Charges e db [] id)
  = if next_fails e db then []
    else filter (fun c => visible (Charge_Model c) && (InvoiceID c =? id))
                (charges db).
Proof. unfold gorm_Find_Charges. now destruct (next_fails e db). Qed.

(** A [db.First] into a fresh struct that comes back with a key has
    loaded a live row with the key asked for. *)
Lemma gorm_First_row (e : Env) (db : DB) (id : Z) :
  Invoice_ID (snd (gorm_First e db zero_Invoice id)) <> 0 ->
  exists row, In row (invoices db) /\ visible (Invoice_Model row) = true /\
              Invoice_ID row = id /\
              snd (gorm_First e db zero_Invoice id) = set_Charges row [].
Proof.
  unfold gorm_First. destruct (next_fails e db); [now intros []|].
  destruct (find _ _) as [row|] eqn:E; [|now intros []].
  intros _. apply find_some in E as [Hin Hrow].
  apply andb_true_iff in Hrow as [Hrow _].
  apply andb_true_iff in Hrow as [Hv Hid]. apply Z.eqb_eq in Hid.
  exists row. repeat split; auto.
Qed.

(** C9: in a 200 response of [getInvoice] the body is the encoding of an
    invoice whose charges are stored charges of that invoice with [type]
    and [description] passed through [html.EscapeString]: in each, the five
    special bytes of the stored text are replaced by their entities, so the
    text holds no raw [<] or [>] (nor a quote), reads back as the stored
    text, and the rest of the charge is as stored; the rows of the store are
    the ones it had before. *)
Theorem getInvoice_escapes_charges
        (json_Marshal : Invoice -> gostring + gostring)
        (e : Env) (db : DB) (r : Request) (w : ResponseWriter) (db' : DB) :
  getInvoice json_Marshal e db r = (Done w, db') ->
  w_status w = 200 ->
  exists inv stored,
    json_Marshal inv = inl (w_body w) /\
    Charges inv = map escape_charge stored /\
    incl stored (charges db) /\
    (fails e (S (List.length (calls db))) = false ->
     stored = filter (fun c => visible (Charge_Model c)
                               && (InvoiceID c =? Invoice_ID inv))
                     (charges db)) /\
    Forall (fun c => no_angle (Charge_Type c) /\ no_angle (Description c))
           (Charges inv) /\
    invoices db' = invoices db /\ charges db' = charges db /\
    Forall2 escaped_copy stored (Charges inv) /\
    (exists row, In row (invoices db) /\ visible (Invoice_Model row) = true /\
                 Invoice_ID row = fst (strconv_Atoi (Vars_id r)) /\
                 inv = set_Charges row (Charges inv)).
Proof.
  unfold getInvoice. intros H Hst.
  pose proof (fst_gorm_First e db zero_Invoice (fst (strconv_Atoi (Vars_id r))))
    as HF.
  pose proof (gorm_First_fresh e db (fst (strconv_Atoi (Vars_id r)))) as HC.
  pose proof (gorm_First_row e db (fst (strconv_Atoi (Vars_id r)))) as HRow.
  destruct (gorm_First e db zero_Invoice _) as [db1 i1]. cbn [fst snd] in *.
  destruct (Z.eqb_spec (Invoice_ID i1) 0) as [|Hfound].
  { injection H as <- _. discriminate Hst. }
  rewrite HC in H.
  pose proof (fst_gorm_Find_Charges e db1 [] (Invoice_ID i1)) as HF2.
  pose proof (gorm_Find_Charges_result e db1 (Invoice_ID i1)) as HR.
  destruct (gorm_Find_Charges e db1 [] (Invoice_ID i1)) as [db2 cs].
  cbn [fst snd] in *.
  destruct (json_Marshal (set_Charges i1 (map escape_charge cs)))
    as [js|err] eqn:EM.
  2:{ injection H as <- _. discriminate Hst. }
  injection H as <- <-. subst db1 db2.
  rewrite next_fails_log_call in HR.
  exists (set_Charges i1 (map escape_charge cs)), cs.
  cbn [w_body Write WriteHeader map_Header new_writer app Charges set_Charges].
  split; [exact EM|]. split; [reflexivity|].
  split.
  { subst cs. destruct (fails e _); [intros c []|].
    intros c Hc. now apply filter_In in Hc. }
  split.
  { intros Hok. now rewrite Hok in HR. }
  split.
  { apply Forall_map, Forall_forall. intros c _. cbn.
    split; apply html_EscapeString_no_angle. }
  split; [reflexivity|]. split; [reflexivity|].
  split.
  { clear. induction cs as [|c cs IH]; cbn [map]; constructor;
      [apply escape_charge_copy|exact IH]. }
  destruct (HRow Hfound) as (row & Hin & Hv & Hid & ->).
  exists row. repeat split; auto.
Qed.

(** ** Store failures *)












Lemma getInvoice_escapes_charges_witness :
  exists inv stored,
    json_Marshal_texts inv
    = inl (list_ascii_of_string
             "&lt;b&gt;fee&lt;/b&gt;|&lt;script&gt;x&lt;/script&gt;;tax|a &gt; b;") /\
    stored = [charge1; charge2] /\
    Forall2 escaped_copy stored (Charges inv) /\
    invoices (snd (getInvoice json_Marshal_texts env0 store1
                              (sample_request "1" token0 ""))) = invoices store1 /\
    charges (snd (getInvoice json_Marshal_texts env0 store1
                             (sample_request "1" token0 ""))) = charges store1.
Proof.
  assert (Hrun : getInvoice json_Marshal_texts env0 store1
                            (sample_request "1" token0 "")
                 = (Done (json_response
                            (list_ascii_of_string
                               "&lt;b&gt;fee&lt;/b&gt;|&lt;script&gt;x&lt;/script&gt;;tax|a &gt; b;")),
                    snd (getInvoice json_Marshal_texts env0 store1
                                    (sample_request "1" token0 ""))))
    by (vm_compute; reflexivity).
  destruct (getInvoice_escapes_charges json_Marshal_texts env0 store1
              (sample_request "1" token0 "") _ _ Hrun eq_refl)
    as (inv & stored & Hbody & _ & _ & Hfilter & _ & Hi & Hc & Hcopy
        & row & _ & _ & Hid & Hinv).
  assert (Hkey : Invoice_ID inv = 1) by (rewrite Hinv; exact Hid).
  specialize (Hfilter eq_refl). rewrite Hkey in Hfilter.
  exists inv, stored.
  split; [exact Hbody|].
  split; [rewrite Hfilter; reflexivity|].
  split; [exact Hcopy|].
  split; [exact Hi|exact Hc].
Defined.

(** A sample run: the stored texts hold markup, the response holds its
    escaped form. *)
Example getInvoice_sample_body :
  w_body (written (fst (getInvoice json_Marshal_texts env0 store1
                                   (sample_request "1" token0 ""))))
  = list_ascii_of_string
      "&lt;b&gt;fee&lt;/b&gt;|&lt;script&gt;x&lt;/script&gt;;tax|a &gt; b;".
Proof. vm_compute. reflexivity. Qed.

(** ** Further properties of the handlers *)

Lemma strings_Index_first (c : ascii) (u p : gostring) :
  ~ In c u -> strings_Index (u ++ c :: p) [c] = len u.
Proof.
  induction u as [|x u IH]; intros H.
  - cbn. now rewrite Ascii.eqb_refl.
  - cbn [app strings_Index has_prefix].
    destruct (Ascii.eqb_spec c x) as [->|_]; [exfalso; apply H; now left|].
    cbn [andb]. rewrite IH by (intros Hin; apply H; now right).
    pose proof (len_nonneg u).
    destruct (Z.ltb_spec (len u) 0); [lia|].
    unfold len. cbn [List.length]. lia.
Qed.

Lemma slice_prefix (u rest : gostring) : slice (u ++ rest) 0 (len u) = Some u.
Proof.
  unfold slice. pose proof (len_nonneg u). pose proof (len_nonneg rest).
  rewrite len_app.
  destruct (Z.leb_spec 0 0); [|lia].
  destruct (Z.leb_spec 0 (len u)); [|lia].
  destruct (Z.leb_spec (len u) (len u + len rest)); [|lia].
  cbn [andb Z.to_nat skipn]. rewrite Z.sub_0_r. unfold len.
  rewrite Nat2Z.id, firstn_app, Nat.sub_diag, firstn_all. cbn.
  now rewrite app_nil_r.
Qed.

Lemma slice_suffix (u p : gostring) (c : ascii) :
  slice_from (u ++ c :: p) (len u + 1) = Some p.
Proof.
  unfold slice_from, slice. pose proof (len_nonneg u). pose proof (len_nonneg p).
  assert (L : len (u ++ c :: p) = len u + 1 + len p).
  { rewrite len_app. unfold len. cbn [List.length]. lia. }
  rewrite L.
  destruct (Z.leb_spec 0 (len u + 1)); [|lia].
  destruct (Z.leb_spec (len u + 1) (len u + 1 + len p)); [|lia].
  destruct (Z.leb_spec (len u + 1 + len p) (len u + 1 + len p)); [|lia].
  cbn [andb].
  replace (Z.to_nat (len u + 1)) with (List.length u + 1)%nat
    by (unfold len; lia).
  replace (Z.to_nat (len u + 1 + len p - (len u + 1))) with (List.length p)
    by (unfold len; lia).
  rewrite skipn_app, skipn_all2 by lia.
  replace (List.length u + 1 - List.length u)%nat with 1%nat by lia.
  cbn [app skipn]. now rewrite firstn_all.
Qed.

(** The test [getIndex] applies to a Basic credential [u:p]: it answers
    401 when the user and the password are both wrong, and serves the page
    as soon as one of them is the expected one. *)
Theorem getIndex_rejects_iff_both_wrong (e : Env) (r : Request)
        (enc u p : gostring) :
  let auth := Header_Get (req_Header r) "Authorization"%string in
  8 <= len auth ->
  slice auth 0 5 = Some (list_ascii_of_string "Basic") ->
  slice_from auth 6 = Some enc ->
  base64_DecodeString enc = (u ++ ":"%string ++ p, false) ->
  ~ In ":"%char u ->
  (u <> defaultUser /\ p <> defaultPass ->
   getIndex e r = Done (requestBasicAuth new_writer)) /\
  (u = defaultUser \/ p = defaultPass ->
   exists w, getIndex e r = Done w /\ w_status w = 200 /\
             w_body w = index_page (createCSRFToken e)).
Proof.
  intros auth Hlen Hscheme Henc Hdec Hsep.
  rewrite (getIndex_decoded e r enc _ Hlen Hscheme Henc Hdec).
  change (list_ascii_of_string ":") with [":"%char]. cbn [app].
  rewrite (strings_Index_first _ u p Hsep), slice_prefix, slice_suffix.
  split.
  - intros [Hu Hp].
    destruct (str_eqb u defaultUser) eqn:Eu;
      [now apply str_eqb_eq in Eu|].
    destruct (str_eqb p defaultPass) eqn:Ep;
      [now apply str_eqb_eq in Ep|].
    reflexivity.
  - intros H.
    assert (E : negb (str_eqb u defaultUser)
                && negb (str_eqb p defaultPass) = false).
    { destruct H as [->| ->]; rewrite str_eqb_refl; cbn;
        [reflexivity|apply andb_false_r]. }
    rewrite E. eexists; repeat split.
Qed.

Lemma getIndex_rejects_iff_both_wrong_witness :
  exists w,
    getIndex env0 (request_with_auth "Basic eDoxbnMzY3VyMw==") = Done w /\
    w_status w = 200 /\ w_body w = index_page (createCSRFToken env0).
Proof.
  apply (getIndex_rejects_iff_both_wrong env0
           (request_with_auth "Basic eDoxbnMzY3VyMw==")
           (list_ascii_of_string "eDoxbnMzY3VyMw==")
           (list_ascii_of_string "x") (list_ascii_of_string "1ns3cur3"));
    [ vm_compute; discriminate | reflexivity | reflexivity | reflexivity
    | not_in_string | right; reflexivity ].
Defined.

(** A delete whose path id is [0] hands gorm a struct with a blank key,
    and gorm then deletes without a condition on the key: every live
    invoice is marked deleted. *)
Theorem deleteInvoice_zero_deletes_all (e : Env) (db : DB) (r : Request) :
  checkCSRFToken (Header_Get (req_Header r) "X-CSRF-Token"%string) = true ->
  fails e (S (List.length (calls db))) = false ->
  fst (strconv_Atoi (Vars_id r)) = 0 ->
  forall i, In i (invoices (snd (deleteInvoice e db r))) ->
            visible (Invoice_Model i) = false.
Proof.
  intros Htok Hok Hid i Hin.
  rewrite (deleteInvoice_accepted e db r Htok) in Hin. cbn [snd] in Hin.
  rewrite Hid in Hin. unfold gorm_Delete_Invoice in Hin.
  assert (Hok' : next_fails e (gorm_Delete_Charges e db 0) = false).
  { unfold next_fails. rewrite calls_gorm_Delete_Charges, length_app.
    cbn [List.length]. now rewrite Nat.add_1_r. }
  rewrite Hok' in Hin. cbn [invoices with_tables] in Hin.
  apply in_map_iff in Hin as (r0 & <- & _).
  destruct (visible (Invoice_Model r0)) eqn:Hv; cbn; [reflexivity|exact Hv].
Qed.

Lemma deleteInvoice_zero_deletes_all_witness :
  forallb (fun i => negb (visible (Invoice_Model i)))
          (invoices (snd (deleteInvoice env0 store1
                                        (sample_request "0" token0 ""))))
  = true.
Proof.
  assert (Htok : checkCSRFToken
                   (Header_Get (req_Header (sample_request "0" token0 ""))
                               "X-CSRF-Token"%string) = true)
    by (vm_compute; reflexivity).
  apply forallb_forall. intros i Hin.
  rewrite (deleteInvoice_zero_deletes_all env0 store1
             (sample_request "0" token0 "") Htok eq_refl eq_refl i Hin).
  reflexivity.
Defined.

(** A delete whose path id is not [0] leaves the invoices with another
    key and the charges of other invoices as they were. *)
Theorem deleteInvoice_frame (e : Env) (db : DB) (r : Request) :
  checkCSRFToken (Header_Get (req_Header r) "X-CSRF-Token"%string) = true ->
  fst (strconv_Atoi (Vars_id r)) <> 0 ->
  let id := fst (strconv_Atoi (Vars_id r)) in
  let db' := snd (deleteInvoice e db r) in
  (forall i, Invoice_ID i <> id ->
             (In i (invoices db') <-> In i (invoices db))) /\
  (forall c, InvoiceID c <> id ->
             (In c (charges db') <-> In c (charges db))).
Proof.
  intros Htok Hid id db'. subst db'.
  rewrite (deleteInvoice_accepted e db r Htok). cbn [snd]. fold id.
  split.
  - intros i Hi. unfold gorm_Delete_Invoice.
    destruct (next_fails e _); cbn [invoices log_call with_tables];
      rewrite ?invoices_gorm_Delete_Charges; [reflexivity|].
    apply (map_frame _ (fun j => Invoice_ID j =? id)).
    + intros y Hy. unfold key_matches. cbn.
      destruct (Z.eqb_spec id 0); [contradiction|].
      fold (Invoice_ID y). rewrite Hy. now rewrite andb_false_r.
    + intros y. now destruct (_ && _).
    + now apply Z.eqb_neq.
  - intros c Hc. rewrite charges_gorm_Delete_Invoice.
    unfold gorm_Delete_Charges.
    destruct (next_fails e db); cbn [charges log_call with_tables];
      [reflexivity|].
    apply (map_frame _ (fun j => InvoiceID j =? id)).
    + intros y Hy. rewrite Hy. now rewrite andb_false_r.
    + intros y. now destruct (_ && _).
    + now apply Z.eqb_neq.
Qed.

Lemma deleteInvoice_frame_witness :
  In invoice2 (invoices (snd (deleteInvoice env0 store1
                                            (sample_request "1" token0 "")))).
Proof.
  assert (Htok : checkCSRFToken
                   (Header_Get (req_Header (sample_request "1" token0 ""))
                               "X-CSRF-Token"%string) = true)
    by (vm_compute; reflexivity).
  assert (Hid : fst (strconv_Atoi (Vars_id (sample_request "1" token0 ""))) <> 0)
    by (vm_compute; discriminate).
  destruct (deleteInvoice_frame env0 store1 (sample_request "1" token0 "")
              Htok Hid) as [Hinv _].
  assert (Hkey : Invoice_ID invoice2
                 <> fst (strconv_Atoi (Vars_id (sample_request "1" token0 ""))))
    by (vm_compute; discriminate).
  apply (proj2 (Hinv invoice2 Hkey)).
  right; left; reflexivity.
Defined.

(* ================================================================= *)
(** * Further properties: routing *)

Lemma dispatch_in_route (rs : list Route) (method path : gostring)
      (h : Handler) (v : gostring) :
  dispatch_in rs method path = Some (h, v) ->
  exists rt, In rt rs /\ r_handler rt = h /\ r_method rt = method /\
             match_path rt path = Some v.
Proof.
  induction rs as [|rt rs IH]; cbn [dispatch_in]; [discriminate|].
  destruct (match_path rt path) as [v'|] eqn:Em.
  - destruct (str_eqb (r_method rt) method) eqn:Eq.
    + intros [= <- <-]. apply str_eqb_eq in Eq.
      exists rt. repeat split; auto. now left.
    + intros H. destruct (IH H) as (rt' & Hin & Hrest).
      exists rt'. split; [now right|exact Hrest].
  - intros H. destruct (IH H) as (rt' & Hin & Hrest).
    exists rt'. split; [now right|exact Hrest].
Qed.

Lemma strip_prefix_app (p s rest : gostring) :
  strip_prefix p s = Some rest -> s = p ++ rest.
Proof.
  revert s. induction p as [|x p IH]; intros [|y s]; cbn [strip_prefix];
    try discriminate.
  - now intros [= <-].
  - now intros [= <-].
  - destruct (Ascii.eqb_spec x y) as [->|_]; [|discriminate].
    intros H. cbn [app]. f_equal. now apply IH.
Qed.

Lemma strip_prefix_self (p rest : gostring) :
  strip_prefix p (p ++ rest) = Some rest.
Proof.
  induction p as [|x p IH]; cbn [app strip_prefix]; [reflexivity|].
  now rewrite Ascii.eqb_refl.
Qed.

Lemma match_var_digits (s : gostring) :
  match_var Digits s = true <-> s <> [] /\ forallb is_digit s = true.
Proof.
  destruct s as [|c s]; cbn [match_var].
  - split; [discriminate|]. now intros [H _].
  - split; [intros H; split; [discriminate|exact H]|now intros [_ H]].
Qed.

(** The handlers that read [vars["id"]] are only reached with an id made
    of one or more decimal digits, so [strconv.Atoi] gives them the number
    written there, or the largest [int] when it does not fit. *)
Theorem routed_id_is_number (method path : gostring) (h : Handler)
        (id : gostring) :
  dispatch method path = Some (h, id) ->
  h = H_getInvoice \/ h = H_putInvoice \/ h = H_deleteInvoice ->
  id <> [] /\ forallb is_digit id = true /\
  fst (strconv_Atoi id) = Z.min (digits_value id 0) maxInt64 /\
  0 <= fst (strconv_Atoi id) <= maxInt64.
Proof.
  intros Hd Hh. apply dispatch_in_route in Hd as (rt & Hin & Hrt & _ & Hm).
  assert (Hv : r_var rt = Some Digits).
  { cbn in Hin.
    repeat (destruct Hin as [<-|Hin];
            [cbn in Hrt; try reflexivity;
             subst h; destruct Hh as [?|[?|?]]; discriminate|]).
    destruct Hin. }
  unfold match_path in Hm. destruct (strip_prefix _ _) as [rest|]; [|discriminate].
  rewrite Hv in Hm. destruct (match_var Digits rest) eqn:Ev; [|discriminate].
  injection Hm as ->. apply match_var_digits in Ev as [Hne Hdig].
  rewrite (strconv_Atoi_digits id Hne Hdig). cbn [fst].
  repeat split; auto.
  - pose proof (digits_value_nonneg id 0 Hdig). unfold maxInt64. lia.
  - lia.
Qed.

Lemma routed_id_is_number_witness :
  fst (strconv_Atoi (list_ascii_of_string "0042")) = Z.min 42 maxInt64.
Proof.
  apply (routed_id_is_number (list_ascii_of_string "PUT")
           (list_ascii_of_string "/invoice/0042") H_putInvoice
           (list_ascii_of_string "0042") eq_refl).
  right; left; reflexivity.
Defined.

Lemma match_var_d (s : gostring) : match_var Digits ("d"%char :: s) = false.
Proof. reflexivity. Qed.

#[local] Arguments match_var _ _ : simpl never.

(** [deleteInvoice] is reached by [DELETE /invoice/<digits>] and also by
    [GET /invoice/delete/<digits>], and by no other request. *)
Theorem delete_routes (method path id : gostring) :
  dispatch method path = Some (H_deleteInvoice, id) <->
  id <> [] /\ forallb is_digit id = true /\
  ((method = list_ascii_of_string "DELETE"
    /\ path = list_ascii_of_string "/invoice/" ++ id)
   \/ (method = list_ascii_of_string "GET"
       /\ path = list_ascii_of_string "/invoice/delete/" ++ id)).
Proof.
  split.
  - intros Hd. apply dispatch_in_route in Hd as (rt & Hin & Hrt & Hmeth & Hm).
    cbn in Hin.
    repeat (destruct Hin as [<-|Hin]; [try discriminate Hrt|]);
      [ | | destruct Hin ];
      unfold match_path in Hm; cbn [r_prefix r_var] in Hm;
      destruct (strip_prefix _ path) as [rest|] eqn:Es; try discriminate;
      destruct (match_var Digits rest) eqn:Ev; try discriminate;
      injection Hm as ->; apply match_var_digits in Ev as [Hne Hdig];
      apply strip_prefix_app in Es; cbn [r_method] in Hmeth;
      repeat split; auto.
  - intros (Hne & Hdig & [[-> ->]|[-> ->]]);
      assert (Hv : match_var Digits id = true)
        by (now apply match_var_digits);
      unfold dispatch, routes; cbn; rewrite ?match_var_d; now rewrite Hv.
Qed.

(* ================================================================= *)
(** * Further properties: the CSRF token *)

Lemma split_byte_length (sep : ascii) (s : gostring) :
  List.length (split_byte sep s) = S (count_occ ascii_dec s sep).
Proof.
  induction s as [|c s IH]; [reflexivity|].
  cbn [split_byte count_occ].
  destruct (Ascii.eqb_spec c sep) as [->|Hne].
  - destruct (ascii_dec sep sep); [|congruence]. cbn [List.length]. now rewrite IH.
  - destruct (ascii_dec c sep); [congruence|].
    destruct (split_byte sep s) as [|p ps] eqn:E;
      [now apply split_byte_nonempty in E|].
    cbn [List.length] in *. exact IH.
Qed.

(** A token is accepted only if it holds exactly one [$]: the empty
    token, a token without separator and a token with two separators are
    all rejected. *)
Theorem checkCSRFToken_one_separator (token : gostring) :
  checkCSRFToken token = true ->
  count_occ ascii_dec token "$"%char = 1%nat.
Proof.
  intros H.
  destruct (Nat.eq_dec (List.length (strings_Split token "$"%string)) 2)
    as [E|E]; [|now rewrite (checkCSRFToken_not_two _ E) in H].
  cbn [strings_Split list_ascii_of_string] in E.
  rewrite split_byte_length in E. lia.
Qed.

Lemma checkCSRFToken_one_separator_witness :
  count_occ ascii_dec (list_ascii_of_string token0) "$"%char = 1%nat.
Proof.
  assert (H : checkCSRFToken (list_ascii_of_string token0) = true)
    by (vm_compute; reflexivity).
  exact (checkCSRFToken_one_separator (list_ascii_of_string token0) H).
Defined.

(** A message sent with anything but its MAC under the process key is
    rejected. *)
Theorem checkCSRFToken_rejects_wrong_mac (m mac : gostring) :
  mac <> hmac_sha256 CSRFKey m ->
  checkCSRFToken (base64_EncodeToString m ++ "$"%string
                  ++ base64_EncodeToString mac) = false.
Proof.
  intros Hne.
  rewrite (checkCSRFToken_parts _ _ _
             (split_token _ _ (encode_no_dollar _) (encode_no_dollar _))).
  rewrite !base64_roundtrip. cbn [fst].
  destruct (hmac_Equal mac (hmac_sha256 CSRFKey m)) eqn:E; [|reflexivity].
  apply str_eqb_eq in E. contradiction.
Qed.

Lemma checkCSRFToken_rejects_wrong_mac_witness :
  checkCSRFToken (base64_EncodeToString (list_ascii_of_string "msg")
                  ++ "$"%string
                  ++ base64_EncodeToString (list_ascii_of_string "mac"))
  = false.
Proof.
  apply (checkCSRFToken_rejects_wrong_mac (list_ascii_of_string "msg")
           (list_ascii_of_string "mac")).
  vm_compute. discriminate.
Defined.

Lemma sha_round_length (h : list Z) (kw : Z * Z) :
  List.length (sha_round h kw) = List.length h.
Proof.
  unfold sha_round.
  destruct h as [|a [|b [|c [|d [|e [|f [|g [|hh [|x h]]]]]]]]]; reflexivity.
Qed.

Lemma sha_rounds_length (kws : list (Z * Z)) :
  forall h, List.length (fold_left sha_round kws h) = List.length h.
Proof.
  induction kws as [|kw kws IH]; intros h; [reflexivity|].
  cbn [fold_left]. now rewrite IH, sha_round_length.
Qed.

Lemma sha_block_length (h : list Z) (blk : gostring) :
  List.length (sha_block h blk) = List.length h.
Proof.
  unfold sha_block.
  rewrite length_map, length_combine, sha_rounds_length. lia.
Qed.

Lemma sha_blocks_length (n : nat) :
  forall h b, List.length (sha_blocks n h b) = List.length h.
Proof.
  induction n as [|n IH]; intros h b; [reflexivity|].
  cbn [sha_blocks]. now rewrite IH, sha_block_length.
Qed.

Lemma flat_be_bytes_length (ws : list Z) :
  List.length (flat_map (be_bytes 4) ws) = (4 * List.length ws)%nat.
Proof.
  induction ws as [|w ws IH]; [reflexivity|].
  cbn [flat_map]. rewrite length_app, IH. cbn [be_bytes List.length]. lia.
Qed.

(** A SHA-256 digest, and so an HMAC-SHA256, is 32 bytes. *)
Lemma sha256_length (msg : gostring) : List.length (sha256 msg) = 32%nat.
Proof.
  unfold sha256. now rewrite flat_be_bytes_length, sha_blocks_length.
Qed.

Lemma hmac_sha256_length (key msg : gostring) :
  List.length (hmac_sha256 key msg) = 32%nat.
Proof. unfold hmac_sha256. apply sha256_length. Qed.

Lemma encode_len (m : gostring) :
  len (base64_EncodeToString m) = 4 * ((len m + 2) / 3).
Proof.
  induction m as [|a|a b|a b c m IH] using list_ind3.
  - reflexivity.
  - reflexivity.
  - reflexivity.
  - cbn [base64_EncodeToString]. unfold len in *. cbn [List.length].
    replace (Z.of_nat (S (S (S (S (List.length (base64_EncodeToString m)))))))
      with (4 + Z.of_nat (List.length (base64_EncodeToString m))) by lia.
    rewrite IH.
    replace (Z.of_nat (S (S (S (List.length m)))) + 2)
      with (Z.of_nat (List.length m) + 2 + 1 * 3) by lia.
    rewrite Z.div_add by lia. lia.
Qed.

(** The token [createCSRFToken] returns is 89 bytes: 44 that decode to
    the 32 random bytes, one [$], and 44 that decode to the 32 bytes of
    their MAC. *)
Theorem createCSRFToken_shape (e : Env) :
  len (createCSRFToken e) = 89 /\
  exists p1 p2,
    strings_Split (createCSRFToken e) "$"%string = [p1; p2] /\
    len p1 = 44 /\ len p2 = 44 /\
    base64_DecodeString p1 = (rand_Read e 32, false) /\
    List.length (rand_Read e 32) = 32%nat /\
    base64_DecodeString p2 = (hmac_sha256 CSRFKey (rand_Read e 32), false) /\
    List.length (hmac_sha256 CSRFKey (rand_Read e 32)) = 32%nat.
Proof.
  unfold createCSRFToken.
  assert (L1 : len (base64_EncodeToString (rand_Read e 32)) = 44).
  { rewrite encode_len. unfold len. now rewrite rand_Read_length. }
  assert (L2 : len (base64_EncodeToString
                      (hmac_sha256 CSRFKey (rand_Read e 32))) = 44).
  { rewrite encode_len. unfold len. now rewrite hmac_sha256_length. }
  split.
  - rewrite !len_app, L1, L2. reflexivity.
  - eexists _, _. split; [apply split_token; apply encode_no_dollar|].
    repeat split; auto using base64_roundtrip, rand_Read_length,
                             hmac_sha256_length.
Qed.

(* ================================================================= *)
(** * Further properties: the index page *)

Lemma requestBasicAuth_challenge : requestBasicAuth new_writer = challenge.
Proof. reflexivity. Qed.

Lemma slice_some (s : gostring) (lo hi : Z) :
  0 <= lo <= hi -> hi <= len s -> exists t, slice s lo hi = Some t.
Proof.
  intros H1 H2. unfold slice.
  destruct (Z.leb_spec 0 lo); [|lia].
  destruct (Z.leb_spec lo hi); [|lia].
  destruct (Z.leb_spec hi (len s)); [|lia].
  cbn [andb]. eauto.
Qed.

(** A request without an [Authorization] header (under any spelling of
    the name), with one shorter than eight bytes, with one that does not
    start with [Basic], or with one whose credential is not valid base64,
    is answered 401 with the body [please authenticate] and the challenge
    [Basic realm="invoicer"], filed under [Www-Authenticate], the canonical
    form of the name the code gives to [Header().Set]. *)
Theorem getIndex_challenges_bad_header (e : Env) (r : Request) :
  let auth := Header_Get (req_Header r) "Authorization"%string in
  ~ In (CanonicalMIMEHeaderKey "Authorization"%string)
       (header_names (req_Header r))
  \/ len auth < 8
  \/ slice auth 0 5 <> Some (list_ascii_of_string "Basic")
  \/ (exists enc, slice_from auth 6 = Some enc
                  /\ snd (base64_DecodeString enc) = true) ->
  getIndex e r = Done challenge /\
  w_status challenge = 401 /\
  Header_Get (w_Header challenge) "WWW-Authenticate"%string
  = quoted "Basic realm='invoicer'" /\
  map fst (w_Header challenge) = [list_ascii_of_string "Www-Authenticate"].
Proof.
  intros auth H. split; [|repeat split].
  unfold getIndex. fold auth.
  rewrite requestBasicAuth_challenge.
  destruct (Z.ltb_spec (len auth) 8) as [|Hlen]; [reflexivity|].
  destruct (slice_some auth 0 5) as [scheme Hs]; [lia|lia|].
  rewrite Hs in *.
  destruct H as [H|[H|[H|H]]].
  - exfalso. subst auth. rewrite (Header_Get_absent _ _ H) in Hlen.
    cbn in Hlen. lia.
  - lia.
  - destruct (str_eqb scheme "Basic"%string) eqn:E; [|reflexivity].
    apply str_eqb_eq in E. subst scheme. congruence.
  - destruct H as (enc & Henc & Herr).
    destruct (negb (str_eqb scheme "Basic"%string)); [reflexivity|].
    rewrite Henc. destruct (base64_DecodeString enc) as [b err].
    cbn [snd] in Herr. now subst err.
Qed.

Lemma getIndex_challenges_bad_header_witness :
  getIndex env0 (request_with_auth "Bearer c2FtYW50aGE6MW5zM2N1cjM=")
  = Done challenge /\
  getIndex env0 (sample_request "1" token0 "") = Done challenge /\
  getIndex env0 (request_with_auth "Basic c2Ft*W50aGE6MW5zM2N1cjM=")
  = Done challenge.
Proof.
  split; [|split].
  - apply (getIndex_challenges_bad_header env0
             (request_with_auth "Bearer c2FtYW50aGE6MW5zM2N1cjM=")).
    right; right; left. vm_compute. discriminate.
  - apply (getIndex_challenges_bad_header env0 (sample_request "1" token0 "")).
    left. not_in_string.
  - apply (getIndex_challenges_bad_header env0
             (request_with_auth "Basic c2Ft*W50aGE6MW5zM2N1cjM=")).
    right; right; right.
    exists (list_ascii_of_string "c2Ft*W50aGE6MW5zM2N1cjM="). split; reflexivity.
Defined.

(** The header is read under any spelling of its name: the expected
    credential sent as [authorization] is served the page. *)
Example getIndex_header_any_case :
  w_status
    (written
       (getIndex env0
          {| req_Header := [(list_ascii_of_string "authorization",
                             list_ascii_of_string
                               "Basic c2FtYW50aGE6MW5zM2N1cjM=")];
             Vars_id := []; Body := inl [] |}))
  = 200.
Proof. vm_compute. reflexivity. Qed.

(** Whenever [getIndex] serves the page (status 200), the response
    carries the two security headers, the body is the page around a token,
    and a delete request that sends this token back in [X-CSRF-Token] is
    let through (202) in any environment and on any store. *)
Theorem index_token_authorizes_delete (e : Env) (r : Request)
        (w : ResponseWriter) :
  getIndex e r = Done w -> w_status w = 200 ->
  w_Header w = [(list_ascii_of_string "Content-Security-Policy",
                 list_ascii_of_string "default-src 'self';");
                (list_ascii_of_string "X-Frame-Options",
                 list_ascii_of_string "SAMEORIGIN")] /\
  exists token,
    w_body w = index_page token /\
    forall e' db r',
      Header_Get (req_Header r') "X-CSRF-Token"%string = token ->
      exists w', fst (deleteInvoice e' db r') = Done w' /\ w_status w' = 202.
Proof.
  unfold getIndex. intros H Hst.
  assert (Hno : forall o, o = Done w -> o <> Done (requestBasicAuth new_writer)).
  { intros o -> [= Hw]. rewrite Hw in Hst. discriminate Hst. }
  destruct (len _ <? 8); [now apply Hno in H|].
  destruct (slice _ 0 5) as [scheme|]; [|discriminate].
  destruct (negb (str_eqb scheme _)); [now apply Hno in H|].
  destruct (slice_from _ 6) as [enc|]; [|discriminate].
  destruct (base64_DecodeString enc) as [authstr err].
  destruct err; [now apply Hno in H|].
  destruct (slice authstr 0 _) as [u|]; [|discriminate].
  destruct (slice_from authstr _) as [p|]; [|discriminate].
  destruct (_ && _); [now apply Hno in H|].
  injection H as <-. split; [reflexivity|].
  exists (createCSRFToken e). split; [reflexivity|].
  intros e' db r' Htok.
  rewrite (deleteInvoice_accepted e' db r');
    [eexists; split; reflexivity|].
  rewrite Htok. unfold createCSRFToken. apply signed_message_verifies.
Qed.

Lemma index_token_authorizes_delete_witness :
  exists token,
    w_body (written (getIndex env0 (request_with_auth
                                      "Basic c2FtYW50aGE6MW5zM2N1cjM=")))
    = index_page token /\
    forall e' db r',
      Header_Get (req_Header r') "X-CSRF-Token"%string = token ->
      exists w', fst (deleteInvoice e' db r') = Done w' /\ w_status w' = 202.
Proof.
  assert (Hrun : getIndex env0 (request_with_auth
                                  "Basic c2FtYW50aGE6MW5zM2N1cjM=")
                 = Done (written (getIndex env0 (request_with_auth
                                     "Basic c2FtYW50aGE6MW5zM2N1cjM="))))
    by (vm_compute; reflexivity).
  assert (Hst : w_status (written (getIndex env0 (request_with_auth
                                     "Basic c2FtYW50aGE6MW5zM2N1cjM=")))
                = 200)
    by (vm_compute; reflexivity).
  exact (proj2 (index_token_authorizes_delete env0 _ _ Hrun Hst)).
Defined.

(* ================================================================= *)
(** * Further properties: reading and updating invoices *)

Lemma find_absent {A} (P : A -> bool) (l : list A) :
  (forall x, In x l -> P x = false) -> find P l = None.
Proof.
  induction l as [|x l IH]; intros H; [reflexivity|].
  cbn [find]. rewrite (H x) by now left.
  apply IH. intros y Hy. apply H. now right.
Qed.

Lemma find_unique {A} (key : A -> Z) (P : A -> bool) (l : list A) (row : A) :
  NoDup (map key l) -> In row l -> P row = true ->
  (forall x, In x l -> P x = true -> key x = key row) ->
  find P l = Some row.
Proof.
  induction l as [|x l IH]; intros Hnd Hin HP Hkey; [destruct Hin|].
  cbn [find]. cbn [map] in Hnd. apply NoDup_cons_iff in Hnd as [Hx Hnd].
  destruct (P x) eqn:Ex.
  - destruct Hin as [->|Hin]; [reflexivity|].
    exfalso. apply Hx. rewrite (Hkey x (or_introl eq_refl) Ex).
    now apply in_map.
  - destruct Hin as [->|Hin]; [congruence|].
    apply IH; auto. intros y Hy. apply Hkey. now right.
Qed.

(** The row [db.First] loads into a fresh struct. *)
Lemma gorm_First_found (e : Env) (db : DB) (id : Z) (row : Invoice) :
  next_fails e db = false ->
  NoDup (map Invoice_ID (invoices db)) ->
  In row (invoices db) -> visible (Invoice_Model row) = true ->
  Invoice_ID row = id ->
  gorm_First e db zero_Invoice id
  = (log_call (First_Invoice id) db, set_Charges row []).
Proof.
  intros Hok Hnd Hin Hv Hid. unfold gorm_First. rewrite Hok.
  rewrite (find_unique Invoice_ID _ _ row Hnd Hin).
  - reflexivity.
  - rewrite Hv, Hid, Z.eqb_refl. reflexivity.
  - intros x _ Hx. apply andb_true_iff in Hx as [Hx _].
    apply andb_true_iff in Hx as [_ Hx]. apply Z.eqb_eq in Hx. lia.
Qed.

Lemma gorm_First_missing (e : Env) (db : DB) (out : Invoice) (id : Z) :
  (forall row, In row (invoices db) -> visible (Invoice_Model row) = true ->
               Invoice_ID row <> id) ->
  gorm_First e db out id = (log_call (First_Invoice id) db, out).
Proof.
  intros H. unfold gorm_First. destruct (next_fails e db); [reflexivity|].
  rewrite find_absent; [reflexivity|].
  intros x Hx. destruct (visible (Invoice_Model x)) eqn:Hv; [|reflexivity].
  destruct (Z.eqb_spec (Invoice_ID x) id) as [E|_]; [|reflexivity].
  now apply (H x Hx Hv) in E.
Qed.

(** [getInvoice] for a key no live invoice has (never issued, or
    deleted) answers 404 [No invoice id <id>], whether or not the store can
    be reached; it makes the one lookup and reads no charges. *)
Theorem getInvoice_missing_404
        (json_Marshal : Invoice -> gostring + gostring)
        (e : Env) (db : DB) (r : Request) :
  (forall row, In row (invoices db) -> visible (Invoice_Model row) = true ->
               Invoice_ID row <> fst (strconv_Atoi (Vars_id r))) ->
  getInvoice json_Marshal e db r
  = (Done {| w_Header := []; w_status := 404;
             w_body := list_ascii_of_string "No invoice id " ++ Vars_id r |},
     log_call (First_Invoice (fst (strconv_Atoi (Vars_id r)))) db).
Proof.
  intros H. unfold getInvoice.
  now rewrite (gorm_First_missing e db zero_Invoice _ H).
Qed.

Lemma getInvoice_missing_404_witness :
  getInvoice json_Marshal_texts env0 store1 (sample_request "7" token0 "")
  = (Done {| w_Header := []; w_status := 404;
             w_body := list_ascii_of_string "No invoice id 7" |},
     log_call (First_Invoice 7) store1).
Proof.
  apply (getInvoice_missing_404 json_Marshal_texts env0 store1
           (sample_request "7" token0 "")).
  intros row [<-|[<-|[]]] _; vm_compute; discriminate.
Defined.

Lemma getInvoice_found
        (json_Marshal : Invoice -> gostring + gostring)
        (e : Env) (db : DB) (r : Request) (row : Invoice) (js : gostring) :
  let id := fst (strconv_Atoi (Vars_id r)) in
  NoDup (map Invoice_ID (invoices db)) ->
  In row (invoices db) -> visible (Invoice_Model row) = true ->
  Invoice_ID row = id -> id <> 0 ->
  fails e (List.length (calls db)) = false ->
  fails e (S (List.length (calls db))) = false ->
  json_Marshal
    (set_Charges row
       (map escape_charge
            (filter (fun c => live_charge c && (InvoiceID c =? id))
                    (charges db)))) = inl js ->
  getInvoice json_Marshal e db r
  = (Done (json_response js),
     log_call (Find_Charges id) (log_call (First_Invoice id) db)).
Proof.
  intros id Hnd Hin Hv Hid Hne Hok1 Hok2 Hjs. unfold getInvoice. fold id.
  rewrite (gorm_First_found e db id row Hok1 Hnd Hin Hv Hid).
  replace (Invoice_ID (set_Charges row [])) with id by (symmetry; exact Hid).
  destruct (Z.eqb_spec id 0); [contradiction|].
  unfold gorm_Find_Charges. rewrite next_fails_log_call, Hok2.
  cbn [charges log_call Charges set_Charges].
  change (set_Charges (set_Charges row [])
            (map escape_charge
                 (filter (fun c => visible (Charge_Model c) && (InvoiceID c =? id))
                         (charges db))))
    with (set_Charges row
            (map escape_charge
                 (filter (fun c => live_charge c && (InvoiceID c =? id))
                         (charges db)))).
  now rewrite Hjs.
Qed.

(** [getInvoice] for the key of a live invoice, on a store with distinct
    keys that answers both calls: the response is 200 with the JSON
    content type and the open CORS header, and its body is the encoding
    of that row with its live charges, [type] and [description] escaped. *)
Theorem getInvoice_found_200
        (json_Marshal : Invoice -> gostring + gostring)
        (e : Env) (db : DB) (r : Request) (row : Invoice) (js : gostring) :
  let id := fst (strconv_Atoi (Vars_id r)) in
  NoDup (map Invoice_ID (invoices db)) ->
  In row (invoices db) -> visible (Invoice_Model row) = true ->
  Invoice_ID row = id -> id <> 0 ->
  fails e (List.length (calls db)) = false ->
  fails e (S (List.length (calls db))) = false ->
  json_Marshal
    (set_Charges row
       (map escape_charge
            (filter (fun c => live_charge c && (InvoiceID c =? id))
                    (charges db)))) = inl js ->
  getInvoice json_Marshal e db r
  = (Done (json_response js),
     log_call (Find_Charges id) (log_call (First_Invoice id) db)).
Proof. intros id. subst id. apply getInvoice_found. Qed.

Lemma getInvoice_found_200_witness :
  getInvoice json_Marshal_texts env0 store1 (sample_request "1" token0 "")
  = (Done (json_response
             (list_ascii_of_string
                "&lt;b&gt;fee&lt;/b&gt;|&lt;script&gt;x&lt;/script&gt;;tax|a &gt; b;")),
     log_call (Find_Charges 1) (log_call (First_Invoice 1) store1)).
Proof.
  apply (getInvoice_found_200 json_Marshal_texts env0 store1
           (sample_request "1" token0 "") invoice1).
  - repeat constructor; cbn; intuition discriminate.
  - now left.
  - reflexivity.
  - reflexivity.
  - vm_compute; discriminate.
  - reflexivity.
  - reflexivity.
  - vm_compute; reflexivity.
Defined.

(** A create whose body cannot be read or does not parse is answered 400
    and the store is returned as it was: no call is made on it. *)
Theorem postInvoice_malformed_400
        (json_Unmarshal : gostring -> Invoice -> Invoice + gostring)
        (e : Env) (db : DB) (r : Request) :
  (forall body i, Body r = inl body ->
                  json_Unmarshal body zero_Invoice <> inl i) ->
  exists msg,
    postInvoice json_Unmarshal e db r
    = (Done {| w_Header := []; w_status := 400; w_body := msg |}, db).
Proof.
  intros H. unfold postInvoice. destruct (Body r) as [body|err].
  - destruct (json_Unmarshal body zero_Invoice) as [i|err] eqn:E.
    + now destruct (H body i eq_refl).
    + eexists; reflexivity.
  - eexists; reflexivity.
Qed.

Lemma postInvoice_malformed_400_witness :
  exists msg,
    postInvoice json_Unmarshal_braces env0 store1
                (sample_request "1" token0 "{")
    = (Done {| w_Header := []; w_status := 400; w_body := msg |}, store1).
Proof.
  apply (postInvoice_malformed_400 json_Unmarshal_braces env0 store1
           (sample_request "1" token0 "{")).
  intros body i [= <-]. discriminate.
Defined.

(** An update for a key no live invoice has answers 404 after the one
    lookup: the body is not read and [Save] is not called. *)
Theorem putInvoice_missing_404
        (json_Unmarshal : gostring -> Invoice -> Invoice + gostring)
        (save_rows : time_Time -> DB -> Invoice -> DB * Invoice)
        (e : Env) (db : DB) (r : Request) :
  (forall row, In row (invoices db) -> visible (Invoice_Model row) = true ->
               Invoice_ID row <> digits_value (Vars_id r) 0) ->
  putInvoice json_Unmarshal save_rows e db r
  = (Done {| w_Header := []; w_status := 404;
             w_body := list_ascii_of_string "No invoice id " ++ Vars_id r |},
     log_call (First_Invoice (digits_value (Vars_id r) 0)) db).
Proof.
  intros H. unfold putInvoice.
  now rewrite (gorm_First_missing e db zero_Invoice _ H).
Qed.

Lemma putInvoice_missing_404_witness :
  putInvoice json_Unmarshal_braces save_rows_none env0 store1
             (sample_request "7" token0 "{}")
  = (Done {| w_Header := []; w_status := 404;
             w_body := list_ascii_of_string "No invoice id 7" |},
     log_call (First_Invoice 7) store1).
Proof.
  apply (putInvoice_missing_404 json_Unmarshal_braces save_rows_none env0
           store1 (sample_request "7" token0 "{}")).
  intros row [<-|[<-|[]]] _; vm_compute; discriminate.
Defined.



(* ================================================================= *)
(** * Further properties: creating and deleting invoices *)

Lemma save_charges_fresh (t : time_Time) (owner : Z) (cs : list Charge) :
  Forall (fun c => Charge_ID c = 0) cs ->
  forall rows seq,
    save_charges t owner (rows, seq) cs
    = ((rows ++ fresh_charges t owner seq cs,
        seq + Z.of_nat (List.length cs)),
       fresh_charges t owner seq cs).
Proof.
  induction 1 as [|c cs Hc _ IH]; intros rows seq.
  - cbn. now rewrite app_nil_r, Z.add_0_r.
  - cbn [save_charges fresh_charges]. unfold save_charge at 1.
    replace (Charge_ID (set_InvoiceID c owner)) with 0 by (symmetry; exact Hc).
    cbn [Z.eqb]. rewrite IH. rewrite <- app_assoc. cbn [app List.length].
    replace (seq + 1 + Z.of_nat (List.length cs))
      with (seq + Z.of_nat (S (List.length cs))) by lia.
    reflexivity.
Qed.

(** What a successful [db.Create] of an invoice with blank keys does. *)
Lemma gorm_Create_fresh (e : Env) (db : DB) (i : Invoice) :
  next_fails e db = false ->
  Invoice_ID i = 0 ->
  Forall (fun c => Charge_ID c = 0) (Charges i) ->
  let id := invoice_seq db + 1 in
  let new := fresh_charges (now e) id (charge_seq db) (Charges i) in
  gorm_Create e db i
  = (with_tables (log_call (Create_Invoice i) db)
                 (invoices db ++ [created_row (now e) id i])
                 (charges db ++ new)
                 (Z.max (invoice_seq db) id)
                 (charge_seq db + Z.of_nat (List.length (Charges i))),
     set_Charges (set_Invoice_Model i
                    (set_ID (stamp (now e) (Invoice_Model i)) id)) new).
Proof.
  intros Hok Hid Hcs id new. unfold gorm_Create.
  rewrite Hok, Hid. cbn [Z.eqb negb andb].
  now rewrite (save_charges_fresh _ _ _ Hcs).
Qed.

Lemma fresh_charges_keys (t : time_Time) (owner : Z) (cs : list Charge) :
  forall seq c, In c (fresh_charges t owner seq cs) ->
                seq < Charge_ID c <= seq + Z.of_nat (List.length cs)
                /\ InvoiceID c = owner.
Proof.
  induction cs as [|c0 cs IH]; intros seq c; cbn [fresh_charges];
    [intros []|].
  intros [<-|Hin].
  - cbn. lia.
  - apply IH in Hin. cbn [List.length]. lia.
Qed.

Lemma fresh_charges_NoDup (t : time_Time) (owner : Z) (cs : list Charge) :
  forall seq, NoDup (map Charge_ID (fresh_charges t owner seq cs)).
Proof.
  induction cs as [|c0 cs IH]; intros seq; cbn [fresh_charges map];
    constructor; [|apply IH].
  intros Hin. apply in_map_iff in Hin as (c & Hc & Hin).
  apply fresh_charges_keys in Hin. cbn in Hc. lia.
Qed.

Lemma fold_later_row (l : list Invoice) :
  forall init r, fold_left later_row l init = Some r ->
                 In r l \/ init = Some r.
Proof.
  induction l as [|x l IH]; intros init r; cbn [fold_left]; [now right|].
  intros H. apply IH in H as [H|H]; [left; now right|].
  unfold later_row in H. destruct init as [b|].
  - destruct (_ <=? _); [injection H as <-; left; now left|now right].
  - injection H as <-. left; now left.
Qed.

(** [db.Last] on a struct with a key leaves the key as it is. *)
Lemma gorm_Last_key (e : Env) (db : DB) (out : Invoice) :
  Invoice_ID out <> 0 ->
  Invoice_ID (snd (gorm_Last e db out)) = Invoice_ID out.
Proof.
  intros Hne. unfold gorm_Last. destruct (next_fails e db); [reflexivity|].
  destruct (fold_left later_row _ None) as [r|] eqn:E; [|reflexivity].
  apply fold_later_row in E as [E|E]; [|discriminate].
  apply filter_In in E as [_ E]. apply andb_true_iff in E as [_ E].
  unfold key_matches in E. destruct (Z.eqb_spec (Invoice_ID out) 0);
    [contradiction|].
  cbn [orb] in E. apply Z.eqb_eq in E. exact E.
Qed.

Lemma postInvoice_run
      (json_Unmarshal : gostring -> Invoice -> Invoice + gostring)
      (e : Env) (db : DB) (r : Request) (body : gostring) (i : Invoice) :
  Body r = inl body ->
  json_Unmarshal body zero_Invoice = inl i ->
  postInvoice json_Unmarshal e db r
  = (Done {| w_Header := []; w_status := 201;
             w_body := list_ascii_of_string "created invoice "
                       ++ itoa (Invoice_ID
                                  (snd (gorm_Last e
                                          (fst (gorm_Create e db (reset_ids i)))
                                          (snd (gorm_Create e db (reset_ids i))))))
          |},
     log_call (Last_Invoice (snd (gorm_Create e db (reset_ids i))))
              (fst (gorm_Create e db (reset_ids i)))).
Proof.
  intros Hbody Hparse. unfold postInvoice. rewrite Hbody, Hparse.
  destruct (gorm_Create e db (reset_ids i)) as [db1 i1]. cbn [fst snd].
  pose proof (fst_gorm_Last e db1 i1) as HL.
  destruct (gorm_Last e db1 i1) as [db2 i2]. cbn [fst snd] in *.
  now subst db2.
Qed.

Lemma reset_ids_fresh (e : Env) (db : DB) (i : Invoice) :
  next_fails e db = false ->
  let id := invoice_seq db + 1 in
  let new := fresh_charges (now e) id (charge_seq db)
                           (map reset_charge (Charges i)) in
  gorm_Create e db (reset_ids i)
  = (with_tables (log_call (Create_Invoice (reset_ids i)) db)
                 (invoices db ++ [created_row (now e) id (reset_ids i)])
                 (charges db ++ new)
                 (Z.max (invoice_seq db) id)
                 (charge_seq db + Z.of_nat (List.length (Charges i))),
     set_Charges (set_Invoice_Model (reset_ids i)
                    (set_ID (stamp (now e) (Invoice_Model (reset_ids i))) id))
                 new).
Proof.
  intros Hok id new.
  destruct (reset_ids_blank i) as (Hid & Hcs & _).
  assert (Hblank : Forall (fun c => Charge_ID c = 0) (Charges (reset_ids i))).
  { eapply Forall_impl; [|exact Hcs]. now intros c [H _]. }
  rewrite (gorm_Create_fresh e db (reset_ids i) Hok Hid Hblank).
  cbn [Charges reset_ids set_Charges]. now rewrite length_map.
Qed.

(** A create with a well-formed body on a store that answers the
    insertion reports the key the store assigned: the next key of the
    invoice sequence, which is positive, was the key of no row before and
    is the key of a row afterwards. *)
Theorem postInvoice_reports_new_key
        (json_Unmarshal : gostring -> Invoice -> Invoice + gostring)
        (e : Env) (db : DB) (r : Request) (body : gostring) (i : Invoice) :
  keys_ok db ->
  Body r = inl body ->
  json_Unmarshal body zero_Invoice = inl i ->
  fails e (List.length (calls db)) = false ->
  let id := invoice_seq db + 1 in
  fst (postInvoice json_Unmarshal e db r)
  = Done {| w_Header := []; w_status := 201;
            w_body := list_ascii_of_string "created invoice " ++ itoa id |} /\
  0 < id /\
  ~ In id (map Invoice_ID (invoices db)) /\
  In id (map Invoice_ID (invoices (snd (postInvoice json_Unmarshal e db r)))).
Proof.
  intros (_ & Hinv & _ & _ & Hseq & _) Hbody Hparse Hok id.
  rewrite (postInvoice_run json_Unmarshal e db r body i Hbody Hparse).
  rewrite (reset_ids_fresh e db i Hok). cbn [fst snd]. fold id.
  repeat split.
  - rewrite gorm_Last_key; cbn; [reflexivity|lia].
  - lia.
  - intros Hin. apply in_map_iff in Hin as (row & Hrow & Hin).
    rewrite Forall_forall in Hinv. apply Hinv in Hin. lia.
  - cbn [invoices log_call with_tables]. rewrite map_app.
    apply in_app_iff. right. now left.
Qed.

Lemma postInvoice_reports_new_key_witness :
  fst (postInvoice json_Unmarshal_braces env0 store1
                   (sample_request "" token0 "{}"))
  = Done {| w_Header := []; w_status := 201;
            w_body := list_ascii_of_string "created invoice 3" |}.
Proof.
  assert (K : keys_ok store1).
  { unfold keys_ok. cbn.
    repeat split; repeat constructor; cbn; try lia; intuition discriminate. }
  exact (proj1 (postInvoice_reports_new_key json_Unmarshal_braces env0 store1
                  (sample_request "" token0 "{}")
                  (list_ascii_of_string "{}") zero_Invoice
                  K eq_refl eq_refl eq_refl)).
Defined.

(** ** The keys of the store *)

Lemma keys_ok_log_call (c : Call) (db : DB) : keys_ok db -> keys_ok (log_call c db).
Proof. exact (fun H => H). Qed.

Lemma keys_ok_created (e : Env) (db : DB) (i : Invoice) :
  keys_ok db -> keys_ok (fst (gorm_Create e db (reset_ids i))).
Proof.
  intros K. destruct (next_fails e db) eqn:Hok.
  - rewrite (gorm_Create_failed e db _ Hok). exact K.
  - rewrite (reset_ids_fresh e db i Hok). cbn [fst].
    destruct K as (Hnd & Hinv & Hcnd & Hch & Hseq & Hcseq).
    rewrite Forall_forall in Hinv, Hch.
    unfold keys_ok.
    cbn [invoices charges invoice_seq charge_seq with_tables log_call].
    repeat apply conj.
    + rewrite map_app. apply NoDup_app; [exact Hnd|repeat constructor; auto|].
      intros a Ha [Hb|[]]. apply in_map_iff in Ha as (row & Hrow & Hin).
      apply Hinv in Hin. cbn in Hb. lia.
    + apply Forall_app. split; apply Forall_forall.
      * intros row Hin. apply Hinv in Hin. lia.
      * intros row [<-|[]]. cbn. lia.
    + rewrite map_app.
      apply NoDup_app; [exact Hcnd|apply fresh_charges_NoDup|].
      intros a Ha Hb. apply in_map_iff in Ha as (c & <- & Hin).
      apply in_map_iff in Hb as (c' & Hc' & Hin').
      apply Hch in Hin. apply fresh_charges_keys in Hin'. lia.
    + apply Forall_app. split; apply Forall_forall.
      * intros c Hin. apply Hch in Hin. lia.
      * intros c Hin. apply fresh_charges_keys in Hin.
        rewrite length_map in Hin. lia.
    + lia.
    + lia.
Qed.

Lemma keys_ok_deleted_charges (e : Env) (db : DB) (id : Z) :
  keys_ok db -> keys_ok (gorm_Delete_Charges e db id).
Proof.
  intros K. unfold gorm_Delete_Charges.
  destruct (next_fails e db); [exact K|].
  destruct K as (Hnd & Hinv & Hcnd & Hch & Hseq & Hcseq).
  unfold keys_ok.
  cbn [invoices charges invoice_seq charge_seq with_tables log_call].
  repeat apply conj; auto.
  - rewrite map_map.
    erewrite map_ext; [exact Hcnd|]. intros c. now destruct (_ && _).
  - apply Forall_map. eapply Forall_impl; [|exact Hch].
    intros c H. now destruct (_ && _).
Qed.

Lemma keys_ok_deleted_invoice (e : Env) (db : DB) (i : Invoice) :
  keys_ok db -> keys_ok (gorm_Delete_Invoice e db i).
Proof.
  intros K. unfold gorm_Delete_Invoice.
  destruct (next_fails e db); [exact K|].
  destruct K as (Hnd & Hinv & Hcnd & Hch & Hseq & Hcseq).
  unfold keys_ok.
  cbn [invoices charges invoice_seq charge_seq with_tables log_call].
  repeat apply conj; auto.
  - rewrite map_map.
    erewrite map_ext; [exact Hnd|]. intros r. now destruct (_ && _).
  - apply Forall_map. eapply Forall_impl; [|exact Hinv].
    intros r H. now destruct (_ && _).
Qed.

(** The handlers keep the store well keyed, whatever the request and
    whichever calls fail: after a create, a delete or a read the keys of
    each table are still distinct, positive and within the table's
    sequence, and no charge points beyond the invoice sequence. *)
Theorem keys_ok_preserved
        (json_Unmarshal : gostring -> Invoice -> Invoice + gostring)
        (json_Marshal : Invoice -> gostring + gostring)
        (e : Env) (db : DB) (r : Request) :
  keys_ok db ->
  keys_ok (snd (postInvoice json_Unmarshal e db r)) /\
  keys_ok (snd (deleteInvoice e db r)) /\
  keys_ok (snd (getInvoice json_Marshal e db r)).
Proof.
  intros K. split; [|split].
  - unfold postInvoice. destruct (Body r) as [body|err]; [|exact K].
    destruct (json_Unmarshal body zero_Invoice) as [i|err]; [|exact K].
    pose proof (keys_ok_created e db i K) as K1.
    destruct (gorm_Create e db (reset_ids i)) as [db1 i1]. cbn [fst] in K1.
    pose proof (fst_gorm_Last e db1 i1) as HL.
    destruct (gorm_Last e db1 i1) as [db2 i2]. cbn [fst snd] in *.
    subst db2. exact K1.
  - unfold deleteInvoice. destruct (checkCSRFToken _); cbn [negb snd];
      [|exact K].
    now apply keys_ok_deleted_invoice, keys_ok_deleted_charges.
  - unfold getInvoice.
    pose proof (fst_gorm_First e db zero_Invoice
                  (fst (strconv_Atoi (Vars_id r)))) as HF.
    destruct (gorm_First e db zero_Invoice _) as [db1 i1].
    cbn [fst] in HF. subst db1.
    destruct (Invoice_ID i1 =? 0); [exact K|].
    pose proof (fst_gorm_Find_Charges e (log_call (First_Invoice
                  (fst (strconv_Atoi (Vars_id r)))) db)
                  (Charges i1) (Invoice_ID i1)) as HF2.
    destruct (gorm_Find_Charges e _ (Charges i1) (Invoice_ID i1)) as [db2 cs].
    cbn [fst] in HF2. subst db2.
    destruct (json_Marshal _); exact K.
Qed.

Lemma store1_keys_ok : keys_ok store1.
Proof.
  unfold keys_ok. cbn.
  repeat split; repeat constructor; cbn; try lia; intuition discriminate.
Qed.

Lemma keys_ok_preserved_witness :
  keys_ok (snd (postInvoice json_Unmarshal_braces env0 store1
                            (sample_request "" token0 "{}"))).
Proof.
  exact (proj1 (keys_ok_preserved json_Unmarshal_braces json_Marshal_texts
                  env0 store1 (sample_request "" token0 "{}")
                  store1_keys_ok)).
Defined.

(** ** Create then read, delete then read *)

Lemma is_digit_byte (x : Z) : 0 <= x < 10 -> is_digit (byte_of (48 + x)) = true.
Proof.
  intros H. unfold is_digit. rewrite byte_val_of by lia.
  apply andb_true_iff. split; apply Z.leb_le; lia.
Qed.

Lemma digits_of_digits (fuel : nat) :
  forall n acc, 0 <= n -> forallb is_digit acc = true ->
                forallb is_digit (digits_of fuel n acc) = true.
Proof.
  induction fuel as [|fuel IH]; intros n acc Hn Hacc; [exact Hacc|].
  cbn [digits_of].
  assert (Hd : forallb is_digit (byte_of (48 + n mod 10) :: acc) = true).
  { cbn [forallb]. rewrite is_digit_byte, Hacc; [reflexivity|].
    apply Z.mod_pos_bound. lia. }
  destruct (n <? 10); [exact Hd|].
  apply IH; [apply Z.div_pos; lia|exact Hd].
Qed.

Lemma digits_of_nonempty (fuel : nat) :
  forall n acc, acc <> [] -> digits_of fuel n acc <> [].
Proof.
  induction fuel as [|fuel IH]; intros n acc Hacc; [exact Hacc|].
  cbn [digits_of]. destruct (n <? 10); [discriminate|].
  apply IH. discriminate.
Qed.

(** [strconv.Atoi] reads back what [%d] prints. *)
Lemma strconv_Atoi_itoa (n : Z) :
  0 <= n <= maxInt64 -> strconv_Atoi (itoa n) = (n, false).
Proof.
  intros Hn.
  assert (Hne : itoa n <> []).
  { unfold itoa. destruct (n <? 0); [discriminate|].
    cbn [digits_of]. destruct (n <? 10); [discriminate|].
    apply digits_of_nonempty. discriminate. }
  assert (Hd : forallb is_digit (itoa n) = true).
  { unfold itoa. destruct (Z.ltb_spec n 0); [lia|].
    apply digits_of_digits; [lia|reflexivity]. }
  rewrite (strconv_Atoi_digits _ Hne Hd), itoa_value by lia.
  f_equal; [lia|]. apply Z.ltb_ge. lia.
Qed.

Lemma filter_none {A} (P : A -> bool) (l : list A) :
  (forall x, In x l -> P x = false) -> filter P l = [].
Proof.
  induction l as [|x l IH]; intros H; [reflexivity|].
  cbn [filter]. rewrite (H x) by now left.
  apply IH. intros y Hy. apply H. now right.
Qed.

Lemma fresh_charges_live (t : time_Time) (owner : Z) (cs : list Charge) :
  forall seq,
    map (fun c => charge_payload (escape_charge c))
        (filter live_charge (fresh_charges t owner seq (map reset_charge cs)))
    = map (fun c => charge_payload (escape_charge c)) (filter live_charge cs).
Proof.
  induction cs as [|c cs IH]; intros seq; [reflexivity|].
  cbn [map fresh_charges filter].
  change (live_charge (set_Charge_Model _ _)) with (live_charge c).
  destruct (live_charge c); cbn [map]; now rewrite IH.
Qed.

(** Create, then read what was created: after a create with a well-formed
    body whose invoice is not marked deleted, on a well-keyed store that
    answers, [getInvoice] for the reported key answers 200 with the
    encoding of an invoice that has that key, the fields of the body and,
    as charges, the body's charges that are not marked deleted, escaped
    and owned by the new invoice. *)
Theorem post_then_get
        (json_Unmarshal : gostring -> Invoice -> Invoice + gostring)
        (json_Marshal : Invoice -> gostring + gostring)
        (e e' : Env) (db : DB) (r r' : Request)
        (body : gostring) (i : Invoice) :
  keys_ok db ->
  invoice_seq db < maxInt64 ->
  Body r = inl body ->
  json_Unmarshal body zero_Invoice = inl i ->
  DeletedAt (Invoice_Model i) = None ->
  fails e (List.length (calls db)) = false ->
  let id := invoice_seq db + 1 in
  let db1 := snd (postInvoice json_Unmarshal e db r) in
  Vars_id r' = itoa id ->
  fails e' (List.length (calls db1)) = false ->
  fails e' (S (List.length (calls db1))) = false ->
  exists inv,
    Invoice_ID inv = id /\
    IsPaid inv = IsPaid i /\ Invoice_Amount inv = Invoice_Amount i /\
    PaymentDate inv = PaymentDate i /\ DueDate inv = DueDate i /\
    Forall (fun c => InvoiceID c = id) (Charges inv) /\
    map charge_payload (Charges inv)
    = map (fun c => charge_payload (escape_charge c))
          (filter live_charge (Charges i)) /\
    forall js, json_Marshal inv = inl js ->
               fst (getInvoice json_Marshal e' db1 r') = Done (json_response js).
Proof.
  intros K Hmax Hbody Hparse Hlive Hok id db1 Hvar Hok1 Hok2.
  pose proof (keys_ok_created e db i K) as K1.
  assert (Hdb1 : db1 = log_call (Last_Invoice (snd (gorm_Create e db (reset_ids i))))
                                (fst (gorm_Create e db (reset_ids i)))).
  { subst db1.
    now rewrite (postInvoice_run json_Unmarshal e db r body i Hbody Hparse). }
  rewrite (reset_ids_fresh e db i Hok) in Hdb1, K1. cbn [fst snd] in Hdb1, K1.
  fold id in Hdb1, K1.
  set (new := fresh_charges (now e) id (charge_seq db)
                            (map reset_charge (Charges i))) in *.
  set (row := created_row (now e) id (reset_ids i)) in *.
  destruct K as (_ & _ & _ & Hch & Hseq & _).
  assert (Hid : fst (strconv_Atoi (Vars_id r')) = id).
  { rewrite Hvar, strconv_Atoi_itoa; [reflexivity|subst id; lia]. }
  assert (Hfilter :
            filter (fun c => live_charge c && (InvoiceID c =? id)) (charges db1)
            = filter live_charge new).
  { rewrite Hdb1. cbn [charges log_call with_tables]. rewrite filter_app.
    rewrite (filter_none _ (charges db)).
    - cbn [app]. apply filter_ext_in. intros c Hc.
      apply fresh_charges_keys in Hc as [_ Hc].
      rewrite Hc, Z.eqb_refl. apply andb_true_r.
    - intros c Hc. rewrite Forall_forall in Hch. apply Hch in Hc.
      destruct (Z.eqb_spec (InvoiceID c) id); [subst id; lia|].
      apply andb_false_r. }
  exists (set_Charges row (map escape_charge (filter live_charge new))).
  repeat apply conj; try reflexivity.
  - apply Forall_map, Forall_forall. intros c Hc.
    apply filter_In in Hc as [Hc _].
    apply fresh_charges_keys in Hc as [_ Hc]. exact Hc.
  - cbn [Charges set_Charges]. rewrite map_map. apply fresh_charges_live.
  - intros js Hjs.
    rewrite (getInvoice_found json_Marshal e' db1 r' row js).
    + reflexivity.
    + rewrite Hdb1. exact (proj1 K1).
    + rewrite Hdb1. cbn [invoices log_call with_tables].
      apply in_app_iff. right. now left.
    + subst row. cbn. unfold visible. cbn. now rewrite Hlive.
    + now rewrite Hid.
    + rewrite Hid. subst id. lia.
    + exact Hok1.
    + exact Hok2.
    + rewrite Hid, Hfilter. exact Hjs.
Qed.

Lemma post_then_get_witness :
  fst (getInvoice json_Marshal_fields env0
         (snd (postInvoice json_Unmarshal_sample env0 store1
                           (request_post body_with_ids)))
         (sample_request "3" token0 ""))
  = Done (json_response
            (list_ascii_of_string
               "invoice 3 amount 500 paid: charge of 3 &lt;b&gt;fee&lt;/b&gt;|a &gt; b;")).
Proof.
  assert (Hmax : invoice_seq store1 < maxInt64) by reflexivity.
  assert (Hparse : json_Unmarshal_sample body_with_ids zero_Invoice
                   = inl invoice_with_ids) by (vm_compute; reflexivity).
  destruct (post_then_get json_Unmarshal_sample json_Marshal_fields env0 env0
              store1 (request_post body_with_ids)
              (sample_request "3" token0 "")
              body_with_ids invoice_with_ids store1_keys_ok Hmax
              eq_refl Hparse eq_refl eq_refl eq_refl eq_refl eq_refl)
    as (inv & Hid & Hpaid & Hamt & _ & _ & Hown & Hpay & Hget).
  apply Hget. unfold json_Marshal_fields.
  rewrite Hid, Hpaid, Hamt.
  destruct (Charges inv) as [|c [|c' cs]]; [discriminate Hpay| |discriminate Hpay].
  apply Forall_inv in Hown. injection Hpay as Hty _ Hde.
  cbn [flat_map]. rewrite Hown, Hty, Hde. reflexivity.
Defined.

(** Delete, then read: after a delete with a valid token whose invoice
    deletion the store answered, [getInvoice] for the same id answers 404
    in any environment. *)
Theorem delete_then_get
        (json_Marshal : Invoice -> gostring + gostring)
        (e e' : Env) (db : DB) (r r' : Request) :
  checkCSRFToken (Header_Get (req_Header r) "X-CSRF-Token"%string) = true ->
  fails e (S (List.length (calls db))) = false ->
  fst (strconv_Atoi (Vars_id r')) = fst (strconv_Atoi (Vars_id r)) ->
  fst (getInvoice json_Marshal e' (snd (deleteInvoice e db r)) r')
  = Done {| w_Header := []; w_status := 404;
            w_body := list_ascii_of_string "No invoice id " ++ Vars_id r' |}.
Proof.
  intros Htok Hok Hid.
  rewrite (deleteInvoice_accepted e db r Htok). cbn [snd].
  unfold getInvoice. rewrite gorm_First_missing; [reflexivity|].
  intros row Hin Hv Hrow.
  assert (Hok' : next_fails e (gorm_Delete_Charges e db
                                 (fst (strconv_Atoi (Vars_id r)))) = false).
  { unfold next_fails. rewrite calls_gorm_Delete_Charges, length_app.
    cbn [List.length]. now rewrite Nat.add_1_r. }
  rewrite (deleted_invoice_gone e _ _ row Hok' Hin) in Hv; [discriminate|].
  rewrite Hrow, Hid. reflexivity.
Qed.

Lemma delete_then_get_witness :
  fst (getInvoice json_Marshal_texts env0
         (snd (deleteInvoice env0 store1 (sample_request "1" token0 "")))
         (sample_request "1" token0 ""))
  = Done {| w_Header := []; w_status := 404;
            w_body := list_ascii_of_string "No invoice id 1" |}.
Proof.
  assert (Htok : checkCSRFToken
                   (Header_Get (req_Header (sample_request "1" token0 ""))
                               "X-CSRF-Token"%string) = true)
    by (vm_compute; reflexivity).
  exact (delete_then_get json_Marshal_texts env0 env0 store1
           (sample_request "1" token0 "") (sample_request "1" token0 "")
           Htok eq_refl eq_refl).
Defined.

(** Deleting twice is deleting once: when the store answered both calls
    of a delete, a second delete of the same id leaves every row as the
    first one left it, in any environment. *)
Theorem delete_twice (e e' : Env) (db : DB) (r : Request) :
  checkCSRFToken (Header_Get (req_Header r) "X-CSRF-Token"%string) = true ->
  fails e (List.length (calls db)) = false ->
  fails e (S (List.length (calls db))) = false ->
  let db1 := snd (deleteInvoice e db r) in
  let db2 := snd (deleteInvoice e' db1 r) in
  invoices db2 = invoices db1 /\ charges db2 = charges db1.
Proof.
  intros Htok Hok1 Hok2 db1 db2. subst db2.
  rewrite (deleteInvoice_accepted e' db1 r Htok). cbn [snd].
  set (id := fst (strconv_Atoi (Vars_id r))).
  set (i1 := set_Invoice_Model zero_Invoice (set_ID zero_Model id)).
  assert (Hdb1 : db1 = gorm_Delete_Invoice e (gorm_Delete_Charges e db id) i1).
  { subst db1. now rewrite (deleteInvoice_accepted e db r Htok). }
  assert (Hok2' : next_fails e (gorm_Delete_Charges e db id) = false).
  { unfold next_fails. rewrite calls_gorm_Delete_Charges, length_app.
    cbn [List.length]. now rewrite Nat.add_1_r. }
  assert (Hch : forall c, In c (charges db1) ->
                          visible (Charge_Model c) && (InvoiceID c =? id) = false).
  { intros c Hc. rewrite Hdb1, charges_gorm_Delete_Invoice in Hc.
    destruct (Z.eqb_spec (InvoiceID c) id) as [E|_]; [|apply andb_false_r].
    now rewrite (deleted_charges_gone e db id c Hok1 Hc E). }
  assert (Hinv : forall row, In row (invoices db1) ->
                             visible (Invoice_Model row)
                             && key_matches (Invoice_ID i1) (Invoice_ID row)
                             = false).
  { intros row Hrow. rewrite Hdb1 in Hrow. unfold gorm_Delete_Invoice in Hrow.
    rewrite Hok2' in Hrow. cbn [invoices with_tables] in Hrow.
    apply in_map_iff in Hrow as (r0 & <- & _).
    destruct (visible (Invoice_Model r0)) eqn:Hv; cbn [andb].
    - destruct (key_matches (Invoice_ID i1) (Invoice_ID r0)) eqn:Hk.
      + reflexivity.
      + rewrite Hv. cbn [andb]. exact Hk.
    - now rewrite Hv. }
  split.
  - unfold gorm_Delete_Invoice at 1.
    destruct (next_fails e' _); cbn [invoices log_call with_tables];
      rewrite ?invoices_gorm_Delete_Charges; [reflexivity|].
    now apply map_mark_fixed.
  - rewrite charges_gorm_Delete_Invoice. unfold gorm_Delete_Charges.
    destruct (next_fails e' db1); cbn [charges log_call with_tables];
      [reflexivity|].
    now apply map_mark_fixed.
Qed.

Lemma delete_twice_witness :
  invoices (snd (deleteInvoice env0
                   (snd (deleteInvoice env0 store1
                                       (sample_request "1" token0 "")))
                   (sample_request "1" token0 "")))
  = invoices (snd (deleteInvoice env0 store1 (sample_request "1" token0 ""))).
Proof.
  assert (Htok : checkCSRFToken
                   (Header_Get (req_Header (sample_request "1" token0 ""))
                               "X-CSRF-Token"%string) = true)
    by (vm_compute; reflexivity).
  exact (proj1 (delete_twice env0 env0 store1 (sample_request "1" token0 "")
                  Htok eq_refl eq_refl)).
Defined.

(** ** What a failing store call leaves behind *)

(** The confirmation of a delete says nothing about the store: with a
    valid token and a store that cannot be reached the answer is still 202
    [deleted invoice <id>], and every row is as it was. *)
Theorem deleteInvoice_store_down (e : Env) (db : DB) (r : Request) :
  checkCSRFToken (Header_Get (req_Header r) "X-CSRF-Token"%string) = true ->
  (forall n, fails e n = true) ->
  let id := fst (strconv_Atoi (Vars_id r)) in
  fst (deleteInvoice e db r)
  = Done {| w_Header := []; w_status := 202;
            w_body := list_ascii_of_string "deleted invoice " ++ itoa id |} /\
  invoices (snd (deleteInvoice e db r)) = invoices db /\
  charges (snd (deleteInvoice e db r)) = charges db.
Proof.
  intros Htok Hdown id.
  rewrite (deleteInvoice_accepted e db r Htok). cbn [fst snd]. fold id.
  unfold gorm_Delete_Invoice, gorm_Delete_Charges, next_fails.
  rewrite !Hdown. repeat split.
Qed.

Lemma deleteInvoice_store_down_witness :
  invoices (snd (deleteInvoice env_down store1 (sample_request "1" token0 "")))
  = invoices store1.
Proof.
  assert (Htok : checkCSRFToken
                   (Header_Get (req_Header (sample_request "1" token0 ""))
                               "X-CSRF-Token"%string) = true)
    by (vm_compute; reflexivity).
  destruct (deleteInvoice_store_down env_down store1
              (sample_request "1" token0 "") Htok (fun n => eq_refl))
    as (_ & Hinv & _).
  exact Hinv.
Defined.

(** When the lookup of the invoice is answered and the query for its
    charges fails, [getInvoice] still answers 200: the invoice is encoded
    with no charges at all. *)
Theorem getInvoice_charges_query_failed
        (json_Marshal : Invoice -> gostring + gostring)
        (e : Env) (db : DB) (r : Request) (row : Invoice) (js : gostring) :
  let id := fst (strconv_Atoi (Vars_id r)) in
  NoDup (map Invoice_ID (invoices db)) ->
  In row (invoices db) -> visible (Invoice_Model row) = true ->
  Invoice_ID row = id -> id <> 0 ->
  fails e (List.length (calls db)) = false ->
  fails e (S (List.length (calls db))) = true ->
  json_Marshal (set_Charges row []) = inl js ->
  fst (getInvoice json_Marshal e db r) = Done (json_response js).
Proof.
  intros id Hnd Hin Hv Hid Hne Hok1 Hfail Hjs. unfold getInvoice. fold id.
  rewrite (gorm_First_found e db id row Hok1 Hnd Hin Hv Hid).
  replace (Invoice_ID (set_Charges row [])) with id by (symmetry; exact Hid).
  destruct (Z.eqb_spec id 0); [contradiction|].
  unfold gorm_Find_Charges. rewrite next_fails_log_call, Hfail.
  cbn [Charges set_Charges map].
  change (set_Charges (set_Charges row []) []) with (set_Charges row []).
  now rewrite Hjs.
Qed.

Lemma getInvoice_charges_query_failed_witness :
  fst (getInvoice json_Marshal_texts
         {| now := 0; random := []; fails := fun n => Nat.eqb n 1;
            cut_short := fun _ => None |}
         store1 (sample_request "1" token0 ""))
  = Done (json_response []).
Proof.
  apply (getInvoice_charges_query_failed json_Marshal_texts
           {| now := 0; random := []; fails := fun n => Nat.eqb n 1;
            cut_short := fun _ => None |}
           store1 (sample_request "1" token0 "") invoice1).
  - repeat constructor; cbn; intuition discriminate.
  - now left.
  - reflexivity.
  - reflexivity.
  - vm_compute; discriminate.
  - reflexivity.
  - reflexivity.
  - reflexivity.
Defined.

Lemma fold_later_row_max (l : list Invoice) :
  forall init r,
    fold_left later_row l init = Some r ->
    (forall b, init = Some b -> Invoice_ID b <= Invoice_ID r) /\
    (forall x, In x l -> Invoice_ID x <= Invoice_ID r).
Proof.
  induction l as [|x l IH]; intros init r; cbn [fold_left].
  - intros ->. split; [now intros b [= ->]; lia|intros x []].
  - intros H. apply IH in H as [Hb Hl].
    assert (Hx : Invoice_ID x <= Invoice_ID r).
    { unfold later_row in Hb. destruct init as [b|].
      - destruct (Z.leb_spec (Invoice_ID b) (Invoice_ID x)).
        + now apply Hb.
        + specialize (Hb b eq_refl). lia.
      - now apply Hb. }
    split.
    + intros b ->. unfold later_row in Hb.
      destruct (Z.leb_spec (Invoice_ID b) (Invoice_ID x)); [lia|].
      now apply Hb.
    + intros y [<-|Hy]; [exact Hx|now apply Hl].
Qed.

(** A create whose insertion the store refuses (nothing of it is written
    and the struct is left as it was) while the reload is answered reports
    an invoice that is not the client's: the answer is 201 [created
    invoice <k>] where [k] is the greatest key of a live invoice already
    in the store, and no row was written. *)
Theorem postInvoice_failed_insert_reports_last
        (json_Unmarshal : gostring -> Invoice -> Invoice + gostring)
        (e : Env) (db : DB) (r : Request) (body : gostring) (i : Invoice)
        (old : Invoice) :
  Body r = inl body ->
  json_Unmarshal body zero_Invoice = inl i ->
  fails e (List.length (calls db)) = true ->
  cut_short e (List.length (calls db)) = None ->
  fails e (S (List.length (calls db))) = false ->
  In old (invoices db) -> visible (Invoice_Model old) = true ->
  exists last,
    In last (invoices db) /\ visible (Invoice_Model last) = true /\
    (forall x, In x (invoices db) -> visible (Invoice_Model x) = true ->
               Invoice_ID x <= Invoice_ID last) /\
    fst (postInvoice json_Unmarshal e db r)
    = Done {| w_Header := []; w_status := 201;
              w_body := list_ascii_of_string "created invoice "
                        ++ itoa (Invoice_ID last) |} /\
    invoices (snd (postInvoice json_Unmarshal e db r)) = invoices db /\
    charges (snd (postInvoice json_Unmarshal e db r)) = charges db.
Proof.
  intros Hbody Hparse Hfail Hcut Hok Hin Hv.
  rewrite (postInvoice_run json_Unmarshal e db r body i Hbody Hparse).
  assert (Hrefused : create_cut e db = None).
  { unfold create_cut. now rewrite Hok, Hcut. }
  rewrite (gorm_Create_refused e db (reset_ids i) Hfail Hrefused).
  cbn [fst snd].
  unfold gorm_Last. rewrite next_fails_log_call, Hok.
  cbn [invoices log_call].
  change (Invoice_ID (reset_ids i)) with 0.
  set (live := filter _ (invoices db)).
  assert (Hold : In old live).
  { apply filter_In. split; [exact Hin|]. now rewrite Hv. }
  destruct (fold_left later_row live None) as [last|] eqn:E.
  - pose proof (fold_later_row_max _ _ _ E) as [_ Hmax].
    apply fold_later_row in E as [E|E]; [|discriminate].
    apply filter_In in E as [Hl1 Hl2]. apply andb_true_iff in Hl2 as [Hl2 _].
    exists last. repeat split; auto.
    intros x Hx Hxv. apply Hmax. apply filter_In. split; [exact Hx|].
    now rewrite Hxv.
  - exfalso. clear - Hold E.
    assert (G : forall l init, l <> [] -> fold_left later_row l init <> None).
    { induction l as [|x l IH]; intros init Hne; [congruence|].
      cbn [fold_left]. destruct l as [|y l].
      - cbn. unfold later_row. destruct init; [destruct (_ <=? _)|];
          discriminate.
      - apply IH. discriminate. }
    apply (G live None); [|exact E]. intros El. now rewrite El in Hold.
Qed.

Lemma postInvoice_failed_insert_reports_last_witness :
  fst (postInvoice json_Unmarshal_sample (env_refusing 0) store1
                   (request_post body_with_ids))
  = Done {| w_Header := []; w_status := 201;
            w_body := list_ascii_of_string "created invoice 2" |} /\
  invoices (snd (postInvoice json_Unmarshal_sample (env_refusing 0) store1
                             (request_post body_with_ids)))
  = invoices store1 /\
  charges (snd (postInvoice json_Unmarshal_sample (env_refusing 0) store1
                            (request_post body_with_ids)))
  = charges store1.
Proof.
  assert (Hparse : json_Unmarshal_sample body_with_ids zero_Invoice
                   = inl invoice_with_ids) by (vm_compute; reflexivity).
  destruct (postInvoice_failed_insert_reports_last json_Unmarshal_sample
              (env_refusing 0) store1 (request_post body_with_ids)
              body_with_ids invoice_with_ids invoice1
              eq_refl Hparse eq_refl eq_refl eq_refl (or_introl eq_refl) eq_refl)
    as (last & Hin & _ & Hmax & Hresp & Hi & Hc).
  split; [|split; [exact Hi|exact Hc]].
  rewrite Hresp. do 3 f_equal.
  assert (H2 : Invoice_ID invoice2 <= Invoice_ID last).
  { apply Hmax; [right; left; reflexivity|reflexivity]. }
  destruct Hin as [<-|[<-|[]]]; [cbn in H2; lia|reflexivity].
Defined.

(** A create whose insertion is cut short while the charges are saved,
    on a well-keyed store that answers the reload, reports the key the
    insertion had taken for the invoice, the next of the table's sequence:
    the answer is 201 [created invoice <k>] although the transaction was
    rolled back, so that no row, live or deleted, has the key [k], and both
    tables are as they were. *)
Theorem postInvoice_cut_short_reports_new_key
        (json_Unmarshal : gostring -> Invoice -> Invoice + gostring)
        (e : Env) (db : DB) (r : Request) (body : gostring) (i : Invoice)
        (kept : list Charge) :
  keys_ok db ->
  Body r = inl body ->
  json_Unmarshal body zero_Invoice = inl i ->
  fails e (List.length (calls db)) = true ->
  cut_short e (List.length (calls db)) = Some kept ->
  fails e (S (List.length (calls db))) = false ->
  fst (postInvoice json_Unmarshal e db r)
  = Done {| w_Header := []; w_status := 201;
            w_body := list_ascii_of_string "created invoice "
                      ++ itoa (invoice_seq db + 1) |} /\
  (forall x, In x (invoices (snd (postInvoice json_Unmarshal e db r))) ->
             Invoice_ID x <> invoice_seq db + 1) /\
  invoices (snd (postInvoice json_Unmarshal e db r)) = invoices db /\
  charges (snd (postInvoice json_Unmarshal e db r)) = charges db /\
  invoice_seq (snd (postInvoice json_Unmarshal e db r)) = invoice_seq db.
Proof.
  intros K Hbody Hparse Hfail Hcut Hok.
  rewrite (postInvoice_run json_Unmarshal e db r body i Hbody Hparse).
  assert (Hc : create_cut e db = Some kept).
  { unfold create_cut. now rewrite Hok, Hcut. }
  assert (Hcreate :
            gorm_Create e db (reset_ids i)
            = (log_call (Create_Invoice (reset_ids i)) db,
               set_Charges
                 (set_Invoice_Model (reset_ids i)
                    (set_ID (stamp (now e) (Invoice_Model (reset_ids i)))
                            (invoice_seq db + 1)))
                 kept)).
  { unfold gorm_Create.
    change (next_fails e db) with (fails e (List.length (calls db))).
    rewrite Hfail, Hc.
    change (Invoice_ID (reset_ids i)) with 0. reflexivity. }
  rewrite Hcreate. cbn [fst snd].
  destruct K as (_ & Hinv & _ & _ & Hseq & _).
  rewrite Forall_forall in Hinv.
  assert (Hnew : forall x, In x (invoices db) ->
                           Invoice_ID x <> invoice_seq db + 1).
  { intros x Hx. apply Hinv in Hx. lia. }
  unfold gorm_Last. rewrite next_fails_log_call, Hok.
  cbn [invoices log_call].
  change (Invoice_ID (set_Charges _ kept)) with (invoice_seq db + 1).
  rewrite filter_none.
  - cbn [fold_left fst snd Invoice_ID Invoice_Model set_Charges
         set_Invoice_Model set_ID ID].
    repeat split; auto.
  - intros x Hx. unfold key_matches.
    destruct (Z.eqb_spec (invoice_seq db + 1) 0); [lia|].
    destruct (Z.eqb_spec (Invoice_ID x) (invoice_seq db + 1)) as [E|_];
      [now apply Hnew in E|].
    apply andb_false_r.
Qed.

Lemma postInvoice_cut_short_reports_new_key_witness :
  fst (postInvoice json_Unmarshal_sample env_cut_short store1
                   (request_post body_with_ids))
  = Done {| w_Header := []; w_status := 201;
            w_body := list_ascii_of_string "created invoice 3" |} /\
  (forall x, In x (invoices (snd (postInvoice json_Unmarshal_sample
                                              env_cut_short store1
                                              (request_post body_with_ids)))) ->
             Invoice_ID x <> 3) /\
  invoices (snd (postInvoice json_Unmarshal_sample env_cut_short store1
                             (request_post body_with_ids)))
  = invoices store1 /\
  charges (snd (postInvoice json_Unmarshal_sample env_cut_short store1
                            (request_post body_with_ids)))
  = charges store1.
Proof.
  assert (Hparse : json_Unmarshal_sample body_with_ids zero_Invoice
                   = inl invoice_with_ids) by (vm_compute; reflexivity).
  destruct (postInvoice_cut_short_reports_new_key json_Unmarshal_sample
              env_cut_short store1 (request_post body_with_ids)
              body_with_ids invoice_with_ids [] store1_keys_ok
              eq_refl Hparse eq_refl eq_refl eq_refl)
    as (Hresp & Hnew & Hi & Hc & _).
  split; [exact Hresp|]. split; [exact Hnew|]. split; [exact Hi|exact Hc].
Defined.

(** ** base64 as the handlers use it *)

(** What the token functions and [getIndex] rely on: an encoded text is
    made of whole groups of four characters, holds no [$], and decodes
    without error to the bytes it was made from. *)
Theorem base64_encode_decode (m : gostring) :
  base64_DecodeString (base64_EncodeToString m) = (m, false) /\
  len (base64_EncodeToString m) = 4 * ((len m + 2) / 3) /\
  ~ In "$"%char (base64_EncodeToString m).
Proof.
  repeat split.
  - apply base64_roundtrip.
  - apply encode_len.
  - apply encode_no_dollar.
Qed.
